(** * EaMo-Converter: the link-conversion core of the Telegram bot

    The repository holds two entry points built on the same utilities:
    the webhook handler ([api/index.js], module [Webhook]) and the
    long-polling bot (module [Poller]).

    - JavaScript strings are sequences of UTF-16 code units, modelled as
      [list N]; a message is a text message.
    - Regular expressions get the backtracking semantics of ECMA-262:
      matchers in continuation-passing style, tried from each start index
      in turn.
    - [URL] and [URLSearchParams] are platform classes.  Their serialiser,
      the [search] accessors and the parameter list are modelled after
      the WHATWG URL standard; the parser behind [new URL] is a parameter
      of the definitions that use it.
    - [axios.get] is redirect following over a function that stands for
      the network.
    - A handler maps the bot's state and a message to the state
      afterwards and the list of what it did: messages sent, requests
      made, saves, the HTTP response. *)

From Stdlib Require Import NArith ZArith String Ascii List Bool Lia.
From stdpp Require Import base option list gmap.

Open Scope N_scope.

(** ** JavaScript strings *)

Abbreviation jsstring := (list N).

(** A source literal (ASCII) as a sequence of code units. *)
Definition js (s : string) : jsstring :=
  List.map N_of_ascii (list_ascii_of_string s).

Definition in_range (lo hi c : N) : bool := (lo <=? c) && (c <=? hi).

Definition in_ranges (rs : list (N * N)) (c : N) : bool :=
  existsb (fun r => in_range (fst r) (snd r) c) rs.

(** WhiteSpace and LineTerminator code units: what [\s] matches and what
    [String.prototype.trim] strips. *)
Definition white_space : list (N * N) :=
  [(9, 13); (32, 32); (160, 160); (5760, 5760); (8192, 8202); (8232, 8233);
   (8239, 8239); (8287, 8287); (12288, 12288); (65279, 65279)].

Definition line_terminator : list (N * N) :=
  [(10, 10); (13, 13); (8232, 8233)].

Definition is_space (c : N) : bool := in_ranges white_space c.

Fixpoint drop_while (p : N -> bool) (s : jsstring) : jsstring :=
  match s with
  | [] => []
  | c :: s' => if p c then drop_while p s' else s
  end.

Definition trim_start (s : jsstring) : jsstring := drop_while is_space s.
Definition trim_end (s : jsstring) : jsstring :=
  rev (drop_while is_space (rev s)).
Definition trim (s : jsstring) : jsstring := trim_end (trim_start s).

Fixpoint startsWith (s p : jsstring) {struct p} : bool :=
  match p, s with
  | [], _ => true
  | a :: p', b :: s' => (a =? b) && startsWith s' p'
  | _ :: _, [] => false
  end.

Fixpoint str_eqb (a b : jsstring) : bool :=
  match a, b with
  | [], [] => true
  | x :: a', y :: b' => (x =? y) && str_eqb a' b'
  | _, _ => false
  end.

(** ** Regular expressions (ECMA-262, 22.2.2 Pattern Semantics)

    Only the constructs the source's literals use: character classes,
    [.], greedy quantifiers, groups, alternation, [^] and [$], and the
    [i] flag. *)

Inductive regex : Type :=
| Empty
| Chr (A : list (N * N)) (invert : bool)
| Dot
| Seq (r1 r2 : regex)
| Alt (r1 r2 : regex)
| Quant (r : regex) (min : nat) (max : option nat)
| Group (n : nat) (r : regex)
| AssertStart
| AssertEnd.

Record MatchState : Type := mkState {
  endIndex : nat;
  rest : jsstring;
  captures : list (nat * jsstring)
}.

Definition Continuation := MatchState -> option MatchState.
Definition Matcher := MatchState -> Continuation -> option MatchState.

(** Canonicalize(ch) without the [u] flag: the upper-case mapping, except
    that a code unit above 127 is never mapped into ASCII.  Every literal
    and class written in the source is ASCII, so only the ASCII part of
    the mapping can make a comparison succeed. *)
Definition Canonicalize (ignoreCase : bool) (ch : N) : N :=
  if ignoreCase && in_range 97 122 ch then ch - 32 else ch.

(** Whether some member [a] of the ASCII set [A] has
    [Canonicalize a = cc], for [cc] already canonical. *)
Definition set_has (ignoreCase : bool) (A : list (N * N)) (cc : N) : bool :=
  in_ranges A cc || (ignoreCase && in_range 65 90 cc && in_ranges A (cc + 32)).

Definition advance (x : MatchState) (s : jsstring) : MatchState :=
  mkState (S (endIndex x)) s (captures x).

Definition CharacterSetMatcher (ignoreCase : bool) (A : list (N * N))
    (invert : bool) : Matcher :=
  fun x c =>
    match rest x with
    | [] => None
    | ch :: s =>
        let found := set_has ignoreCase A (Canonicalize ignoreCase ch) in
        if xorb invert found then c (advance x s) else None
    end.

Definition DotMatcher : Matcher :=
  fun x c =>
    match rest x with
    | [] => None
    | ch :: s => if in_ranges line_terminator ch then None else c (advance x s)
    end.

Fixpoint group_numbers (r : regex) : list nat :=
  match r with
  | Seq r1 r2 | Alt r1 r2 => group_numbers r1 ++ group_numbers r2
  | Quant r' _ _ => group_numbers r'
  | Group n r' => n :: group_numbers r'
  | _ => []
  end.

Definition clear_captures (ns : list nat) (x : MatchState) : MatchState :=
  mkState (endIndex x) (rest x)
    (List.filter (fun p => negb (existsb (Nat.eqb (fst p)) ns)) (captures x)).

Definition dec_max (max : option nat) : option nat :=
  match max with Some n => Some (Nat.pred n) | None => None end.

(** RepeatMatcher for a greedy quantifier.  [fuel] bounds the number of
    iterations; [min + length (rest x) + 1] always suffices, because an
    iteration with [min = 0] must consume input. *)
Fixpoint RepeatMatcher (m : Matcher) (parens : list nat) (fuel : nat)
    (min : nat) (max : option nat) (x : MatchState) (c : Continuation)
    : option MatchState :=
  match fuel with
  | O => None
  | S fuel' =>
      match max with
      | Some O => c x
      | _ =>
          let d : Continuation := fun y =>
            if Nat.eqb min 0 && Nat.eqb (endIndex y) (endIndex x) then None
            else RepeatMatcher m parens fuel' (Nat.pred min) (dec_max max) y c in
          let xr := clear_captures parens x in
          if negb (Nat.eqb min 0) then m xr d
          else match m xr d with
               | Some z => Some z
               | None => c x
               end
      end
  end.

Definition set_capture (n : nat) (v : jsstring) (x : MatchState) : MatchState :=
  mkState (endIndex x) (rest x)
    ((n, v) :: List.filter (fun p => negb (Nat.eqb (fst p) n)) (captures x)).

Fixpoint compile (ignoreCase : bool) (r : regex) : Matcher :=
  match r with
  | Empty => fun x c => c x
  | Chr A invert => CharacterSetMatcher ignoreCase A invert
  | Dot => DotMatcher
  | Seq r1 r2 =>
      fun x c => compile ignoreCase r1 x (fun y => compile ignoreCase r2 y c)
  | Alt r1 r2 =>
      fun x c =>
        match compile ignoreCase r1 x c with
        | Some z => Some z
        | None => compile ignoreCase r2 x c
        end
  | Quant r' min max =>
      fun x c =>
        RepeatMatcher (compile ignoreCase r') (group_numbers r')
          (min + length (rest x) + 1) min max x c
  | Group n r' =>
      fun x c =>
        compile ignoreCase r' x (fun y =>
          c (set_capture n
               (take (endIndex y - endIndex x) (rest x)) y))
  | AssertStart => fun x c => if Nat.eqb (endIndex x) 0 then c x else None
  | AssertEnd => fun x c => match rest x with [] => c x | _ => None end
  end.

Record RegExp : Type := mkRegExp { pattern : regex; ignoreCase : bool }.

(** The array [exec] returns: index, the whole match, the groups. *)
Record MatchResult : Type := mkResult {
  index : nat;
  matched : jsstring;
  groups : list (nat * jsstring)
}.

(** RegExpBuiltinExec without [g] or [y]: the first start index, from 0,
    at which the matcher succeeds. *)
Fixpoint exec_from (re : RegExp) (i : nat) (s : jsstring) : option MatchResult :=
  match compile (ignoreCase re) (pattern re) (mkState i s []) Some with
  | Some y => Some (mkResult i (take (endIndex y - i) s) (captures y))
  | None =>
      match s with
      | [] => None
      | _ :: s' => exec_from re (S i) s'
      end
  end.

Definition exec (re : RegExp) (s : jsstring) : option MatchResult :=
  exec_from re 0 s.

Definition test (re : RegExp) (s : jsstring) : bool :=
  match exec re s with Some _ => true | None => false end.

Definition group (n : nat) (m : MatchResult) : option jsstring :=
  snd <$> List.find (fun p => Nat.eqb (fst p) n) (groups m).

(** *** Building patterns the way the literals are written *)

Definition chr (c : string) : regex :=
  match js c with
  | [a] => Chr [(a, a)] false
  | _ => Empty
  end.

Definition cat (rs : list regex) : regex := fold_left Seq rs Empty.

Fixpoint alt (rs : list regex) : regex :=
  match rs with
  | [] => Empty
  | [r] => r
  | r :: rs' => Alt r (alt rs')
  end.

Definition lit (s : string) : regex :=
  cat (List.map (fun a => Chr [(a, a)] false) (js s)).

Definition plus (r : regex) : regex := Quant r 1%nat None.
Definition star (r : regex) : regex := Quant r 0%nat None.

Definition alnum : regex := Chr [(97, 122); (65, 90); (48, 57)] false.
Definition digit : regex := Chr [(48, 57)] false.
Definition upper_alnum : regex := Chr [(65, 90); (48, 57)] false.
Definition non_space : regex := Chr white_space true.

(** ** Utilities shared by the two entry points

    [isValidAmazonTag] has the same text in both files. *)

(** [/^[a-zA-Z0-9]+(?:-[a-zA-Z0-9]+)*-[0-9]{1,3}$/] *)
Definition tagRegex : RegExp :=
  mkRegExp
    (cat [AssertStart; plus alnum; star (cat [chr "-"; plus alnum]);
          chr "-"; Quant digit 1%nat (Some 3%nat); AssertEnd])
    false.

Definition isValidAmazonTag (tag : jsstring) : bool := test tagRegex tag.


(** ** What a matcher finds: the declarative reading of a pattern *)

Section PatternSemantics.

Variable ic : bool.

(** Iterations of a quantified atom, as RepeatMatcher performs them. *)
Inductive Rep (P : MatchState -> MatchState -> Prop) (parens : list nat)
  : nat -> option nat -> MatchState -> MatchState -> Prop :=
| Rep_stop min max x :
    min = 0%nat \/ max = Some 0%nat -> Rep P parens min max x x
| Rep_step min max x y z :
    max <> Some 0%nat ->
    P (clear_captures parens x) y ->
    (min = 0%nat -> endIndex y <> endIndex x) ->
    Rep P parens (Nat.pred min) (dec_max max) y z ->
    Rep P parens min max x z.

Definition accepts (A : list (N * N)) (invert : bool) (ch : N) : bool :=
  xorb invert (set_has ic A (Canonicalize ic ch)).

Fixpoint Matches (r : regex) (x y : MatchState) : Prop :=
  match r with
  | Empty => y = x
  | Chr A invert =>
      exists ch s, rest x = ch :: s /\ accepts A invert ch = true /\ y = advance x s
  | Dot =>
      exists ch s, rest x = ch :: s /\ in_ranges line_terminator ch = false
                   /\ y = advance x s
  | Seq r1 r2 => exists m, Matches r1 x m /\ Matches r2 m y
  | Alt r1 r2 => Matches r1 x y \/ Matches r2 x y
  | Quant r' min max => Rep (Matches r') (group_numbers r') min max x y
  | Group n r' =>
      exists m, Matches r' x m
                /\ y = set_capture n (take (endIndex m - endIndex x) (rest x)) m
  | AssertStart => endIndex x = 0%nat /\ y = x
  | AssertEnd => rest x = [] /\ y = x
  end.

(** A match consumes a prefix of the remaining input and moves the end
    index by its length. *)
Definition spans (x y : MatchState) : Prop :=
  exists w, rest x = w ++ rest y /\ endIndex y = (endIndex x + length w)%nat.

(** The words a pattern can consume, positions and captures forgotten. *)
Inductive RepL (L : jsstring -> Prop)
  : nat -> option nat -> jsstring -> Prop :=
| RepL_stop min max :
    min = 0%nat \/ max = Some 0%nat -> RepL L min max []
| RepL_step min max w1 w2 :
    max <> Some 0%nat ->
    L w1 ->
    (min = 0%nat -> w1 <> []) ->
    RepL L (Nat.pred min) (dec_max max) w2 ->
    RepL L min max (w1 ++ w2).

Fixpoint Lang (r : regex) (w : jsstring) : Prop :=
  match r with
  | Empty => w = []
  | Chr A invert => exists ch, w = [ch] /\ accepts A invert ch = true
  | Dot => exists ch, w = [ch] /\ in_ranges line_terminator ch = false
  | Seq r1 r2 => exists w1 w2, w = w1 ++ w2 /\ Lang r1 w1 /\ Lang r2 w2
  | Alt r1 r2 => Lang r1 w \/ Lang r2 w
  | Quant r' min max => RepL (Lang r') min max w
  | Group _ r' => Lang r' w
  | AssertStart => w = []
  | AssertEnd => w = []
  end.

Fixpoint anchor_free (r : regex) : bool :=
  match r with
  | Seq r1 r2 | Alt r1 r2 => anchor_free r1 && anchor_free r2
  | Quant r' _ _ | Group _ r' => anchor_free r'
  | AssertStart | AssertEnd => false
  | _ => true
  end.

Definition consumes (x y : MatchState) (w : jsstring) : Prop :=
  rest x = w ++ rest y /\ endIndex y = (endIndex x + length w)%nat.

Definition bounded (min : nat) (max : option nat) : Prop :=
  match max with Some m => (min <= m)%nat | None => True end.

(** Sequences written as [cat], piece by piece. *)
Fixpoint LangList (rs : list regex) (w : jsstring) : Prop :=
  match rs with
  | [] => w = []
  | r :: rs' => exists w1 w2, w = w1 ++ w2 /\ Lang r w1 /\ LangList rs' w2
  end.

(** The same decomposition on match states. *)
Fixpoint MatchesList (rs : list regex) (x y : MatchState) : Prop :=
  match rs with
  | [] => y = x
  | r :: rs' => exists m, Matches r x m /\ MatchesList rs' m y
  end.

End PatternSemantics.



(** ** Encodings used by the URL platform classes

    [URL] and [URLSearchParams] work on scalar-value strings and their
    UTF-8 bytes (WHATWG Encoding and URL standards). *)

Definition is_lead_surrogate (c : N) : bool := in_range 55296 56319 c.
Definition is_trail_surrogate (c : N) : bool := in_range 56320 57343 c.

(** Conversion to a USVString: surrogate pairs are combined, lone
    surrogates become U+FFFD. *)
Fixpoint to_scalar_values (s : jsstring) : list N :=
  match s with
  | [] => []
  | c :: s' =>
      if is_lead_surrogate c then
        match s' with
        | d :: s'' =>
            if is_trail_surrogate d
            then (65536 + (c - 55296) * 1024 + (d - 56320)) :: to_scalar_values s''
            else 65533 :: to_scalar_values s'
        | [] => [65533]
        end
      else if is_trail_surrogate c then 65533 :: to_scalar_values s'
      else c :: to_scalar_values s'
  end.

Definition code_units_of (cp : N) : jsstring :=
  if cp <? 65536 then [cp]
  else [55296 + (cp - 65536) / 1024; 56320 + (cp - 65536) mod 1024].

Definition of_scalar_values (cps : list N) : jsstring :=
  flat_map code_units_of cps.

Definition utf8_encode_cp (cp : N) : list N :=
  if cp <? 128 then [cp]
  else if cp <? 2048 then [192 + cp / 64; 128 + cp mod 64]
  else if cp <? 65536 then
    [224 + cp / 4096; 128 + (cp / 64) mod 64; 128 + cp mod 64]
  else
    [240 + cp / 262144; 128 + (cp / 4096) mod 64; 128 + (cp / 64) mod 64;
     128 + cp mod 64].

Definition utf8_encode (s : jsstring) : list N :=
  flat_map utf8_encode_cp (to_scalar_values s).

(** The UTF-8 decoder's state while inside a multi-byte sequence: the
    code point so far, the bytes still needed, and the bounds on the
    next byte. *)
Record Utf8State : Type := mkUtf8 {
  u_cp : N; u_needed : nat; u_lower : N; u_upper : N
}.

Definition utf8_lead (b : N) : list N * option Utf8State :=
  if b <=? 127 then ([b], None)
  else if in_range 194 223 b then ([], Some (mkUtf8 (b - 192) 1 128 191))
  else if in_range 224 239 b then
    ([], Some (mkUtf8 (b - 224) 2 (if b =? 224 then 160 else 128)
                      (if b =? 237 then 159 else 191)))
  else if in_range 240 244 b then
    ([], Some (mkUtf8 (b - 240) 3 (if b =? 240 then 144 else 128)
                      (if b =? 244 then 143 else 191)))
  else ([65533], None).

(** UTF-8 decode without BOM, errors replaced by U+FFFD. *)
Fixpoint utf8_decode_from (st : option Utf8State) (bs : list N) : list N :=
  match bs with
  | [] => match st with Some _ => [65533] | None => [] end
  | b :: bs' =>
      match st with
      | None =>
          let (out, st') := utf8_lead b in out ++ utf8_decode_from st' bs'
      | Some u =>
          if in_range (u_lower u) (u_upper u) b then
            let cp := u_cp u * 64 + (b - 128) in
            match u_needed u with
            | S (S n) => utf8_decode_from (Some (mkUtf8 cp (S n) 128 191)) bs'
            | _ => cp :: utf8_decode_from None bs'
            end
          else
            let (out, st') := utf8_lead b in
            65533 :: out ++ utf8_decode_from st' bs'
      end
  end.

Definition utf8_decode (bs : list N) : jsstring :=
  of_scalar_values (utf8_decode_from None bs).

(** An upper-case hexadecimal digit, for a value below 16. *)
Definition hex_digit (n : N) : N :=
  let n := n mod 16 in if n <? 10 then 48 + n else 55 + n.

Definition percent_encode_byte (b : N) : list N :=
  [37; hex_digit (b / 16); hex_digit (b mod 16)].

Definition hex_value (c : N) : option N :=
  if in_range 48 57 c then Some (c - 48)
  else if in_range 65 70 c then Some (c - 55)
  else if in_range 97 102 c then Some (c - 87)
  else None.

Fixpoint percent_decode (bs : list N) : list N :=
  match bs with
  | [] => []
  | b :: bs' =>
      if b =? 37 then
        match bs' with
        | h :: bs'' =>
            match bs'' with
            | l :: bs''' =>
                match hex_value h, hex_value l with
                | Some hv, Some lv => (hv * 16 + lv) :: percent_decode bs'''
                | _, _ => b :: percent_decode bs'
                end
            | [] => b :: percent_decode bs'
            end
        | [] => [b]
        end
      else b :: percent_decode bs'
  end.

Definition is_ascii_alnum (c : N) : bool :=
  in_ranges [(97, 122); (65, 90); (48, 57)] c.

(** *** application/x-www-form-urlencoded *)

Definition urlencoded_safe (b : N) : bool :=
  is_ascii_alnum b || in_ranges [(42, 42); (45, 46); (95, 95)] b.

Definition urlencoded_byte (b : N) : list N :=
  if b =? 32 then [43]
  else if urlencoded_safe b then [b]
  else percent_encode_byte b.

Definition urlencoded_string (s : jsstring) : jsstring :=
  flat_map urlencoded_byte (utf8_encode s).

Fixpoint split_on (sep : N) (bs : list N) : list (list N) :=
  match bs with
  | [] => [[]]
  | b :: bs' =>
      if b =? sep then [] :: split_on sep bs'
      else match split_on sep bs' with
           | seg :: segs => (b :: seg) :: segs
           | [] => [[b]]
           end
  end.

Fixpoint split_first (sep : N) (bs : list N) : list N * list N :=
  match bs with
  | [] => ([], [])
  | b :: bs' =>
      if b =? sep then ([], bs')
      else let (n, v) := split_first sep bs' in (b :: n, v)
  end.

Definition plus_to_space (bs : list N) : list N :=
  List.map (fun b => if b =? 43 then 32 else b) bs.

Definition urlencoded_decode (bs : list N) : jsstring :=
  utf8_decode (percent_decode (plus_to_space bs)).

Definition urlencoded_parse (input : list N) : list (jsstring * jsstring) :=
  List.map (fun seq =>
              let (n, v) := split_first 61 seq in
              (urlencoded_decode n, urlencoded_decode v))
           (List.filter (fun seq => negb (Nat.eqb (length seq) 0))
                        (split_on 38 input)).

Fixpoint join (sep : jsstring) (parts : list jsstring) : jsstring :=
  match parts with
  | [] => []
  | [p] => p
  | p :: ps => p ++ sep ++ join sep ps
  end.

Definition urlencoded_serialize (l : list (jsstring * jsstring)) : jsstring :=
  join [38] (List.map (fun p => urlencoded_string (fst p) ++ [61]
                                ++ urlencoded_string (snd p)) l).

(** A single leading [?] is dropped by the [URLSearchParams] constructor
    and by the [search] setter. *)
Definition drop_question_mark (s : jsstring) : jsstring :=
  match s with
  | c :: s' => if c =? 63 then s' else s
  | [] => []
  end.

(** *** URLSearchParams: a list of name-value pairs *)

Module URLSearchParams.

Definition t := list (jsstring * jsstring).

(** [new URLSearchParams(init)] for a string [init]. *)
Definition new (init : jsstring) : t :=
  urlencoded_parse (utf8_encode (drop_question_mark init)).

(** [delete(name)]: all pairs of that name are removed. *)
Definition delete (name : jsstring) (l : t) : t :=
  List.filter (fun p => negb (str_eqb (fst p) name)) l.

Fixpoint set_first (name value : jsstring) (l : t) : t :=
  match l with
  | [] => []
  | p :: l' =>
      if str_eqb (fst p) name then (fst p, value) :: delete name l'
      else p :: set_first name value l'
  end.

(** [set(name, value)]: the first pair of that name gets the value and
    the others go; with no such pair, one is appended.  Both arguments
    are converted to USVStrings. *)
Definition set (name value : jsstring) (l : t) : t :=
  let name := of_scalar_values (to_scalar_values name) in
  let value := of_scalar_values (to_scalar_values value) in
  if existsb (fun p => str_eqb (fst p) name) l
  then set_first name value l
  else l ++ [(name, value)].

Definition toString (l : t) : jsstring := urlencoded_serialize l.

End URLSearchParams.

(** *** URL records *)

Inductive UrlPath : Type :=
| OpaquePath (p : jsstring)
| Segments (segs : list jsstring).

Record URL : Type := mkURL {
  scheme : jsstring;
  username : jsstring;
  password : jsstring;
  host : option jsstring;
  port : option N;
  path : UrlPath;
  query : option jsstring;
  fragment : option jsstring
}.

Fixpoint decimal_digits (fuel : nat) (n : N) (acc : jsstring) : jsstring :=
  match fuel with
  | O => acc
  | S fuel' =>
      let acc' := (48 + n mod 10) :: acc in
      if n <? 10 then acc' else decimal_digits fuel' (n / 10) acc'
  end.

Definition decimal (n : N) : jsstring := decimal_digits (S (N.to_nat n)) n [].

Definition serialize_path (p : UrlPath) : jsstring :=
  match p with
  | OpaquePath s => s
  | Segments segs => flat_map (fun seg => 47 :: seg) segs
  end.

(** The URL serializer; [href] and [toString()] return it. *)
Definition href (u : URL) : jsstring :=
  scheme u ++ js ":"
  ++ match host u with
     | Some h =>
         js "//"
         ++ (if negb (Nat.eqb (length (username u)) 0)
                || negb (Nat.eqb (length (password u)) 0)
             then username u
                  ++ (if Nat.eqb (length (password u)) 0 then []
                      else js ":" ++ password u)
                  ++ js "@"
             else [])
         ++ h
         ++ match port u with
            | Some p => js ":" ++ decimal p
            | None => []
            end
     | None =>
         match path u with
         | Segments ([] :: _ :: _) => js "/."
         | _ => []
         end
     end
  ++ serialize_path (path u)
  ++ match query u with Some q => js "?" ++ q | None => [] end
  ++ match fragment u with Some f => js "#" ++ f | None => [] end.

(** The [search] getter. *)
Definition search (u : URL) : jsstring :=
  match query u with
  | None | Some [] => []
  | Some q => js "?" ++ q
  end.

Definition is_special (u : URL) : bool :=
  existsb (str_eqb (scheme u))
          [js "ftp"; js "file"; js "http"; js "https"; js "ws"; js "wss"].

Definition c0_control_set (b : N) : bool := (b <=? 31) || (126 <? b).

Definition query_set (b : N) : bool :=
  c0_control_set b || in_ranges [(32, 32); (34, 35); (60, 60); (62, 62)] b.

Definition special_query_set (b : N) : bool := query_set b || (b =? 39).

Definition percent_encode_with (set : N -> bool) (bs : list N) : jsstring :=
  flat_map (fun b => if set b then percent_encode_byte b else [b]) bs.

Definition is_tab_or_newline (c : N) : bool :=
  in_ranges [(9, 10); (13, 13)] c.

(** The [search] setter: an empty value removes the query; otherwise a
    leading [?] is dropped and the rest goes through the URL parser's
    query state. *)
Definition set_search (u : URL) (value : jsstring) : URL :=
  match value with
  | [] =>
      let p := match path u, fragment u with
               | OpaquePath o, None => OpaquePath (rev (drop_while (N.eqb 32) (rev o)))
               | p, _ => p
               end in
      mkURL (scheme u) (username u) (password u) (host u) (port u)
            p None (fragment u)
  | _ =>
      let input := drop_question_mark value in
      let input := List.filter (fun c => negb (is_tab_or_newline c)) input in
      let q := percent_encode_with
                 (if is_special u then special_query_set else query_set)
                 (utf8_encode input) in
      mkURL (scheme u) (username u) (password u) (host u) (port u)
            (path u) (Some q) (fragment u)
  end.

(** *** A URL parser for plain http(s) URLs

    [new URL(s)] is the platform's parser.  The definitions of the source
    are stated over any parser, and so are the theorems about them.
    [parse_http] instantiates the parser in the worked examples only: it
    follows the basic URL parser of the URL Standard on absolute [http:]
    and [https:] URLs written in ASCII with a domain-name host and no
    credentials.  Outside that domain (a character beyond ASCII,
    credentials, a numeric host) it answers [None], which the platform
    does not: no worked example uses such an input.  The sets of
    characters escaped are those of the current Standard; a runtime that
    predates the escaping of [^] in a path keeps that character. *)

Fixpoint take_while (p : N -> bool) (s : jsstring) : jsstring :=
  match s with
  | [] => []
  | c :: s' => if p c then c :: take_while p s' else []
  end.

Definition is_ascii_alpha (c : N) : bool := in_ranges [(97, 122); (65, 90)] c.
Definition is_ascii_digit (c : N) : bool := in_range 48 57 c.
Definition ascii_lower (c : N) : N := if in_range 65 90 c then c + 32 else c.

Definition is_slash (c : N) : bool := (c =? 47) || (c =? 92).

Definition path_set (b : N) : bool :=
  query_set b || in_ranges [(63, 63); (94, 94); (96, 96); (123, 123); (125, 125)] b.

Definition fragment_set (b : N) : bool :=
  c0_control_set b || in_ranges [(32, 32); (34, 34); (60, 60); (62, 62); (96, 96)] b.

Definition forbidden_domain_code_point (c : N) : bool :=
  (c <=? 32) || (127 <=? c)
  || in_ranges [(34, 35); (37, 37); (47, 47); (58, 58); (60, 60); (62, 64);
                (91, 94); (124, 124)] c.

Definition is_single_dot (seg : jsstring) : bool :=
  existsb (str_eqb seg) [js "."; js "%2e"; js "%2E"].

Definition is_double_dot (seg : jsstring) : bool :=
  existsb (str_eqb seg)
    [js ".."; js ".%2e"; js ".%2E"; js "%2e."; js "%2E."; js "%2e%2e";
     js "%2E%2E"; js "%2e%2E"; js "%2E%2e"].

(** The path state, one raw segment at a time; [acc] is the path built
    so far, last segment first. *)
Fixpoint parse_segments (raw : list jsstring) (acc : list jsstring)
    : list jsstring :=
  match raw with
  | [] => rev acc
  | seg :: raw' =>
      let last := match raw' with [] => true | _ => false end in
      if is_double_dot seg then
        let acc' := tl acc in
        parse_segments raw' (if last then [] :: acc' else acc')
      else if is_single_dot seg then
        parse_segments raw' (if last then [] :: acc else acc)
      else
        parse_segments raw' (percent_encode_with path_set seg :: acc)
  end.

Fixpoint split_slashes (s : jsstring) : list jsstring :=
  match s with
  | [] => [[]]
  | c :: s' =>
      if is_slash c then [] :: split_slashes s'
      else match split_slashes s' with
           | seg :: segs => (c :: seg) :: segs
           | [] => [[c]]
           end
  end.

Definition value_of_digits (ds : jsstring) : N :=
  fold_left (fun acc d => acc * 10 + (d - 48)) ds 0.

Definition last_label (h : jsstring) : jsstring :=
  let labels := split_on 46 h in
  match rev labels with
  | [] :: l :: _ => l
  | l :: _ => l
  | [] => []
  end.

Definition ends_in_number (h : jsstring) : bool :=
  let l := last_label h in
  negb (Nat.eqb (length l) 0)
  && (forallb is_ascii_digit l
      || match l with
         | 48 :: x :: _ => (x =? 120) || (x =? 88)
         | _ => false
         end).

Definition parse_host_port (sch authority : jsstring) : option (jsstring * option N) :=
  let h := take_while (fun c => negb (c =? 58)) authority in
  let after := drop (length h) authority in
  if Nat.eqb (length h) 0 then None
  else if existsb forbidden_domain_code_point h then None
  else if ends_in_number h then None
  else if existsb (fun l => startsWith (List.map ascii_lower l) (js "xn--"))
                  (split_on 46 h) then None
  else
    let h := List.map ascii_lower h in
    match after with
    | [] => Some (h, None)
    | _ :: ds =>
        if negb (forallb is_ascii_digit ds) then None
        else if Nat.eqb (length ds) 0 then Some (h, None)
        else
          let p := value_of_digits ds in
          if 65535 <? p then None
          else if (str_eqb sch (js "http") && (p =? 80))
                  || (str_eqb sch (js "https") && (p =? 443))
          then Some (h, None)
          else Some (h, Some p)
    end.

Definition parse_http (input : jsstring) : option URL :=
  let s := rev (drop_while (fun c => c <=? 32)
                  (rev (drop_while (fun c => c <=? 32) input))) in
  let s := List.filter (fun c => negb (is_tab_or_newline c)) s in
  if negb (forallb (fun c => c <? 128) s) then None
  else
  match s with
  | [] => None
  | c :: _ =>
      if negb (is_ascii_alpha c) then None
      else
        let sch := take_while (fun c => is_ascii_alnum c
                                        || in_ranges [(43, 43); (45, 46)] c) s in
        match drop (length sch) s with
        | 58 :: after =>
            let sch := List.map ascii_lower sch in
            if negb (str_eqb sch (js "http") || str_eqb sch (js "https"))
            then None
            else
              let after := drop_while is_slash after in
              let authority :=
                take_while (fun c => negb (is_slash c || (c =? 63) || (c =? 35)))
                           after in
              let after := drop (length authority) after in
              if existsb (N.eqb 64) authority then None
              else
                match parse_host_port sch authority with
                | None => None
                | Some (h, p) =>
                    let pth := take_while (fun c => negb ((c =? 63) || (c =? 35)))
                                          after in
                    let after := drop (length pth) after in
                    let segs := parse_segments
                                  (split_slashes (match pth with
                                                  | _ :: r => r
                                                  | [] => []
                                                  end)) [] in
                    let (q, after) :=
                      match after with
                      | 63 :: r =>
                          let q := take_while (fun c => negb (c =? 35)) r in
                          (Some (percent_encode_with special_query_set q),
                           drop (length q) r)
                      | _ => (None, after)
                      end in
                    let f := match after with
                             | 35 :: r => Some (percent_encode_with fragment_set r)
                             | _ => None
                             end in
                    Some (mkURL sch [] [] (Some h) p (Segments segs) q f)
                end
        | _ => None
        end
  end.


(** ** The HTTP client

    [axios.get(url, { maxRedirects })] as the bot uses it.  The client
    makes a first request for the URL string it is given and follows
    redirects while their count stays within [maxRedirects]; a final
    response outside 2xx rejects, and so does every error of the client.
    [response.request.res.responseUrl] is the URL of the last request, as
    the client writes it.

    The client and the network behind it are three functions:
    - [request_url s] is the URL of the first request, made for the
      string [s], in the client's own writing (scheme, host, port, path
      and query of the parsed string: a fragment is not part of it);
    - [redirect_url cur loc] is the URL of the next request, the
      [Location] value [loc] read against the URL [cur] of the request it
      answers;
    - [respond u] is what the request for [u] comes back with,
      [NetworkError] when there is no response: no connection, or an
      error the client raises for the URL before any request. *)

Inductive Response : Type :=
| NetworkError
| Reply (status : N) (location : option jsstring).

Record HttpClient : Type := mkClient {
  request_url : jsstring -> jsstring;
  redirect_url : jsstring -> jsstring -> jsstring;
  respond : jsstring -> Response
}.

Definition redirect_target (r : Response) : option jsstring :=
  match r with
  | Reply status (Some l) => if in_range 300 399 status then Some l else None
  | _ => None
  end.

Definition is_success (r : Response) : bool :=
  match r with
  | Reply status _ => in_range 200 299 status
  | NetworkError => false
  end.

(** The requests from [current] on: the response URL, if the chain ends
    in a 2xx response with at most [maxRedirects] redirects followed. *)
Fixpoint follow_redirects (client : HttpClient) (maxRedirects : nat)
    (current : jsstring) : option jsstring :=
  match redirect_target (respond client current) with
  | Some location =>
      match maxRedirects with
      | O => None
      | S n => follow_redirects client n (redirect_url client current location)
      end
  | None => if is_success (respond client current) then Some current else None
  end.

Definition axios_get (client : HttpClient) (maxRedirects : nat)
    (url : jsstring) : option jsstring :=
  follow_redirects client maxRedirects (request_url client url).

(** The URLs of the HTTP requests one call makes, in order: the first
    request and one more for every redirect followed. *)
Fixpoint requests_from (client : HttpClient) (maxRedirects : nat)
    (current : jsstring) : list jsstring :=
  current ::
  match redirect_target (respond client current) with
  | Some location =>
      match maxRedirects with
      | O => []
      | S n => requests_from client n (redirect_url client current location)
      end
  | None => []
  end.

Definition axios_requests (client : HttpClient) (maxRedirects : nat)
    (url : jsstring) : list jsstring :=
  requests_from client maxRedirects (request_url client url).

(** ** What a handler does: replies, calls of the client, saves

    [SendMessage] is one call of [bot.sendMessage], [AxiosGet url] one
    call of [axios.get] with [url] (the HTTP requests such a call makes
    are [axios_requests]), [SaveUserTags] one write of the tag file and
    [Respond] the HTTP response of the webhook. *)

Inductive Event : Type :=
| SendMessage (chatId : Z) (text : jsstring)
| AxiosGet (url : jsstring)
| SaveUserTags (tags : gmap Z jsstring)
| Respond (status : N) (body : jsstring).

Record BotState : Type := mkBot {
  userTags : gmap Z jsstring;
  usersAwaitingTag : gset Z
}.

Record Message : Type := mkMessage {
  chatId : Z;
  userId : Z;
  text : jsstring
}.

(** JavaScript truthiness of [userTags[userId]] and of a [tag] argument:
    [undefined] and the empty string are falsy. *)
Definition truthy (v : option jsstring) : bool :=
  match v with
  | Some (_ :: _) => true
  | _ => false
  end.

Definition interpolate (v : option jsstring) : jsstring :=
  match v with Some s => s | None => js "undefined" end.

(** [/(https?:\/\/[^\s]+)/] *)
Definition chars (s : string) : list regex :=
  List.map (fun a => Chr [(a, a)] false) (js s).

Definition urlRegex : RegExp :=
  mkRegExp
    (Group 1 (cat (chars "http" ++ [Quant (chr "s") 0%nat (Some 1%nat)]
                   ++ chars "://" ++ [plus non_space])))
    false.

Definition marketplace_names : list string :=
  ["com"; "co.uk"; "de"; "fr"; "es"; "it"; "ca"; "com.au"; "co.jp"; "cn";
   "in"]%string.

Definition marketplaces : regex := alt (List.map lit marketplace_names).

(** [amazon\.(com|...|in)] with the marketplace as group 2, as it stands
    inside the first group of the poller's rewrite pattern. *)
Definition domain_pattern : regex :=
  cat (chars "amazon." ++ [Group 2 marketplaces]).

Definition shorteners : regex :=
  alt [lit "amzn.to"; lit "a.co"; lit "amzn-to.co"; lit "amazon.in/gp/product"].

Definition product_marker : regex := alt [lit "dp"; lit "gp/product"].

Definition asin : regex := Quant upper_alnum 10%nat (Some 10%nat).

Definition msg_settag_prompt : jsstring :=
  js "Please send me your Amazon Associate Tag now. This will overwrite your previous tag. Example: `yourstore-20`".

Definition msg_hello : jsstring :=
  js "Hello! Welcome to the Amazon Affiliate Link Converter Bot. To get started, please send me your Amazon Associate Tag by using the /settag command.".

Definition msg_unrecognized : jsstring :=
  js "Sorry, I don't recognize that command. Please use /start or /settag.".

Definition msg_affiliate_link (link : jsstring) : jsstring :=
  js "Here's your affiliate link:" ++ [10; 10] ++ link.

(** *** api/index.js: the webhook *)

Module Webhook.

Section Platform.

(** [new URL(s)]: [None] when the constructor throws. *)
Variable URL_parse : jsstring -> option URL.
Variable client : HttpClient.

Definition convertToAffiliateLink (url : jsstring) (tag : option jsstring)
    : jsstring :=
  if negb (truthy tag) then url
  else
    match URL_parse url with
    | Some urlObj =>
        let params := URLSearchParams.new (search urlObj) in
        let params := URLSearchParams.delete (js "tag") params in
        let params := URLSearchParams.delete (js "linkCode") params in
        let params := URLSearchParams.delete (js "ascsubtag") params in
        let params := URLSearchParams.delete (js "creativeASIN") params in
        let params := URLSearchParams.delete (js "ref_") params in
        let params := URLSearchParams.set (js "tag") (interpolate tag) params in
        let urlObj := set_search urlObj (URLSearchParams.toString params) in
        href urlObj
    | None => url
    end.

Definition resolveUrl (url : jsstring) : option jsstring :=
  axios_get client 10 url.

(** [/amazon\.(com|co\.uk|de|fr|es|it|ca|com\.au|co\.jp|cn|in)/i] *)
Definition anyAmazonDomainRegex : RegExp :=
  mkRegExp (cat (chars "amazon." ++ [Group 1 marketplaces])) true.

Definition msg_tag_set (tag : option jsstring) : jsstring :=
  js "Thank you! Your Amazon Associate Tag has been set to: `"
  ++ interpolate tag
  ++ js "`. Now, send me any Amazon product link (long or shortened), and I will convert it into an affiliate link.".

Definition msg_provide_tag : jsstring :=
  js "Please provide a valid (non-empty) Amazon Associate Tag. Example: `yourstore-20`.".

Definition msg_welcome_back (tag : option jsstring) : jsstring :=
  js "Welcome back! Send me an Amazon link (long or shortened) and I'll convert it for you. Your current Amazon Associate Tag is: `"
  ++ interpolate tag ++ js "`. You can change it with /settag.".

Definition msg_no_url : jsstring :=
  js "That doesn't look like a valid URL. Please send a full Amazon URL or a shortened one.".

Definition msg_detecting : jsstring :=
  js "Detecting shortened link... Please wait while I resolve it for you.".

Definition msg_unresolved : jsstring :=
  js "Sorry, I could not resolve the provided link. Please try sending the full link or check its validity.".

Definition msg_not_converted : jsstring :=
  js "The link was resolved, but I could not convert it to an affiliate link. Please ensure it's a valid Amazon URL.".

Definition msg_not_amazon : jsstring :=
  js "That doesn't look like a valid Amazon product link. Please send a full Amazon URL (e.g., `amazon.com/dp/B0xxxxxxx`) or a shortened one (like `amzn.to/xxxx`, `tinyurl.com/xxxx`, etc.).".

(** Steps 4 and 5 of the handler, once [finalAmazonUrl] is known
    ([None] for [null]). *)
Definition convert_and_reply (st : BotState) (msg : Message)
    (finalAmazonUrl : option jsstring) : list Event :=
  if truthy finalAmazonUrl then
    let finalUrl := interpolate finalAmazonUrl in
    let affiliateLink :=
      convertToAffiliateLink finalUrl (userTags st !! userId msg) in
    if negb (str_eqb affiliateLink finalUrl)
    then [SendMessage (chatId msg) (msg_affiliate_link affiliateLink)]
    else [SendMessage (chatId msg) msg_not_converted]
  else [SendMessage (chatId msg) msg_not_amazon].

(** [app.post("/", ...)]; [update] is [None] when the body carries no
    message.  The result is the state afterwards and what was done, in
    order. *)
Definition handler (st : BotState) (update : option Message)
    : BotState * list Event :=
  match update with
  | None => (st, [Respond 200 (js "No message received")])
  | Some msg =>
      if str_eqb (text msg) (js "/settag") then
        (mkBot (userTags st) ({[userId msg]} ∪ usersAwaitingTag st),
         [SendMessage (chatId msg) msg_settag_prompt;
          Respond 200 (js "Set tag prompt sent")])
      else if negb (truthy (userTags st !! userId msg))
              && negb (startsWith (text msg) (js "/")) then
        let potentialTag := trim (text msg) in
        if negb (Nat.eqb (length potentialTag) 0)
           && isValidAmazonTag potentialTag then
          let tags := <[userId msg := potentialTag]> (userTags st) in
          (mkBot tags (usersAwaitingTag st),
           [SaveUserTags tags;
            SendMessage (chatId msg) (msg_tag_set (tags !! userId msg));
            Respond 200 (js "Tag processed")])
        else
          (st, [SendMessage (chatId msg) msg_provide_tag;
                Respond 200 (js "Tag processed")])
      else if startsWith (text msg) (js "/") then
        if str_eqb (text msg) (js "/start") then
          (mkBot (userTags st) (usersAwaitingTag st ∖ {[userId msg]}),
           [SendMessage (chatId msg)
              (if truthy (userTags st !! userId msg)
               then msg_welcome_back (userTags st !! userId msg)
               else msg_hello);
            Respond 200 (js "Command processed")])
        else
          (st, [SendMessage (chatId msg) msg_unrecognized;
                Respond 200 (js "Command processed")])
      else
        match exec urlRegex (text msg) with
        | None =>
            (st, [SendMessage (chatId msg) msg_no_url;
                  Respond 200 (js "No URL found")])
        | Some urlMatch =>
            let originalReceivedUrl := matched urlMatch in
            if test anyAmazonDomainRegex originalReceivedUrl then
              (st, convert_and_reply st msg (Some originalReceivedUrl)
                   ++ [Respond 200 (js "Update processed")])
            else
              let resolvedUrl := resolveUrl originalReceivedUrl in
              if truthy resolvedUrl then
                (st, [SendMessage (chatId msg) msg_detecting;
                      AxiosGet originalReceivedUrl]
                     ++ convert_and_reply st msg
                          (if test anyAmazonDomainRegex (interpolate resolvedUrl)
                           then resolvedUrl else None)
                     ++ [Respond 200 (js "Update processed")])
              else
                (st, [SendMessage (chatId msg) msg_detecting;
                      AxiosGet originalReceivedUrl;
                      SendMessage (chatId msg) msg_unresolved;
                      Respond 200 (js "Link resolution failed")])
        end
  end.

End Platform.

End Webhook.

(** *** The long-polling bot *)

Module Poller.

(** [/(amazon\.(com|...|in))\/.*(?:dp|gp\/product)\/([A-Z0-9]{10})/i] *)
Definition amazonLongRegex : RegExp :=
  mkRegExp
    (cat [Group 1 domain_pattern;
          chr "/"; star Dot; product_marker; chr "/"; Group 3 asin])
    true.

Definition convertToAffiliateLink (url : jsstring) (tag : option jsstring)
    : jsstring :=
  if negb (truthy tag) then url
  else
    match exec amazonLongRegex url with
    | Some m =>
        let domain := group 1 m in
        let asin := group 3 m in
        js "https://" ++ interpolate domain ++ js "/dp/" ++ interpolate asin
        ++ js "?tag=" ++ interpolate tag
    | None => url
    end.

(** [/(amzn\.to|a\.co|amzn-to\.co|amazon\.in\/gp\/product)\//i], written
    once in [resolveShortAmazonLink] and once in the message handler. *)
Definition shortLinkRegex : RegExp :=
  mkRegExp (cat [Group 1 shorteners; chr "/"]) true.

Definition amazonShortLinkRegex : RegExp :=
  mkRegExp (cat [Group 1 shorteners; chr "/"]) true.

(** [/amazon\.(com|...|in)\/.*(?:dp|gp\/product)\/([A-Z0-9]{10})/i] *)
Definition amazonLongLinkRegex : RegExp :=
  mkRegExp
    (cat (chars "amazon."
          ++ [Group 1 marketplaces; chr "/"; star Dot; product_marker;
              chr "/"; Group 2 asin]))
    true.

Definition msg_tag_set (tag : option jsstring) : jsstring :=
  js "Thank you! Your Amazon Associate Tag has been set to: `"
  ++ interpolate tag
  ++ js "`. Now, send me any Amazon product link (long or short), and I will convert it into an affiliate link.".

Definition msg_invalid_tag : jsstring :=
  js "That does not appear to be a valid Amazon Associate Tag format. Please try again with a format like `yourstore-20`.".

Definition msg_welcome_back (tag : option jsstring) : jsstring :=
  js "Welcome back! Send me an Amazon link (long or short) and I'll convert it for you. Your current Amazon Associate Tag is: `"
  ++ interpolate tag ++ js "`. You can change it with /settag.".

Definition msg_not_amazon : jsstring :=
  js "That doesn't look like a valid Amazon product link. Please send a full Amazon URL (e.g., `amazon.com/dp/B0xxxxxxx`) or a short one (`amzn.to/xxxx`).".

Definition msg_detecting : jsstring :=
  js "Detecting short Amazon link... Please wait while I convert it for you.".

Definition msg_unresolved : jsstring :=
  js "Sorry, I could not resolve the short Amazon link. Please try sending the full link or check if the short link is valid.".

Definition msg_not_converted : jsstring :=
  js "Could not convert the link. Please ensure it's a valid Amazon product page URL (e.g., contains /dp/ or /gp/product/ and an ASIN).".

(** [bot.onText(/\/start/, ...)] *)
Definition onStart (st : BotState) (msg : Message) : BotState * list Event :=
  (mkBot (userTags st) (usersAwaitingTag st ∖ {[userId msg]}),
   [SendMessage (chatId msg)
      (if truthy (userTags st !! userId msg)
       then msg_welcome_back (userTags st !! userId msg)
       else msg_hello)]).

(** [bot.onText(/\/settag/, ...)] *)
Definition onSetTag (st : BotState) (msg : Message) : BotState * list Event :=
  (mkBot (userTags st) ({[userId msg]} ∪ usersAwaitingTag st),
   [SendMessage (chatId msg) msg_settag_prompt]).

Section Platform.

Variable client : HttpClient.

(** [axios.get] is called only for a URL the short-link pattern accepts;
    the second component tells whether it was called. *)
Definition resolveShortAmazonLink (shortUrl : jsstring)
    : option jsstring * list Event :=
  if negb (test shortLinkRegex shortUrl) then (None, [])
  else (axios_get client 10 shortUrl, [AxiosGet shortUrl]).

Definition convert_and_reply (st : BotState) (msg : Message)
    (originalUrl : jsstring) (isAmazonLink : bool) : list Event :=
  if isAmazonLink then
    let affiliateLink :=
      convertToAffiliateLink originalUrl (userTags st !! userId msg) in
    if negb (str_eqb affiliateLink originalUrl)
    then [SendMessage (chatId msg) (msg_affiliate_link affiliateLink)]
    else [SendMessage (chatId msg) msg_not_converted]
  else [SendMessage (chatId msg) msg_not_amazon].

(** [bot.on("message", ...)] *)
Definition onMessage (st : BotState) (msg : Message) : BotState * list Event :=
  if bool_decide (userId msg ∈ usersAwaitingTag st) then
    let potentialTag := trim (text msg) in
    if negb (Nat.eqb (length potentialTag) 0)
       && isValidAmazonTag potentialTag then
      let tags := <[userId msg := potentialTag]> (userTags st) in
      (mkBot tags (usersAwaitingTag st ∖ {[userId msg]}),
       [SaveUserTags tags;
        SendMessage (chatId msg) (msg_tag_set (tags !! userId msg))])
    else (st, [SendMessage (chatId msg) msg_invalid_tag])
  else if startsWith (text msg) (js "/") then
    (st, [SendMessage (chatId msg) msg_unrecognized])
  else
    match exec urlRegex (text msg) with
    | None => (st, [SendMessage (chatId msg) msg_not_amazon])
    | Some urlMatch =>
        let originalUrl := matched urlMatch in
        if test amazonShortLinkRegex originalUrl then
          let (resolvedUrl, requests) := resolveShortAmazonLink originalUrl in
          if truthy resolvedUrl then
            let originalUrl := interpolate resolvedUrl in
            (st, [SendMessage (chatId msg) msg_detecting] ++ requests
                 ++ convert_and_reply st msg originalUrl
                      (test amazonLongLinkRegex originalUrl))
          else
            (st, [SendMessage (chatId msg) msg_detecting] ++ requests
                 ++ [SendMessage (chatId msg) msg_unresolved])
        else
          (st, convert_and_reply st msg originalUrl
                 (test amazonLongLinkRegex originalUrl))
    end.

End Platform.

End Poller.

(** ** The shape of a tag *)

Definition alnum_segment (g : jsstring) : Prop :=
  g <> [] /\ Forall (fun c => is_ascii_alnum c = true) g.

Definition numeric_suffix (d : jsstring) : Prop :=
  (1 <= length d <= 3)%nat /\ Forall (fun c => is_ascii_digit c = true) d.

(** [a-seg(-seg)*-digits], written out. *)
Definition TagWord (s : jsstring) : Prop :=
  exists a segs d,
    s = a ++ flat_map (cons 45) segs ++ 45 :: d
    /\ alnum_segment a /\ Forall alnum_segment segs /\ numeric_suffix d.

(** The rule in the words of the specification: the string, cut at its
    hyphens, is one or more alphanumeric segments followed by a final
    segment that is a 1-to-3-digit number. *)
Definition is_alnum_segment (seg : jsstring) : bool :=
  negb (Nat.eqb (length seg) 0) && forallb is_ascii_alnum seg.

Definition is_tag_shape (s : jsstring) : bool :=
  match rev (split_on 45 s) with
  | final :: leading =>
      negb (Nat.eqb (length leading) 0)
      && forallb is_alnum_segment leading
      && Nat.leb 1 (length final) && Nat.leb (length final) 3
      && forallb is_ascii_digit final
  | [] => false
  end.


(** ** Redirect chains *)

Section Chains.

Variable client : HttpClient.

(** [Hops n url u]: from the request for [url], following [n] redirects
    leads to the request for [u]. *)
Inductive Hops : nat -> jsstring -> jsstring -> Prop :=
| Hops_here url : Hops 0 url url
| Hops_next n url location u :
    redirect_target (respond client url) = Some location ->
    Hops n (redirect_url client url location) u -> Hops (S n) url u.

(** [Lands n url u]: after [n] redirects the chain ends at [u], whose
    response is not a redirect. *)
Definition Lands (n : nat) (url u : jsstring) : Prop :=
  Hops n url u /\ redirect_target (respond client u) = None.

End Chains.

(** ** What the query-surgery rewrite does to the parameters *)

Definition affiliate_params : list jsstring :=
  [js "tag"; js "linkCode"; js "ascsubtag"; js "creativeASIN"; js "ref_"].

Definition strip_affiliate (l : URLSearchParams.t) : URLSearchParams.t :=
  List.filter (fun p => negb (existsb (str_eqb (fst p)) affiliate_params)) l.

Definition with_query (u : URL) (q : option jsstring) : URL :=
  mkURL (scheme u) (username u) (password u) (host u) (port u) (path u) q
        (fragment u).

(** The characters an encoded name or value is made of, and those of a
    whole serialised parameter list. *)
Definition urlencoded_atom (c : N) : bool :=
  urlencoded_safe c || in_ranges [(37, 37); (43, 43)] c.

Definition urlencoded_char (c : N) : bool :=
  urlencoded_atom c || in_ranges [(38, 38); (61, 61)] c.

(** Unicode scalar values: code points that are not surrogates. *)
Definition is_scalar_value (cp : N) : bool :=
  (cp <? 1114112) && negb (in_range 55296 57343 cp).

(** Letters and dots, all a marketplace domain is made of; letters,
    digits and hyphens, all a valid tag is made of. *)
Definition is_domain_char (c : N) : bool := is_ascii_alpha c || (c =? 46).
Definition is_tag_char (c : N) : bool := is_ascii_alnum c || (c =? 45).

(** Code units are 16 bits wide. *)
Definition js_string (s : jsstring) : Prop := Forall (fun c => c < 65536) s.

(** Strings without lone surrogates. *)
Definition scalar_string (s : jsstring) : Prop :=
  exists cps, Forall (fun cp => is_scalar_value cp = true) cps
              /\ s = of_scalar_values cps.

(** The states the UTF-8 decoder can be in between two bytes. *)
Definition utf8_state_ok (st : option Utf8State) : Prop :=
  match st with
  | None => True
  | Some u =>
      match u_needed u with
      | 1%nat =>
          u_lower u = 128 /\ u_upper u = 191
          /\ (2 <= u_cp u <= 31
              \/ (32 <= u_cp u <= 1023 /\ ~ 864 <= u_cp u <= 895)
              \/ 1024 <= u_cp u <= 17407)
      | 2%nat =>
          (u_cp u <= 15
           /\ u_lower u = (if u_cp u =? 0 then 160 else 128)
           /\ u_upper u = (if u_cp u =? 13 then 159 else 191))
          \/ (16 <= u_cp u <= 271 /\ u_lower u = 128 /\ u_upper u = 191)
      | 3%nat =>
          u_cp u <= 4
          /\ u_lower u = (if u_cp u =? 0 then 144 else 128)
          /\ u_upper u = (if u_cp u =? 4 then 143 else 191)
      | _ => False
      end
  end.

(** The values a parameter list gives for [tag]. *)
Definition tag_values (l : URLSearchParams.t) : list jsstring :=
  List.map snd (List.filter (fun p => str_eqb (fst p) (js "tag")) l).

(** The USVString a JavaScript string converts to. *)
Definition usv (s : jsstring) : jsstring :=
  of_scalar_values (to_scalar_values s).

(** What follows the first [?] of a URL string, up to a [#]. *)
Definition query_part (s : jsstring) : jsstring :=
  match drop_while (fun c => negb (c =? 63) && negb (c =? 35)) s with
  | 63 :: q => take_while (fun c => negb (c =? 35)) q
  | _ => []
  end.

(** [String.prototype.includes] *)
Fixpoint includes (s needle : jsstring) : bool :=
  startsWith s needle
  || match s with
     | [] => false
     | _ :: s' => includes s' needle
     end.

(** ** A worked scenario: one user, one chat *)

(** A client over a given network.  On the plain URLs of the scenario
    it writes the URL of a request as the platform does: the parsed URL
    serialised, without the fragment for the first request.  The
    [Location] values of the scenario are absolute URLs. *)
Definition plain_request_url (s : jsstring) : jsstring :=
  match parse_http s with
  | Some u =>
      href (mkURL (scheme u) (username u) (password u) (host u) (port u)
                  (path u) (query u) None)
  | None => s
  end.

Definition plain_redirect_url (current location : jsstring) : jsstring :=
  match parse_http location with
  | Some u => href u
  | None => location
  end.

Definition plain_client (network : jsstring -> Response) : HttpClient :=
  mkClient plain_request_url plain_redirect_url network.

Definition offline : HttpClient := plain_client (fun _ => NetworkError).
Definition always_ok : HttpClient := plain_client (fun _ => Reply 200 None).

(** A network on which every request is redirected once more. *)
Definition looping : HttpClient :=
  plain_client (fun _ => Reply 302 (Some (js "https://amzn.to/x"))).

Definition registered : BotState := mkBot {[ 7%Z := js "store-20" ]} ∅.
Definition unregistered : BotState := mkBot ∅ ∅.
Definition awaiting : BotState := mkBot ∅ {[ 7%Z ]}.

Definition says (t : string) : Message := mkMessage 1 7 (js t).

Definition product_url : jsstring := js "https://amazon.com/dp/B00005N5PF".
Definition product_link : jsstring :=
  js "https://amazon.com/dp/B00005N5PF?tag=store-20".
Definition tagged_url : jsstring :=
  js "https://www.amazon.com/dp/B00005N5PF?ref_=abc&psc=1&tag=old-20#top".

(** ** Reading what a handler did *)

Definition is_reply (e : Event) : bool :=
  match e with SendMessage _ _ => true | _ => false end.

(** A call of [axios.get]. *)
Definition is_axios_call (e : Event) : bool :=
  match e with AxiosGet _ => true | _ => false end.

Definition is_save (e : Event) : bool :=
  match e with SaveUserTags _ => true | _ => false end.

Definition is_response (e : Event) : bool :=
  match e with Respond _ _ => true | _ => false end.

Definition reply_text (e : Event) : jsstring :=
  match e with SendMessage _ t => t | _ => [] end.

Definition count_events (p : Event -> bool) (evs : list Event) : nat :=
  length (List.filter p evs).

(** The URLs of the GET requests that the calls of [axios.get] among
    [evs] make, redirects followed; both resolvers call it with
    [maxRedirects: 10]. *)
Definition http_requests (client : HttpClient) (evs : list Event)
    : list jsstring :=
  flat_map (fun e => match e with
                     | AxiosGet url => axios_requests client 10 url
                     | _ => []
                     end) evs.

(** What a handler did, the saves left out. *)
Definition visible (evs : list Event) : list Event :=
  List.filter (fun e => negb (is_save e)) evs.

(** Every stored tag passes the validator. *)
Definition valid_store (tags : gmap Z jsstring) : Prop :=
  map_Forall (fun _ t => isValidAmazonTag t = true) tags.

(** The entries of user [k] are the same in [st] and [st']. *)
Definition same_entry (k : Z) (st st' : BotState) : Prop :=
  userTags st' !! k = userTags st !! k
  /\ (k ∈ usersAwaitingTag st' <-> k ∈ usersAwaitingTag st).

(** ** The poller's command patterns

    [bot.onText(/\/start/, ...)] and [bot.onText(/\/settag/, ...)]: the
    callback runs for a text the pattern finds a match in. *)

Definition onText_start : RegExp := mkRegExp (lit "/start") false.
Definition onText_settag : RegExp := mkRegExp (lit "/settag") false.

(** ** Reading the patterns *)

(** A text as a comparison under the [i] flag sees it: with the flag,
    the letters [a]-[z] count as [A]-[Z]. *)
Definition fold_case (ic : bool) (s : jsstring) : jsstring :=
  List.map (Canonicalize ic) s.

(** A sequence of patterns, matched one after the other. *)
Fixpoint compile_seq (ic : bool) (rs : list regex) : Matcher :=
  match rs with
  | [] => fun x c => c x
  | r :: rs' => fun x c => compile ic r x (fun y => compile_seq ic rs' y c)
  end.

Definition is_scheme (p : jsstring) : Prop :=
  p = js "http://" \/ p = js "https://".

Definition non_space_run (s : jsstring) : jsstring :=
  take_while (fun c => negb (is_space c)) s.

(** The candidate URL that starts at the head of [s], if one does:
    [http://] or [https://] and the longest run of code units that are
    not white space after it, which must not be empty. *)
Definition url_at (s : jsstring) : option jsstring :=
  if startsWith s (js "https://") then
    match non_space_run (drop 8 s) with
    | [] => None
    | run => Some (js "https://" ++ run)
    end
  else if startsWith s (js "http://") then
    match non_space_run (drop 7 s) with
    | [] => None
    | run => Some (js "http://" ++ run)
    end
  else None.

(** ** More of the worked scenario *)

(** A network on which one short link redirects to a product page. *)
Definition short_url : jsstring := js "https://amzn.to/3xYz".
Definition landed_url : jsstring :=
  js "https://www.amazon.com/gp/product/B00005N5PF?th=1".
Definition redirecting : HttpClient :=
  plain_client (fun u => if str_eqb u short_url
                         then Reply 301 (Some landed_url)
                         else Reply 200 None).

(** User 7 and user 9 have a tag; user 8 has none and is in tag entry. *)
Definition three_users : BotState :=
  mkBot {[ 7%Z := js "store-20"; 9%Z := js "other-21" ]} {[ 8%Z ]}.
Example tag_ok1 : isValidAmazonTag (js "store-20") = true. Proof. reflexivity. Qed.
Example tag_ok2 : isValidAmazonTag (js "my-cool-store-1") = true. Proof. reflexivity. Qed.
Example tag_ko1 : isValidAmazonTag (js "store") = false. Proof. reflexivity. Qed.
Example tag_ko2 : isValidAmazonTag (js "store-abcd") = false. Proof. reflexivity. Qed.
Example tag_ko3 : isValidAmazonTag (js " store-20 ") = false. Proof. reflexivity. Qed.
Example tag_ko4 : isValidAmazonTag (js "-20") = false. Proof. reflexivity. Qed.
Example tag_ko5 : isValidAmazonTag (js "20") = false. Proof. reflexivity. Qed.
Example tag_ko6 : isValidAmazonTag (js "store-2000") = false. Proof. reflexivity. Qed.
Example tag_ok7 : isValidAmazonTag (js "a-1-2") = true. Proof. reflexivity. Qed.


(** ** Soundness and completeness of the matchers *)

Section PatternSemanticsFacts.

Variable ic : bool.

Lemma spans_refl x : spans x x.
Proof. exists []. split; [reflexivity | simpl; lia]. Qed.

Lemma spans_trans x y z : spans x y -> spans y z -> spans x z.
Proof.
  intros [w1 [E1 I1]] [w2 [E2 I2]]. exists (w1 ++ w2). split.
  - rewrite E1, E2. now rewrite <- app_assoc.
  - rewrite length_app. lia.
Qed.

Lemma spans_advance x ch s : rest x = ch :: s -> spans x (advance x s).
Proof. intros E. exists [ch]. split; [exact E | simpl; lia]. Qed.

Lemma spans_clear ns x y : spans (clear_captures ns x) y -> spans x y.
Proof. intros H. exact H. Qed.

Lemma Rep_spans P parens min max x y :
  (forall a b, P a b -> spans a b) ->
  Rep P parens min max x y -> spans x y.
Proof.
  intros HP H. induction H as [| min max x y z _ Hxy _ _ IH].
  - apply spans_refl.
  - apply spans_trans with y; [| exact IH].
    apply (spans_clear parens), HP, Hxy.
Qed.

Lemma Matches_spans r : forall x y, Matches ic r x y -> spans x y.
Proof.
  induction r as [| A inv | | r1 IH1 r2 IH2 | r1 IH1 r2 IH2 | r IH min max
                  | n r IH | |]; cbn [Matches]; intros x y H.
  - subst. apply spans_refl.
  - destruct H as (ch & s & E & _ & ->). now apply spans_advance with ch.
  - destruct H as (ch & s & E & _ & ->). now apply spans_advance with ch.
  - destruct H as (m & H1 & H2). eapply spans_trans; eauto.
  - destruct H as [H | H]; auto.
  - eapply Rep_spans; eauto.
  - destruct H as (m & H & ->). apply IH in H. exact H.
  - destruct H as [_ ->]. apply spans_refl.
  - destruct H as [_ ->]. apply spans_refl.
Qed.

Lemma spans_length x y : spans x y -> (length (rest y) <= length (rest x))%nat.
Proof. intros [w [E _]]. rewrite E, length_app. lia. Qed.

Lemma spans_progress x y :
  spans x y -> endIndex y <> endIndex x ->
  (length (rest y) < length (rest x))%nat.
Proof.
  intros [w [E I]] Hne. rewrite E, length_app.
  destruct w; simpl in *; lia.
Qed.

(** *** Soundness: whatever the matcher returns comes from a match. *)

Lemma RepeatMatcher_sound (m : Matcher) P parens :
  (forall x c z, m x c = Some z -> exists y, P x y /\ c y = Some z) ->
  forall fuel min max x c z,
    RepeatMatcher m parens fuel min max x c = Some z ->
    exists y, Rep P parens min max x y /\ c y = Some z.
Proof.
  intros Hm fuel. induction fuel as [| fuel IH]; intros min max x c z H.
  - discriminate.
  - simpl in H.
    assert (Hgo : forall mx, max = mx -> mx <> Some 0%nat ->
      (if negb (Nat.eqb min 0) then
         m (clear_captures parens x) (fun y =>
           if Nat.eqb min 0 && Nat.eqb (endIndex y) (endIndex x) then None
           else RepeatMatcher m parens fuel (Nat.pred min) (dec_max max) y c)
       else match m (clear_captures parens x) (fun y =>
           if Nat.eqb min 0 && Nat.eqb (endIndex y) (endIndex x) then None
           else RepeatMatcher m parens fuel (Nat.pred min) (dec_max max) y c)
            with Some z => Some z | None => c x end) = Some z ->
      exists y, Rep P parens min max x y /\ c y = Some z).
    { intros mx Emx Hmx Hr.
      assert (Hstep : forall z',
        m (clear_captures parens x) (fun y =>
           if Nat.eqb min 0 && Nat.eqb (endIndex y) (endIndex x) then None
           else RepeatMatcher m parens fuel (Nat.pred min) (dec_max max) y c)
          = Some z' ->
        exists y, Rep P parens min max x y /\ c y = Some z').
      { intros z' Hz'. apply Hm in Hz'. destruct Hz' as (y & Hxy & Hd).
        destruct (Nat.eqb min 0 && Nat.eqb (endIndex y) (endIndex x)) eqn:Eg;
          [discriminate |].
        apply IH in Hd. destruct Hd as (y' & Hrep & Hc).
        exists y'. split; [| exact Hc].
        eapply Rep_step; eauto.
        - congruence.
        - intros ->. simpl in Eg. now apply Nat.eqb_neq in Eg. }
      destruct (Nat.eqb min 0) eqn:Emin; simpl in Hr.
      - destruct (m (clear_captures parens x) _) as [z'|] eqn:Em.
        + injection Hr as <-. now apply Hstep.
        + exists x. split; [| exact Hr]. apply Rep_stop. left.
          now apply Nat.eqb_eq.
      - now apply Hstep. }
    destruct max as [[| n] |].
    + exists x. split; [| exact H]. apply Rep_stop. now right.
    + apply (Hgo (Some (S n))); [reflexivity | discriminate | exact H].
    + apply (Hgo None); [reflexivity | discriminate | exact H].
Qed.

Theorem compile_sound r : forall x c z,
  compile ic r x c = Some z -> exists y, Matches ic r x y /\ c y = Some z.
Proof.
  induction r as [| A inv | | r1 IH1 r2 IH2 | r1 IH1 r2 IH2 | r IH min max
                  | n r IH | |]; cbn [Matches compile]; intros x c z H.
  - eauto.
  - unfold CharacterSetMatcher in H. destruct (rest x) as [| ch s] eqn:E;
      [discriminate |].
    destruct (xorb inv _) eqn:Ex; [| discriminate].
    exists (advance x s). split; [| exact H]. exists ch, s. auto.
  - unfold DotMatcher in H. destruct (rest x) as [| ch s] eqn:E;
      [discriminate |].
    destruct (in_ranges line_terminator ch) eqn:Ex; [discriminate |].
    exists (advance x s). split; [| exact H]. exists ch, s. auto.
  - apply IH1 in H. destruct H as (m & H1 & H).
    apply IH2 in H. destruct H as (y & H2 & H). eauto.
  - destruct (compile ic r1 x c) as [z1|] eqn:E1.
    + injection H as <-. apply IH1 in E1. destruct E1 as (y & ? & ?). eauto.
    + apply IH2 in H. destruct H as (y & ? & ?). eauto.
  - eapply RepeatMatcher_sound; eauto.
  - apply IH in H. destruct H as (m & Hm & H). eauto.
  - destruct (Nat.eqb (endIndex x) 0) eqn:E; [| discriminate].
    apply Nat.eqb_eq in E. eauto.
  - destruct (rest x) eqn:E; [| discriminate]. eauto.
Qed.

(** *** Completeness: a match the continuation accepts is never missed
    (in particular the fuel of RepeatMatcher never runs out). *)

Lemma RepeatMatcher_complete (m : Matcher) P parens :
  (forall a b, P a b -> spans a b) ->
  (forall x y c, P x y -> is_Some (c y) -> is_Some (m x c)) ->
  forall min max x y, Rep P parens min max x y ->
  forall fuel c, (min + length (rest x) + 1 <= fuel)%nat ->
    is_Some (c y) -> is_Some (RepeatMatcher m parens fuel min max x c).
Proof.
  intros Hsp Hm min max x y H.
  induction H as [min max x Hst | min max x y z Hmax Hxy Hprog Hrep IH];
    intros fuel c Hfuel Hc.
  - destruct fuel as [| fuel]; [lia |]. simpl.
    destruct max as [[| n] |]; try exact Hc.
    + destruct Hst as [-> | ?]; [| discriminate]. simpl.
      destruct (m _ _); [eauto | exact Hc].
    + destruct Hst as [-> | ?]; [| discriminate]. simpl.
      destruct (m _ _); [eauto | exact Hc].
  - destruct fuel as [| fuel]; [lia |]. simpl.
    assert (Hd : is_Some (m (clear_captures parens x) (fun y0 =>
              if Nat.eqb min 0 && Nat.eqb (endIndex y0) (endIndex x) then None
              else RepeatMatcher m parens fuel (Nat.pred min) (dec_max max) y0 c))).
    { apply Hm with y; [exact Hxy |].
      assert (Hs : spans x y) by (apply (spans_clear parens), Hsp, Hxy).
      destruct (Nat.eqb min 0) eqn:Emin; simpl.
      - apply Nat.eqb_eq in Emin. specialize (Hprog Emin).
        destruct (Nat.eqb (endIndex y) (endIndex x)) eqn:Ee.
        + apply Nat.eqb_eq in Ee. contradiction.
        + apply IH; [| exact Hc].
          pose proof (spans_progress _ _ Hs Hprog). lia.
      - apply Nat.eqb_neq in Emin. apply IH; [| exact Hc].
        pose proof (spans_length _ _ Hs). lia. }
    destruct max as [[| n] |]; [congruence | |].
    + destruct (negb (Nat.eqb min 0)); [exact Hd |].
      destruct Hd as [z' ->]. eauto.
    + destruct (negb (Nat.eqb min 0)); [exact Hd |].
      destruct Hd as [z' ->]. eauto.
Qed.

Theorem compile_complete r : forall x y c,
  Matches ic r x y -> is_Some (c y) -> is_Some (compile ic r x c).
Proof.
  induction r as [| A inv | | r1 IH1 r2 IH2 | r1 IH1 r2 IH2 | r IH min max
                  | n r IH | |]; cbn [Matches compile]; intros x y c H Hc.
  - now subst.
  - destruct H as (ch & s & E & Hacc & ->).
    unfold CharacterSetMatcher. rewrite E. unfold accepts in Hacc.
    now rewrite Hacc.
  - destruct H as (ch & s & E & Hacc & ->).
    unfold DotMatcher. rewrite E. now rewrite Hacc.
  - destruct H as (m & H1 & H2). eapply IH1; eauto.
  - destruct H as [H | H].
    + destruct (IH1 _ _ _ H Hc) as [z ->]. eauto.
    + destruct (compile ic r1 x c); [eauto | eapply IH2; eauto].
  - apply (RepeatMatcher_complete _ (Matches ic r) _ (Matches_spans r) IH
             _ _ _ _ H); [lia | exact Hc].
  - destruct H as (m & H & ->). eapply IH; eauto.
  - destruct H as [E ->]. now rewrite E.
  - destruct H as [E ->]. now rewrite E.
Qed.

End PatternSemanticsFacts.

(** ** The fuel of RepeatMatcher *)

Section Fuel.

Variable ic : bool.

Lemma spans_set_capture n v x y : spans x y -> spans x (set_capture n v y).
Proof. intros H. exact H. Qed.

(** A matcher consults its continuation only at states reached by
    consuming input. *)
Lemma RepeatMatcher_ext (m : Matcher) parens :
  (forall x c c', (forall y, spans x y -> c y = c' y) -> m x c = m x c') ->
  forall fuel min max x c c',
    (forall y, spans x y -> c y = c' y) ->
    RepeatMatcher m parens fuel min max x c
    = RepeatMatcher m parens fuel min max x c'.
Proof.
  intros Hm fuel. induction fuel as [| fuel IH]; intros min max x c c' Hc;
    [reflexivity |].
  cbn [RepeatMatcher].
  assert (Hd : m (clear_captures parens x) (fun y =>
             if Nat.eqb min 0 && Nat.eqb (endIndex y) (endIndex x) then None
             else RepeatMatcher m parens fuel (Nat.pred min) (dec_max max) y c)
           = m (clear_captures parens x) (fun y =>
             if Nat.eqb min 0 && Nat.eqb (endIndex y) (endIndex x) then None
             else RepeatMatcher m parens fuel (Nat.pred min) (dec_max max) y c')).
  { apply Hm. intros y Hy.
    destruct (Nat.eqb min 0 && Nat.eqb (endIndex y) (endIndex x));
      [reflexivity |].
    apply IH. intros z Hz. apply Hc. apply spans_trans with y; assumption. }
  rewrite Hd, (Hc x (spans_refl x)). reflexivity.
Qed.

Lemma compile_ext r : forall x c c',
  (forall y, spans x y -> c y = c' y) -> compile ic r x c = compile ic r x c'.
Proof.
  induction r as [| A inv | | r1 IH1 r2 IH2 | r1 IH1 r2 IH2 | r IH min max
                  | n r IH | |]; cbn [compile]; intros x c c' Hc.
  - apply Hc, spans_refl.
  - unfold CharacterSetMatcher. destruct (rest x) as [| ch s] eqn:E;
      [reflexivity |].
    destruct (xorb inv _); [| reflexivity]. apply Hc.
    now apply spans_advance with ch.
  - unfold DotMatcher. destruct (rest x) as [| ch s] eqn:E; [reflexivity |].
    destruct (in_ranges line_terminator ch); [reflexivity |]. apply Hc.
    now apply spans_advance with ch.
  - apply IH1. intros y Hy. apply IH2. intros z Hz. apply Hc.
    apply spans_trans with y; assumption.
  - rewrite (IH1 x c c' Hc), (IH2 x c c' Hc). reflexivity.
  - apply RepeatMatcher_ext; assumption.
  - apply IH. intros y Hy. apply Hc. exact Hy.
  - destruct (Nat.eqb (endIndex x) 0); [apply Hc, spans_refl | reflexivity].
  - destruct (rest x); [apply Hc, spans_refl | reflexivity].
Qed.

(** The fuel given to RepeatMatcher is never used up: more fuel gives the
    same answer. *)
Lemma RepeatMatcher_fuel (m : Matcher) parens :
  (forall x c c', (forall y, spans x y -> c y = c' y) -> m x c = m x c') ->
  forall fuel min max x c,
    (min + length (rest x) + 1 <= fuel)%nat ->
    RepeatMatcher m parens (S fuel) min max x c
    = RepeatMatcher m parens fuel min max x c.
Proof.
  intros Hm fuel. induction fuel as [| fuel IH]; intros min max x c Hf;
    [lia |].
  cbn [RepeatMatcher].
  assert (Hd : m (clear_captures parens x) (fun y =>
             if Nat.eqb min 0 && Nat.eqb (endIndex y) (endIndex x) then None
             else RepeatMatcher m parens (S fuel) (Nat.pred min) (dec_max max) y c)
           = m (clear_captures parens x) (fun y =>
             if Nat.eqb min 0 && Nat.eqb (endIndex y) (endIndex x) then None
             else RepeatMatcher m parens fuel (Nat.pred min) (dec_max max) y c)).
  { apply Hm. intros y Hy.
    destruct (Nat.eqb min 0) eqn:Emin; cbn [andb].
    - destruct (Nat.eqb (endIndex y) (endIndex x)) eqn:Ee; [reflexivity |].
      apply Nat.eqb_eq in Emin. apply Nat.eqb_neq in Ee. apply IH.
      pose proof (spans_progress _ _ Hy Ee) as Hp. cbn in Hp. lia.
    - apply Nat.eqb_neq in Emin. apply IH.
      pose proof (spans_length _ _ Hy) as Hl. cbn in Hl. lia. }
  cbn [RepeatMatcher] in Hd. rewrite Hd. reflexivity.
Qed.

Theorem quantifier_fuel_suffices r min max x c n :
  RepeatMatcher (compile ic r) (group_numbers r)
    (n + (min + length (rest x) + 1)) min max x c
  = compile ic (Quant r min max) x c.
Proof.
  cbn [compile]. induction n as [| n IH]; [reflexivity |].
  cbn [Nat.add]. rewrite RepeatMatcher_fuel; [exact IH | apply compile_ext | lia].
Qed.

End Fuel.

Example parse_http_ex1 :
  href <$> parse_http (js "HTTPS://WWW.Amazon.com/a/../dp/B00005N5PF?x=1#top")
  = Some (js "https://www.amazon.com/dp/B00005N5PF?x=1#top").
Proof. reflexivity. Qed.

Example parse_http_ex2 :
  href <$> parse_http (js "https://amazon.com") = Some (js "https://amazon.com/").
Proof. reflexivity. Qed.

Example parse_http_ex3 : parse_http (js "amazon.com/dp/B00005N5PF") = None.
Proof. reflexivity. Qed.

Example parse_http_ex4 :
  href <$> parse_http (js "http://amazon.de:80/gp/product/B00005N5PF/?a b")
  = Some (js "http://amazon.de/gp/product/B00005N5PF/?a%20b").
Proof. reflexivity. Qed.

(** The greedy [.*] of the poller's pattern runs to the last product
    marker; the marketplace alternatives are tried in order. *)
Example poller_rewrite_last_marker :
  Poller.convertToAffiliateLink
    (js "https://AMAZON.com.au/x/gp/product/b00005n5pf/dp/1234567890123")
    (Some (js "store-20"))
  = js "https://AMAZON.com.au/dp/1234567890?tag=store-20".
Proof. vm_compute. reflexivity. Qed.

(** Parameters are decoded and encoded again: an invalid byte comes back
    as U+FFFD, a tag is percent-encoded. *)
Example webhook_rewrite_reencodes :
  Webhook.convertToAffiliateLink parse_http
    (js "https://www.amazon.com/dp/B00005N5PF?q=caf%C3%A9&x=%FF&linkCode=ll1")
    (Some (js "a b&c"))
  = js "https://www.amazon.com/dp/B00005N5PF?q=caf%C3%A9&x=%EF%BF%BD&tag=a+b%26c".
Proof. vm_compute. reflexivity. Qed.

Example trim_strips_unicode_space :
  trim ([160; 9] ++ js "store-20" ++ [8232; 32]) = js "store-20".
Proof. vm_compute. reflexivity. Qed.


(** ** Properties of the pattern semantics *)

Section Languages.

Variable ic : bool.

Lemma consumes_nil x : consumes x x [].
Proof. split; [reflexivity | simpl; lia]. Qed.

Lemma consumes_app x y z w1 w2 :
  consumes x y w1 -> consumes y z w2 -> consumes x z (w1 ++ w2).
Proof.
  intros [E1 I1] [E2 I2]. split.
  - rewrite E1, E2. now rewrite <- app_assoc.
  - rewrite length_app. lia.
Qed.

Lemma Matches_Lang r : forall x y,
  Matches ic r x y -> exists w, consumes x y w /\ Lang ic r w.
Proof.
  induction r as [| A inv | | r1 IH1 r2 IH2 | r1 IH1 r2 IH2 | r IH min max
                  | n r IH | |]; cbn [Matches Lang]; intros x y H.
  - subst. exists []. split; [apply consumes_nil | reflexivity].
  - destruct H as (ch & s & E & Hacc & ->). exists [ch]. split; [| eauto].
    split; [exact E | simpl; lia].
  - destruct H as (ch & s & E & Hacc & ->). exists [ch]. split; [| eauto].
    split; [exact E | simpl; lia].
  - destruct H as (m & H1 & H2).
    apply IH1 in H1. destruct H1 as (w1 & C1 & L1).
    apply IH2 in H2. destruct H2 as (w2 & C2 & L2).
    exists (w1 ++ w2). split; [eapply consumes_app; eauto | eauto].
  - destruct H as [H | H]; [apply IH1 in H | apply IH2 in H];
      destruct H as (w & C & L); eauto.
  - induction H as [min max x Hst | min max x y z Hmax Hxy Hprog Hrep IHrep].
    + exists []. split; [apply consumes_nil | now apply RepL_stop].
    + apply IH in Hxy. destruct Hxy as (w1 & C1 & L1).
      destruct IHrep as (w2 & C2 & L2).
      exists (w1 ++ w2). split.
      * eapply consumes_app; [| exact C2]. exact C1.
      * apply RepL_step; auto. intros E Hw. subst w1.
        destruct C1 as [_ I1]. simpl in I1. apply (Hprog E). lia.
  - destruct H as (m & H & ->). apply IH in H. exact H.
  - destruct H as [_ ->]. exists []. split; [apply consumes_nil | reflexivity].
  - destruct H as [_ ->]. exists []. split; [apply consumes_nil | reflexivity].
Qed.

Lemma Lang_Matches r : anchor_free r = true -> forall w x s,
  Lang ic r w -> rest x = w ++ s ->
  exists y, Matches ic r x y /\ rest y = s
            /\ endIndex y = (endIndex x + length w)%nat.
Proof.
  induction r as [| A inv | | r1 IH1 r2 IH2 | r1 IH1 r2 IH2 | r IH min max
                  | n r IH | |]; cbn [Matches Lang anchor_free];
    intros Haf w x s H E.
  - subst w. exists x. simpl. auto.
  - destruct H as (ch & -> & Hacc). exists (advance x s). split.
    + exists ch, s. auto.
    + simpl. split; [reflexivity | lia].
  - destruct H as (ch & -> & Hacc). exists (advance x s). split.
    + exists ch, s. auto.
    + simpl. split; [reflexivity | lia].
  - apply andb_true_iff in Haf. destruct Haf as [Ha1 Ha2].
    destruct H as (w1 & w2 & -> & L1 & L2).
    rewrite <- app_assoc in E.
    destruct (IH1 Ha1 _ _ _ L1 E) as (m & M1 & R1 & I1).
    destruct (IH2 Ha2 _ _ _ L2 R1) as (y & M2 & R2 & I2).
    exists y. split; [eauto |]. split; [exact R2 |].
    rewrite length_app. lia.
  - apply andb_true_iff in Haf. destruct Haf as [Ha1 Ha2].
    destruct H as [H | H].
    + destruct (IH1 Ha1 _ _ _ H E) as (y & ? & ? & ?). eauto.
    + destruct (IH2 Ha2 _ _ _ H E) as (y & ? & ? & ?). eauto.
  - revert x E.
    induction H as [min max Hst | min max w1 w2 Hmax L1 Hne Hrep IHrep];
      intros x E.
    + exists x. split; [now apply Rep_stop |]. simpl. auto.
    + rewrite <- app_assoc in E.
      destruct (IH Haf w1 (clear_captures (group_numbers r) x) (w2 ++ s) L1 E)
        as (y & M1 & R1 & I1).
      destruct (IHrep y R1) as (z & M2 & R2 & I2).
      exists z. split; [| split; [exact R2 |]].
      * eapply Rep_step; eauto. intros Emin. specialize (Hne Emin).
        simpl in I1. destruct w1; [congruence | simpl in I1; lia].
      * simpl in I1. rewrite length_app. lia.
  - destruct (IH Haf _ _ _ H E) as (m & M1 & R1 & I1).
    eexists. split; [exists m; split; [exact M1 | reflexivity] |].
    simpl. auto.
  - discriminate.
  - discriminate.
Qed.

(** *** Quantified character classes *)

Lemma RepL_class A inv min max w :
  bounded min max ->
  RepL (Lang ic (Chr A inv)) min max w ->
  Forall (fun ch => accepts ic A inv ch = true) w
  /\ (min <= length w)%nat
  /\ (forall m, max = Some m -> (length w <= m)%nat).
Proof.
  intros Hb H.
  induction H as [min max Hst | min max w1 w2 Hmax L1 Hne Hrep IH].
  - split; [constructor |]. simpl. split.
    + destruct Hst as [-> | ->]; [lia | simpl in Hb; lia].
    + intros; lia.
  - destruct L1 as (ch & -> & Hacc).
    assert (Hb' : bounded (Nat.pred min) (dec_max max)).
    { destruct max as [m |]; simpl in *; [lia | exact I]. }
    destruct (IH Hb') as (HF & Hmin & Hmax'). split; [| split].
    + constructor; assumption.
    + simpl. lia.
    + intros m ->. simpl in *. specialize (Hmax' _ eq_refl).
      destruct m; [congruence | simpl in Hmax'; lia].
Qed.

Lemma RepL_class_intro A inv w : forall min max,
  Forall (fun ch => accepts ic A inv ch = true) w ->
  (min <= length w)%nat ->
  (forall m, max = Some m -> (length w <= m)%nat) ->
  RepL (Lang ic (Chr A inv)) min max w.
Proof.
  induction w as [| ch w IH]; intros min max HF Hmin Hmax.
  - apply RepL_stop. left. simpl in Hmin. lia.
  - inversion HF as [| ? ? Hch HF']; subst.
    change (ch :: w) with ([ch] ++ w). apply RepL_step.
    + intros ->. specialize (Hmax _ eq_refl). simpl in Hmax. lia.
    + exists ch. auto.
    + discriminate.
    + apply IH; [exact HF' | simpl in Hmin; lia |].
      intros m Em. destruct max as [m0 |]; [| discriminate].
      injection Em as <-. specialize (Hmax _ eq_refl). simpl in Hmax. lia.
Qed.

Lemma Lang_fold_left rs : forall r0 w,
  Lang ic (fold_left Seq rs r0) w <->
  exists w0 w1, w = w0 ++ w1 /\ Lang ic r0 w0 /\ LangList ic rs w1.
Proof.
  induction rs as [| r rs IH]; intros r0 w; simpl.
  - split.
    + intros H. exists w, []. rewrite app_nil_r. auto.
    + intros (w0 & w1 & -> & H0 & ->). now rewrite app_nil_r.
  - rewrite IH. simpl. split.
    + intros (w0 & w1 & -> & (wa & wb & -> & Ha & Hb) & Hl).
      exists wa, (wb ++ w1). rewrite <- app_assoc. split; [reflexivity |].
      split; [exact Ha |]. exists wb, w1. auto.
    + intros (w0 & w1 & -> & H0 & (wa & wb & -> & Ha & Hb)).
      exists (w0 ++ wa), wb. rewrite <- app_assoc. split; [reflexivity |].
      split; [| exact Hb]. exists w0, wa. auto.
Qed.

Lemma Lang_cat rs w : Lang ic (cat rs) w <-> LangList ic rs w.
Proof.
  unfold cat. rewrite Lang_fold_left. simpl. split.
  - intros (w0 & w1 & -> & -> & H). exact H.
  - intros H. exists [], w. auto.
Qed.

Lemma anchor_free_fold_left rs : forall r0,
  anchor_free (fold_left Seq rs r0) = anchor_free r0 && forallb anchor_free rs.
Proof.
  induction rs as [| r rs IH]; intros r0; simpl.
  - now rewrite andb_true_r.
  - rewrite IH. simpl. now rewrite andb_assoc.
Qed.

Lemma Matches_fold_left rs : forall r0 x y,
  Matches ic (fold_left Seq rs r0) x y <->
  exists m, Matches ic r0 x m /\ MatchesList ic rs m y.
Proof.
  induction rs as [| r rs IH]; intros r0 x y; simpl.
  - split.
    + intros H. exists y. auto.
    + intros (m & H & ->). exact H.
  - rewrite IH. simpl. split.
    + intros (m & (m1 & H1 & H2) & Hl). exists m1. split; [exact H1 |].
      exists m. auto.
    + intros (m1 & H1 & (m & H2 & Hl)). exists m. split; [| exact Hl].
      exists m1. auto.
Qed.

Lemma Matches_cat rs x y : Matches ic (cat rs) x y <-> MatchesList ic rs x y.
Proof.
  unfold cat. rewrite Matches_fold_left. simpl. split.
  - intros (m & -> & H). exact H.
  - intros H. exists x. auto.
Qed.

End Languages.

(** *** [exec] and [test] *)

Section Exec.

Variable re : RegExp.

Lemma exec_from_sound s : forall i m,
  exec_from re i s = Some m ->
  exists pre post,
    s = pre ++ matched m ++ post
    /\ index m = (i + length pre)%nat
    /\ exists y, Matches (ignoreCase re) (pattern re)
                   (mkState (i + length pre) (matched m ++ post) []) y
                 /\ rest y = post /\ groups m = captures y.
Proof.
  induction s as [| c s IH]; intros i m H; simpl in H.
  - destruct (compile _ _ _ _) as [y |] eqn:E; [| discriminate].
    injection H as <-. apply compile_sound in E.
    destruct E as (y' & HM & [= <-]). simpl.
    destruct (Matches_Lang _ _ _ _ HM) as (w & [Ew Iw] & _). simpl in *.
    exists [], []. destruct w; [| discriminate]. simpl in *.
    rewrite take_nil. simpl. rewrite Nat.add_0_r.
    repeat split; try reflexivity. exists y'. auto.
  - destruct (compile _ _ _ _) as [y |] eqn:E.
    + injection H as <-. apply compile_sound in E.
      destruct E as (y' & HM & [= <-]). simpl.
      destruct (Matches_Lang _ _ _ _ HM) as (w & [Ew Iw] & _). simpl in *.
      exists [], (rest y'). rewrite Nat.add_0_r.
      assert (Et : take (endIndex y' - i) (c :: s) = w).
      { rewrite Ew, Iw. replace (i + length w - i)%nat with (length w) by lia.
        now rewrite take_app_length. }
      rewrite Et. rewrite <- Ew. repeat split; try reflexivity.
      exists y'. auto.
    + apply IH in H. destruct H as (pre & post & Es & Ei & y & HM & Hr & Hg).
      exists (c :: pre), post. simpl. rewrite Es at 1.
      split; [reflexivity |]. split; [lia |].
      exists y. replace (i + S (length pre))%nat with (S i + length pre)%nat by lia.
      auto.
Qed.

Lemma exec_from_complete s : forall i pre suf y,
  s = pre ++ suf ->
  Matches (ignoreCase re) (pattern re) (mkState (i + length pre) suf []) y ->
  is_Some (exec_from re i s).
Proof.
  induction s as [| c s IH]; intros i pre suf y Es HM.
  - symmetry in Es. apply app_eq_nil in Es. destruct Es as [-> ->].
    simpl in *. rewrite Nat.add_0_r in HM.
    destruct (compile_complete _ _ _ _ Some HM) as [z ->]; eauto.
  - simpl. destruct (compile _ _ _ _) as [z |] eqn:E; [eauto |].
    destruct pre as [| p pre].
    + simpl in *. subst suf. rewrite Nat.add_0_r in HM.
      destruct (compile_complete _ _ _ _ Some HM) as [z Hz]; [eauto |].
      congruence.
    + injection Es as -> ->. apply (IH (S i) pre suf y eq_refl).
      simpl in HM. replace (S i + length pre)%nat with (i + S (length pre))%nat by lia.
      exact HM.
Qed.

Lemma test_true_elim s :
  test re s = true ->
  exists pre w post, s = pre ++ w ++ post /\ Lang (ignoreCase re) (pattern re) w.
Proof.
  unfold test, exec. destruct (exec_from re 0 s) as [m |] eqn:E; [| discriminate].
  intros _. apply exec_from_sound in E.
  destruct E as (pre & post & Es & _ & y & HM & Hr & _).
  apply Matches_Lang in HM. destruct HM as (w & [Ew _] & HL). simpl in Ew.
  rewrite Hr in Ew. apply app_inv_tail in Ew. subst w. eauto.
Qed.

Lemma test_true_intro s pre w post :
  anchor_free (pattern re) = true ->
  s = pre ++ w ++ post -> Lang (ignoreCase re) (pattern re) w ->
  test re s = true.
Proof.
  intros Haf Es HL. unfold test, exec.
  destruct (Lang_Matches (ignoreCase re) _ Haf w
              (mkState (0 + length pre) (w ++ post) []) post HL eq_refl)
    as (y & HM & _).
  destruct (exec_from_complete s 0 pre (w ++ post) y Es HM) as [m ->].
  reflexivity.
Qed.

Lemma exec_matched s m :
  exec re s = Some m ->
  exists pre post, s = pre ++ matched m ++ post
                   /\ Lang (ignoreCase re) (pattern re) (matched m).
Proof.
  intros E. apply exec_from_sound in E.
  destruct E as (pre & post & Es & _ & y & HM & Hr & _).
  apply Matches_Lang in HM. destruct HM as (w & [Ew _] & HL). simpl in Ew.
  rewrite Hr in Ew. apply app_inv_tail in Ew. subst w. eauto.
Qed.

End Exec.

Section SequenceLanguages.

Variable ic : bool.

Lemma MatchesList_app l1 : forall l2 x y,
  MatchesList ic (l1 ++ l2) x y <->
  exists m, MatchesList ic l1 x m /\ MatchesList ic l2 m y.
Proof.
  induction l1 as [| r l1 IH]; intros l2 x y; simpl.
  - split.
    + intros H. exists x. auto.
    + intros (m & -> & H). exact H.
  - split.
    + intros (m1 & H1 & H). apply IH in H. destruct H as (m & Ha & Hb).
      exists m. split; [| exact Hb]. exists m1. auto.
    + intros (m & (m1 & H1 & Ha) & Hb). exists m1. split; [exact H1 |].
      apply IH. eauto.
Qed.

Lemma MatchesList_LangList rs : forall x y,
  MatchesList ic rs x y -> exists w, consumes x y w /\ LangList ic rs w.
Proof.
  induction rs as [| r rs IH]; intros x y H; simpl in *.
  - subst. exists []. split; [apply consumes_nil | reflexivity].
  - destruct H as (m & H1 & H2).
    apply Matches_Lang in H1. destruct H1 as (w1 & C1 & L1).
    apply IH in H2. destruct H2 as (w2 & C2 & L2).
    exists (w1 ++ w2). split; [eapply consumes_app; eauto |].
    exists w1, w2. auto.
Qed.

Lemma LangList_MatchesList rs : forallb (anchor_free) rs = true ->
  forall w x s, LangList ic rs w -> rest x = w ++ s ->
  exists y, MatchesList ic rs x y /\ rest y = s
            /\ endIndex y = (endIndex x + length w)%nat
            /\ (rs = [] -> y = x).
Proof.
  induction rs as [| r rs IH]; intros Haf w x s H E; simpl in *.
  - subst w. exists x. simpl. auto.
  - apply andb_true_iff in Haf. destruct Haf as [Ha Hb].
    destruct H as (w1 & w2 & -> & L1 & L2). rewrite <- app_assoc in E.
    destruct (Lang_Matches ic r Ha _ _ _ L1 E) as (m & M1 & R1 & I1).
    destruct (IH Hb _ _ _ L2 R1) as (y & M2 & R2 & I2 & _).
    exists y. split; [eauto |]. split; [exact R2 |].
    split; [rewrite length_app; lia | discriminate].
Qed.

End SequenceLanguages.

(** A pattern of the form [^ ... $] accepts exactly the strings that its
    middle part spells out in full. *)
Lemma test_anchored re mid s :
  pattern re = cat (AssertStart :: mid ++ [AssertEnd]) ->
  forallb anchor_free mid = true ->
  test re s = true <-> LangList (ignoreCase re) mid s.
Proof.
  intros Hp Haf. split.
  - unfold test, exec. destruct (exec_from re 0 s) as [m |] eqn:E;
      [| discriminate].
    intros _. apply exec_from_sound in E.
    destruct E as (pre & post & Es & _ & y & HM & Hr & _).
    rewrite Hp in HM. apply Matches_cat in HM. simpl in HM.
    destruct HM as (m0 & [Hi ->] & HM). simpl in Hi.
    destruct pre; [| simpl in Hi; lia]. simpl in *.
    apply MatchesList_app in HM. destruct HM as (m1 & HM & Hend).
    simpl in Hend. destruct Hend as (m2 & [Hnil ->] & ->).
    apply MatchesList_LangList in HM. destruct HM as (w & [Ew _] & HL).
    simpl in Ew. rewrite Hnil, app_nil_r in Ew.
    rewrite Hnil in Hr. subst post. rewrite app_nil_r in Es.
    subst s. rewrite app_nil_r in Ew. now rewrite Ew.
  - intros HL. unfold test, exec.
    destruct (LangList_MatchesList (ignoreCase re) mid Haf s
                (mkState 0 s []) [] HL) as (y & HM & Hr & _).
    { simpl. now rewrite app_nil_r. }
    assert (HM' : Matches (ignoreCase re) (pattern re) (mkState (0 + 0) s []) y).
    { rewrite Hp. apply Matches_cat. simpl. exists (mkState 0 s []).
      split; [auto |]. apply MatchesList_app. exists y. split; [exact HM |].
      simpl. exists y. auto. }
    destruct (exec_from_complete re s 0 [] s y eq_refl HM') as [m ->].
    reflexivity.
Qed.

(** ** The tag validator *)

Lemma accepts_nocase A inv ch :
  accepts false A inv ch = xorb inv (in_ranges A ch).
Proof.
  unfold accepts, set_has, Canonicalize. simpl. now rewrite orb_false_r.
Qed.

Lemma Lang_plus_alnum w : Lang false (plus alnum) w <-> alnum_segment w.
Proof.
  unfold plus, alnum, alnum_segment. cbn [Lang]. split.
  - intros H. apply RepL_class in H; [| exact I].
    destruct H as (HF & Hlen & _). split.
    + destruct w; [simpl in Hlen; lia | discriminate].
    + eapply Forall_impl; [exact HF |]. intros c Hc. cbv beta in *.
      now rewrite accepts_nocase in Hc.
  - intros [Hne HF]. apply RepL_class_intro.
    + eapply Forall_impl; [exact HF |]. intros c Hc. cbv beta in *.
      now rewrite accepts_nocase.
    + destruct w; [congruence | simpl; lia].
    + discriminate.
Qed.

Lemma Lang_digits w :
  Lang false (Quant digit 1%nat (Some 3%nat)) w <-> numeric_suffix w.
Proof.
  unfold digit, numeric_suffix. cbn [Lang]. split.
  - intros H. apply RepL_class in H; [| simpl; lia].
    destruct H as (HF & Hlen & Hmax). specialize (Hmax _ eq_refl).
    split; [lia |]. eapply Forall_impl; [exact HF |]. intros c Hc. cbv beta in *.
    rewrite accepts_nocase in Hc. simpl in Hc. unfold is_ascii_digit.
    unfold in_ranges in Hc. simpl in Hc. now rewrite orb_false_r in Hc.
  - intros [Hlen HF]. apply RepL_class_intro.
    + eapply Forall_impl; [exact HF |]. intros c Hc. cbv beta in *.
      rewrite accepts_nocase. unfold in_ranges. simpl.
      rewrite orb_false_r. exact Hc.
    + lia.
    + intros m [= <-]. lia.
Qed.

Lemma chr_hyphen : chr "-" = Chr [(45, 45)] false.
Proof. reflexivity. Qed.

Lemma Lang_hyphen w : Lang false (chr "-") w <-> w = [45].
Proof.
  rewrite chr_hyphen. cbn [Lang]. split.
  - intros (ch & -> & H). rewrite accepts_nocase in H. unfold in_ranges in H.
    simpl in H. rewrite orb_false_r in H. unfold in_range in H.
    apply andb_true_iff in H. destruct H as [H1 H2].
    apply N.leb_le in H1, H2. f_equal. lia.
  - intros ->. exists 45. split; reflexivity.
Qed.

Lemma Lang_more_segments w :
  Lang false (star (cat [chr "-"; plus alnum])) w <->
  exists segs, w = flat_map (cons 45) segs /\ Forall alnum_segment segs.
Proof.
  unfold star. cbn [Lang]. split.
  - intros H. remember 0%nat as min eqn:Emin. remember (@None nat) as max eqn:Emax.
    induction H as [min max Hst | min max w1 w2 Hmax L1 Hne Hrep IH].
    + exists []. split; [reflexivity | constructor].
    + subst. simpl in IH. destruct (IH eq_refl eq_refl) as (segs & -> & HF).
      apply Lang_cat in L1. simpl in L1.
      destruct L1 as (h & t & -> & Hh & (g & e & -> & Hg & ->)).
      apply Lang_hyphen in Hh. subst h. apply Lang_plus_alnum in Hg.
      exists (g :: segs). split.
      * simpl. now rewrite app_nil_r.
      * constructor; assumption.
  - intros (segs & -> & HF). induction HF as [| g segs Hg HF IH].
    + apply RepL_stop. now left.
    + change (flat_map (cons 45) (g :: segs))
        with ((45 :: g) ++ flat_map (cons 45) segs).
      apply RepL_step.
      * discriminate.
      * apply Lang_cat. simpl. exists [45], g. split; [reflexivity |].
        split; [now apply Lang_hyphen |].
        exists g, []. rewrite app_nil_r. split; [reflexivity |].
        split; [now apply Lang_plus_alnum | reflexivity].
      * discriminate.
      * exact IH.
Qed.

Theorem isValidAmazonTag_TagWord s :
  isValidAmazonTag s = true <-> TagWord s.
Proof.
  unfold isValidAmazonTag.
  rewrite (test_anchored tagRegex
             [plus alnum; star (cat [chr "-"; plus alnum]); chr "-";
              Quant digit 1%nat (Some 3%nat)] s eq_refl eq_refl).
  simpl. unfold TagWord. split.
  - intros (a & t1 & -> & Ha & (w2 & t2 & -> & H2 & (h & t3 & -> & Hh
             & (d & e & -> & Hd & ->)))).
    apply Lang_plus_alnum in Ha. apply Lang_more_segments in H2.
    destruct H2 as (segs & -> & HF). apply Lang_hyphen in Hh. subst h.
    apply Lang_digits in Hd. exists a, segs, d. rewrite app_nil_r.
    simpl. auto.
  - intros (a & segs & d & -> & Ha & HF & Hd).
    exists a, (flat_map (cons 45) segs ++ 45 :: d). split; [reflexivity |].
    split; [now apply Lang_plus_alnum |].
    exists (flat_map (cons 45) segs), (45 :: d). split; [reflexivity |].
    split; [apply Lang_more_segments; eauto |].
    exists [45], d. split; [reflexivity |]. split; [now apply Lang_hyphen |].
    exists d, []. rewrite app_nil_r. split; [reflexivity |].
    split; [now apply Lang_digits | reflexivity].
Qed.

Lemma split_on_clean sep p :
  Forall (fun c => c <> sep) p -> split_on sep p = [p].
Proof.
  induction 1 as [| c p Hc HF IH]; simpl; [reflexivity |].
  destruct (N.eqb_spec c sep); [contradiction |]. now rewrite IH.
Qed.

Lemma split_on_cons sep p t :
  Forall (fun c => c <> sep) p ->
  split_on sep (p ++ sep :: t) = p :: split_on sep t.
Proof.
  induction 1 as [| c p Hc HF IH]; simpl.
  - now rewrite N.eqb_refl.
  - destruct (N.eqb_spec c sep); [contradiction |]. now rewrite IH.
Qed.

Lemma split_on_unsplit sep s :
  exists p ps, split_on sep s = p :: ps
               /\ s = p ++ flat_map (cons sep) ps.
Proof.
  induction s as [| c s (p & ps & E & Es)]; simpl.
  - exists [], []. auto.
  - destruct (N.eqb_spec c sep) as [-> | Hne].
    + exists [], (p :: ps). rewrite E. simpl. split; [reflexivity |].
      now rewrite Es at 1.
    + rewrite E. exists (c :: p), ps. simpl. split; [reflexivity |].
      now rewrite Es at 1.
Qed.

Lemma alnum_not_hyphen c : is_ascii_alnum c = true -> c <> 45.
Proof. intros H ->. discriminate. Qed.

Lemma digit_not_hyphen c : is_ascii_digit c = true -> c <> 45.
Proof. intros H ->. discriminate. Qed.

Lemma is_alnum_segment_spec g :
  is_alnum_segment g = true <-> alnum_segment g.
Proof.
  unfold is_alnum_segment, alnum_segment.
  rewrite andb_true_iff, negb_true_iff, Nat.eqb_neq, forallb_forall.
  rewrite Forall_forall. split; intros [H1 H2]; split.
  - intros ->. now apply H1.
  - intros c Hc. apply H2. now apply list_elem_of_In.
  - destruct g; [congruence | discriminate].
  - intros c Hc. apply H2. now apply list_elem_of_In.
Qed.

Lemma split_tag_word a segs d :
  alnum_segment a -> Forall alnum_segment segs -> numeric_suffix d ->
  split_on 45 (a ++ flat_map (cons 45) segs ++ 45 :: d) = a :: segs ++ [d].
Proof.
  intros [_ Ha] HF [_ Hd]. revert a Ha.
  induction HF as [| g segs [_ Hg] HF IH]; intros a Ha; simpl.
  - rewrite split_on_cons.
    + f_equal. apply split_on_clean.
      eapply Forall_impl; [exact Hd |]. apply digit_not_hyphen.
    + eapply Forall_impl; [exact Ha |]. apply alnum_not_hyphen.
  - rewrite split_on_cons.
    + f_equal. rewrite <- app_assoc. now apply IH.
    + eapply Forall_impl; [exact Ha |]. apply alnum_not_hyphen.
Qed.

Lemma TagWord_shape s : TagWord s <-> is_tag_shape s = true.
Proof.
  unfold is_tag_shape. split.
  - intros (a & segs & d & -> & Ha & HF & Hd).
    rewrite split_tag_word by assumption.
    change (a :: segs ++ [d]) with ((a :: segs) ++ [d]).
    rewrite rev_app_distr. cbn [rev app].
    destruct Hd as [Hlen Hd].
    assert (Hl : length (rev segs ++ [a]) <> 0%nat)
      by (rewrite length_app; simpl; lia).
    apply Nat.eqb_neq in Hl. rewrite Hl. cbn [negb andb].
    assert (Hlead : forallb is_alnum_segment (rev segs ++ [a]) = true).
    { rewrite forallb_app. simpl. rewrite andb_true_r.
      apply andb_true_iff. split.
      - apply forallb_forall. intros g Hg. apply is_alnum_segment_spec.
        rewrite Forall_forall in HF. apply HF.
        apply list_elem_of_In. now apply in_rev.
      - now apply is_alnum_segment_spec. }
    rewrite Hlead. cbn [andb].
    assert (H1 : Nat.leb 1 (length d) = true) by (apply Nat.leb_le; lia).
    assert (H3 : Nat.leb (length d) 3 = true) by (apply Nat.leb_le; lia).
    rewrite H1, H3. cbn [andb]. apply forallb_forall. intros c Hc.
    rewrite Forall_forall in Hd. apply Hd. now apply list_elem_of_In.
  - destruct (split_on_unsplit 45 s) as (p & ps & E & Es). rewrite E.
    destruct (rev (p :: ps)) as [| final leading] eqn:Er; [discriminate |].
    intros H.
    apply andb_true_iff in H. destruct H as [H Hdig].
    apply andb_true_iff in H. destruct H as [H Hle3].
    apply andb_true_iff in H. destruct H as [H Hle1].
    apply andb_true_iff in H. destruct H as [H Hlead].
    apply negb_true_iff, Nat.eqb_neq in H.
    assert (Epp : p :: ps = rev leading ++ [final]).
    { rewrite <- (rev_involutive (p :: ps)), Er. reflexivity. }
    destruct (rev leading) as [| a segs] eqn:El.
    { apply (f_equal (@length _)) in El. rewrite length_rev in El.
      simpl in El. congruence. }
    simpl in Epp. injection Epp as -> ->.
    assert (HFl : Forall alnum_segment (a :: segs)).
    { rewrite <- El. apply Forall_forall. intros g Hg.
      apply is_alnum_segment_spec.
      rewrite forallb_forall in Hlead. apply Hlead. apply in_rev.
      now apply list_elem_of_In. }
    inversion HFl as [| ? ? Ha HF]; subst.
    exists a, segs, final. split; [| split; [exact Ha | split; [exact HF |]]].
    + rewrite flat_map_app. simpl. now rewrite app_nil_r.
    + split.
      * apply Nat.leb_le in Hle1, Hle3. lia.
      * apply Forall_forall. intros c Hc.
        rewrite forallb_forall in Hdig. apply Hdig.
        now apply list_elem_of_In.
Qed.

(** ** Tag validation (claim C7) *)

(** C7.  [isValidAmazonTag s] is true exactly when the whole string [s]
    is one or more alphanumeric segments and a final segment that is a
    1-to-3-digit number, all joined by hyphens; it accepts [store-20] and
    [my-cool-store-1] and rejects [store], [store-abcd], [ store-20 ] with
    its surrounding spaces, and [-20].  (The numeric segment comes after
    the others: a number alone, such as [20], is rejected.) *)
Theorem isValidAmazonTag_shape :
  (forall s, isValidAmazonTag s = is_tag_shape s)
  /\ isValidAmazonTag (js "20") = false
  /\ isValidAmazonTag (js "store-20") = true
  /\ isValidAmazonTag (js "my-cool-store-1") = true
  /\ isValidAmazonTag (js "store") = false
  /\ isValidAmazonTag (js "store-abcd") = false
  /\ isValidAmazonTag (js " store-20 ") = false
  /\ isValidAmazonTag (js "-20") = false.
Proof.
  split; [| repeat split; reflexivity].
  intros s. destruct (isValidAmazonTag s) eqn:E.
  - symmetry. apply TagWord_shape, isValidAmazonTag_TagWord, E.
  - destruct (is_tag_shape s) eqn:E'; [| reflexivity].
    apply TagWord_shape, isValidAmazonTag_TagWord in E'. congruence.
Qed.

Lemma valid_tag_nonempty t :
  isValidAmazonTag t = true -> Nat.eqb (length t) 0 = false.
Proof. destruct t; [discriminate | reflexivity]. Qed.

Lemma not_command_not_settag s :
  startsWith s (js "/") = false -> str_eqb s (js "/settag") = false.
Proof.
  destruct s as [| c s]; [reflexivity |].
  change (js "/") with [47]. change (js "/settag") with (47 :: js "settag").
  cbn [startsWith str_eqb]. rewrite (N.eqb_sym c 47).
  destruct (47 =? c); [discriminate | reflexivity].
Qed.

(** ** The no-op law (claim C8) *)

(** C8.  Rewriter no-op law: when the tag argument is absent
    ([undefined], or the empty string), both rewriters return the URL they
    were given, whatever it is. *)
Theorem rewrite_without_tag_is_identity :
  forall (URL_parse : jsstring -> option URL) (url : jsstring),
    Webhook.convertToAffiliateLink URL_parse url None = url
    /\ Webhook.convertToAffiliateLink URL_parse url (Some []) = url
    /\ Poller.convertToAffiliateLink url None = url
    /\ Poller.convertToAffiliateLink url (Some []) = url.
Proof. intros. repeat split. Qed.

(** ** The end-to-end example (claim C6) *)

(** C6, as stated, against the code: the message
    [check this out amazon.com/dp/B00005N5PF thanks] carries no
    [http://] or [https://] token, so nothing is extracted and both entry
    points answer with their no-URL reply. *)
Lemma schemeless_link_is_not_extracted :
  exec urlRegex (js "check this out amazon.com/dp/B00005N5PF thanks") = None
  /\ Webhook.handler parse_http offline registered
       (Some (says "check this out amazon.com/dp/B00005N5PF thanks"))
     = (registered, [SendMessage 1 Webhook.msg_no_url;
                     Respond 200 (js "No URL found")])
  /\ Poller.onMessage offline registered
       (says "check this out amazon.com/dp/B00005N5PF thanks")
     = (registered, [SendMessage 1 Poller.msg_not_amazon]).
Proof. repeat split; vm_compute; reflexivity. Qed.

(** C6, amended.  For a user whose stored tag is [store-20] sending
    [check this out https://amazon.com/dp/B00005N5PF thanks], the candidate
    URL is [https://amazon.com/dp/B00005N5PF], it is classified direct, and
    the reply carries a URL whose query is [tag=store-20] and whose path
    is [/dp/B00005N5PF]. *)
Theorem end_to_end_direct_link :
  forall client : HttpClient,
    matched <$> exec urlRegex
                  (js "check this out https://amazon.com/dp/B00005N5PF thanks")
    = Some product_url
    /\ test Webhook.anyAmazonDomainRegex product_url = true
    /\ test Poller.amazonShortLinkRegex product_url = false
    /\ test Poller.amazonLongLinkRegex product_url = true
    /\ Webhook.handler parse_http client registered
         (Some (says "check this out https://amazon.com/dp/B00005N5PF thanks"))
       = (registered, [SendMessage 1 (msg_affiliate_link product_link);
                       Respond 200 (js "Update processed")])
    /\ Poller.onMessage client registered
         (says "check this out https://amazon.com/dp/B00005N5PF thanks")
       = (registered, [SendMessage 1 (msg_affiliate_link product_link)])
    /\ query <$> parse_http product_link = Some (Some (js "tag=store-20"))
    /\ path <$> parse_http product_link
       = Some (Segments [js "dp"; js "B00005N5PF"]).
Proof. intros client. repeat split; vm_compute; reflexivity. Qed.

(** ** Two rewriting strategies (claim C3) *)

(** C3, as stated, against the code: on
    [https://www.amazon.com/dp/B00005N5PF?psc=1] with tag [store-20] the
    webhook keeps host and query and adds the tag, while the poller
    rebuilds a minimal URL. *)
Lemma rewriters_differ :
  Webhook.convertToAffiliateLink parse_http
    (js "https://www.amazon.com/dp/B00005N5PF?psc=1") (Some (js "store-20"))
  = js "https://www.amazon.com/dp/B00005N5PF?psc=1&tag=store-20"
  /\ Poller.convertToAffiliateLink
       (js "https://www.amazon.com/dp/B00005N5PF?psc=1") (Some (js "store-20"))
     = js "https://amazon.com/dp/B00005N5PF?tag=store-20"
  /\ Webhook.convertToAffiliateLink parse_http
       (js "https://www.amazon.com/dp/B00005N5PF?psc=1") (Some (js "store-20"))
     <> Poller.convertToAffiliateLink
          (js "https://www.amazon.com/dp/B00005N5PF?psc=1")
          (Some (js "store-20")).
Proof.
  split; [vm_compute; reflexivity |].
  split; [vm_compute; reflexivity | vm_compute; discriminate].
Qed.

(** ** Redirect resolution (claim C5) *)

Section Resolution.

Variable client : HttpClient.

Lemma Hops_step n url location u :
  redirect_target (respond client url) = Some location ->
  Hops client (S n) url u ->
  Hops client n (redirect_url client url location) u.
Proof.
  intros Er Hh. inversion Hh as [| ? ? l ? Er' Hh']; subst.
  rewrite Er in Er'. injection Er' as <-. exact Hh'.
Qed.

Lemma Hops_stop n url u :
  redirect_target (respond client url) = None ->
  Hops client n url u -> n = 0%nat /\ u = url.
Proof.
  intros Er Hh. inversion Hh; subst; [auto | congruence].
Qed.

Lemma follow_redirects_Some n : forall url f,
  follow_redirects client n url = Some f <->
  exists k, (k <= n)%nat /\ Lands client k url f
            /\ is_success (respond client f) = true.
Proof.
  induction n as [| n IH]; intros url f; simpl.
  - destruct (redirect_target (respond client url)) as [next |] eqn:Er.
    + split; [discriminate |]. intros (k & Hk & [Hh Hl] & _).
      inversion Hh; subst; [congruence | lia].
    + destruct (is_success (respond client url)) eqn:Es.
      * split.
        -- intros [= <-]. exists 0%nat. repeat split; auto. constructor.
        -- intros (k & Hk & [Hh Hl] & _).
           destruct (Hops_stop _ _ _ Er Hh) as [_ ->]. reflexivity.
      * split; [discriminate |]. intros (k & Hk & [Hh Hl] & Hs).
        destruct (Hops_stop _ _ _ Er Hh) as [_ ->]. congruence.
  - destruct (redirect_target (respond client url)) as [next |] eqn:Er.
    + rewrite IH. split.
      * intros (k & Hk & [Hh Hl] & Hs). exists (S k). split; [lia |].
        split; [| exact Hs]. split; [| exact Hl]. econstructor; eauto.
      * intros (k & Hk & [Hh Hl] & Hs). destruct k as [| k].
        -- inversion Hh; subst. congruence.
        -- exists k. split; [lia |]. split; [| exact Hs].
           split; [| exact Hl]. exact (Hops_step _ _ _ _ Er Hh).
    + destruct (is_success (respond client url)) eqn:Es.
      * split.
        -- intros [= <-]. exists 0%nat. split; [lia |]. split; [| exact Es].
           split; [constructor | exact Er].
        -- intros (k & Hk & [Hh Hl] & _).
           destruct (Hops_stop _ _ _ Er Hh) as [_ ->]. reflexivity.
      * split; [discriminate |]. intros (k & Hk & [Hh Hl] & Hs).
        destruct (Hops_stop _ _ _ Er Hh) as [_ ->]. congruence.
Qed.

Lemma follow_redirects_None n : forall url,
  follow_redirects client n url = None <->
  (exists k f, (k <= n)%nat /\ Lands client k url f
               /\ is_success (respond client f) = false)
  \/ (exists u, Hops client (S n) url u).
Proof.
  induction n as [| n IH]; intros url; simpl.
  - destruct (redirect_target (respond client url)) as [next |] eqn:Er.
    + split; [| reflexivity]. intros _. right.
      exists (redirect_url client url next).
      econstructor; [exact Er | constructor].
    + destruct (is_success (respond client url)) eqn:Es.
      * split; [discriminate |]. intros [(k & f & Hk & [Hh Hl] & Hs) | (u & Hh)].
        -- destruct (Hops_stop _ _ _ Er Hh) as [_ ->]. congruence.
        -- destruct (Hops_stop _ _ _ Er Hh) as [? _]. discriminate.
      * split; [| reflexivity]. intros _. left. exists 0%nat, url.
        split; [lia |]. split; [| exact Es]. split; [constructor | exact Er].
  - destruct (redirect_target (respond client url)) as [next |] eqn:Er.
    + rewrite IH. split.
      * intros [(k & f & Hk & [Hh Hl] & Hs) | (u & Hh)].
        -- left. exists (S k), f. split; [lia |]. split; [| exact Hs].
           split; [| exact Hl]. econstructor; eauto.
        -- right. exists u. econstructor; eauto.
      * intros [(k & f & Hk & [Hh Hl] & Hs) | (u & Hh)].
        -- destruct k as [| k]; [inversion Hh; subst; congruence |].
           left. exists k, f. split; [lia |]. split; [| exact Hs].
           split; [| exact Hl]. exact (Hops_step _ _ _ _ Er Hh).
        -- right. exists u. exact (Hops_step _ _ _ _ Er Hh).
    + destruct (is_success (respond client url)) eqn:Es.
      * split; [discriminate |]. intros [(k & f & Hk & [Hh Hl] & Hs) | (u & Hh)].
        -- destruct (Hops_stop _ _ _ Er Hh) as [_ ->]. congruence.
        -- destruct (Hops_stop _ _ _ Er Hh) as [? _]. discriminate.
      * split; [| reflexivity]. intros _. left. exists 0%nat, url.
        split; [lia |]. split; [| exact Es]. split; [constructor | exact Er].
Qed.

(** The call succeeds with the URL of the request on which the chain
    from its first request ends, if that takes at most [n] redirects
    and the response there is 2xx. *)
Lemma axios_get_Some n url f :
  axios_get client n url = Some f <->
  exists k, (k <= n)%nat /\ Lands client k (request_url client url) f
            /\ is_success (respond client f) = true.
Proof. apply follow_redirects_Some. Qed.

Lemma axios_get_None n url :
  axios_get client n url = None <->
  (exists k f, (k <= n)%nat /\ Lands client k (request_url client url) f
               /\ is_success (respond client f) = false)
  \/ (exists u, Hops client (S n) (request_url client url) u).
Proof. apply follow_redirects_None. Qed.

Lemma not_success r :
  is_success r = false <->
  r = NetworkError
  \/ exists status location,
       r = Reply status location /\ in_range 200 299 status = false.
Proof.
  destruct r as [| status location]; simpl.
  - split; auto.
  - split.
    + intros H. right. eauto.
    + intros [H | (s & l & [= -> ->] & H)]; [discriminate | exact H].
Qed.

(** One call makes at most one request more than the redirects it may
    follow, the first of them for the URL it was given. *)
Lemma requests_from_length n : forall url,
  (1 <= length (requests_from client n url) <= S n)%nat.
Proof.
  induction n as [| n IH]; intros url; simpl.
  - destruct (redirect_target (respond client url)); simpl; lia.
  - destruct (redirect_target (respond client url)) as [l |]; simpl; [| lia].
    specialize (IH (redirect_url client url l)). lia.
Qed.


End Resolution.

(** The poller's handler calls its resolver, if at all, with a URL that
    passed the short-link test. *)
Lemma poller_calls_short_links client st msg url :
  In (AxiosGet url) (snd (Poller.onMessage client st msg)) ->
  test Poller.amazonShortLinkRegex url = true.
Proof.
  unfold Poller.onMessage, Poller.resolveShortAmazonLink,
    Poller.convert_and_reply.
  assert (Hno : forall c t,
            In (AxiosGet url) [SendMessage c t] ->
            test Poller.amazonShortLinkRegex url = true)
    by (intros c t [H | []]; discriminate H).
  destruct (bool_decide (userId msg ∈ usersAwaitingTag st)).
  { destruct (negb _ && _); cbn [snd]; [| apply Hno].
    intros [H | H]; [discriminate H | revert H; apply Hno]. }
  destruct (startsWith (text msg) (js "/")); [apply Hno |].
  destruct (exec urlRegex (text msg)) as [m |]; [| apply Hno].
  cbv zeta.
  destruct (test Poller.amazonShortLinkRegex (matched m)) eqn:Es.
  - change (test Poller.shortLinkRegex (matched m))
      with (test Poller.amazonShortLinkRegex (matched m)).
    rewrite Es. cbn [negb].
    assert (Hu : In (AxiosGet url) [AxiosGet (matched m)] ->
                 test Poller.amazonShortLinkRegex url = true).
    { intros [[= <-] | []]. exact Es. }
    destruct (truthy (axios_get client 10 (matched m))); cbn [snd app].
    + intros [H | [H | H]]; [discriminate H | apply Hu; now left |].
      revert H. destruct (test Poller.amazonLongLinkRegex _);
        [destruct (negb _) |]; apply Hno.
    + intros [H | [H | H]]; [discriminate H | apply Hu; now left |].
      revert H. apply Hno.
  - cbn [snd]. destruct (test Poller.amazonLongLinkRegex _);
      [destruct (negb _) |]; apply Hno.
Qed.

(** C5.  For every URL string the resolver is called with, the call
    returns the landed URL, that of the last request of the redirect
    chain as the client writes it, when the chain from the first request
    ends within 10 redirects in a 2xx response; it returns the failure
    value exactly when the chain ends without a response (a network
    error), or takes an 11th redirect, or ends in a response outside
    2xx.  Both resolvers do so: the poller calls its own only with a URL
    that passed the handler's short-link test, and the pattern its
    resolver tests again is the same.  In particular a chain of 11
    redirects fails in both. *)
Theorem resolver_outcomes :
  forall (client : HttpClient) (url : jsstring),
    let first := request_url client url in
    (forall f,
       Webhook.resolveUrl client url = Some f <->
       exists k, (k <= 10)%nat /\ Lands client k first f
                 /\ is_success (respond client f) = true)
    /\ (Webhook.resolveUrl client url = None <->
        (exists k f, (k <= 10)%nat /\ Lands client k first f
                     /\ respond client f = NetworkError)
        \/ (exists u, Hops client 11 first u)
        \/ (exists k f status location,
              (k <= 10)%nat /\ Lands client k first f
              /\ respond client f = Reply status location
              /\ in_range 200 299 status = false))
    /\ (test Poller.amazonShortLinkRegex url = true ->
        Poller.resolveShortAmazonLink client url
        = (Webhook.resolveUrl client url, [AxiosGet url]))
    /\ (forall st msg,
          In (AxiosGet url) (snd (Poller.onMessage client st msg)) ->
          test Poller.amazonShortLinkRegex url = true)
    /\ ((exists u, Hops client 11 first u) ->
        Webhook.resolveUrl client url = None
        /\ (test Poller.amazonShortLinkRegex url = true ->
            fst (Poller.resolveShortAmazonLink client url) = None)).
Proof.
  intros client url first.
  assert (Hnone : Webhook.resolveUrl client url = None <->
        (exists k f, (k <= 10)%nat /\ Lands client k first f
                     /\ respond client f = NetworkError)
        \/ (exists u, Hops client 11 first u)
        \/ (exists k f status location,
              (k <= 10)%nat /\ Lands client k first f
              /\ respond client f = Reply status location
              /\ in_range 200 299 status = false)).
  { unfold Webhook.resolveUrl. rewrite axios_get_None. fold first. split.
    + intros [(k & f & Hk & Hl & Hs) | Hh]; [| auto].
      apply not_success in Hs. destruct Hs as [Hs | (s & l & Hs & Hr)].
      * left. eauto.
      * right. right. exists k, f, s, l. auto.
    + intros [(k & f & Hk & Hl & Hs) | [Hh | (k & f & s & l & Hk & Hl & Hs & Hr)]].
      * left. exists k, f. split; [exact Hk |]. split; [exact Hl |].
        apply not_success. auto.
      * right. exact Hh.
      * left. exists k, f. split; [exact Hk |]. split; [exact Hl |].
        apply not_success. right. eauto. }
  assert (Hguard : test Poller.amazonShortLinkRegex url = true ->
        Poller.resolveShortAmazonLink client url
        = (Webhook.resolveUrl client url, [AxiosGet url])).
  { intros Hs. unfold Poller.resolveShortAmazonLink, Webhook.resolveUrl.
    change Poller.shortLinkRegex with Poller.amazonShortLinkRegex.
    rewrite Hs. reflexivity. }
  split; [| split; [| split; [| split]]].
  - intros f. apply axios_get_Some.
  - exact Hnone.
  - exact Hguard.
  - intros st msg. apply poller_calls_short_links.
  - intros Hh. assert (Hw : Webhook.resolveUrl client url = None)
      by (apply Hnone; auto).
    split; [exact Hw |]. intros Hs. rewrite (Hguard Hs). exact Hw.
Qed.

(** A short link whose chain never stops redirecting. *)
Lemma resolver_outcomes_witness :
  test Poller.amazonShortLinkRegex (js "https://amzn.to/x") = true
  /\ Webhook.resolveUrl looping (js "https://amzn.to/x") = None
  /\ Poller.resolveShortAmazonLink looping (js "https://amzn.to/x")
     = (None, [AxiosGet (js "https://amzn.to/x")]).
Proof.
  assert (Hs : test Poller.amazonShortLinkRegex (js "https://amzn.to/x") = true)
    by (vm_compute; reflexivity).
  destruct (resolver_outcomes looping (js "https://amzn.to/x"))
    as (_ & _ & Hp & _ & Hcap).
  assert (Hh : exists u,
             Hops looping 11 (request_url looping (js "https://amzn.to/x")) u).
  { exists (js "https://amzn.to/x").
    do 11 (eapply (Hops_next looping); [vm_compute; reflexivity |]).
    apply (Hops_here looping). }
  destruct (Hcap Hh) as [Hw _].
  split; [exact Hs |]. split; [exact Hw |].
  rewrite (Hp Hs), Hw. reflexivity.
Defined.

(** The landed URL is the client's: for a URL that is answered at once
    it is the URL of the request, which carries no fragment, and not the
    text that was sent.  So a product path in the fragment of a short
    link is not taken for the landed page. *)
Example response_url_has_no_fragment :
  Webhook.resolveUrl always_ok (js "https://example.com/ok#frag")
  = Some (js "https://example.com/ok")
  /\ Poller.onMessage always_ok registered
       (says "http://example.com/a.co/ok#amazon.com/dp/B00005N5PF")
     = (registered,
        [SendMessage 1 Poller.msg_detecting;
         AxiosGet (js "http://example.com/a.co/ok#amazon.com/dp/B00005N5PF");
         SendMessage 1 Poller.msg_not_amazon]).
Proof. split; vm_compute; reflexivity. Qed.

(** ** URLs that are neither Amazon nor short links (claim C2) *)

(** C2, as stated, against the code: the webhook has no shortener list;
    [https://example.com/x] matches none of the patterns, and the webhook
    still hands it to the resolver. *)
Lemma webhook_resolves_unknown_hosts :
  test Webhook.anyAmazonDomainRegex (js "https://example.com/x") = false
  /\ test Poller.amazonShortLinkRegex (js "https://example.com/x") = false
  /\ test Poller.amazonLongLinkRegex (js "https://example.com/x") = false
  /\ snd (Webhook.handler parse_http offline registered
            (Some (says "https://example.com/x")))
     = [SendMessage 1 Webhook.msg_detecting;
        AxiosGet (js "https://example.com/x");
        SendMessage 1 Webhook.msg_unresolved;
        Respond 200 (js "Link resolution failed")].
Proof. repeat split; vm_compute; reflexivity. Qed.

(** C2, amended.  In the poller, a message whose extracted URL matches
    neither the short-link pattern nor the product-link pattern gets the
    not-amazon reply and no request is made.  In the webhook, every
    extracted URL that does not match the Amazon-domain pattern is handed
    to the resolver; it gets the not-amazon reply when the resolver lands
    on a URL that does not match that pattern either. *)
Theorem unknown_url_handling :
  forall URL_parse client (st : BotState) (msg : Message) (m : MatchResult),
    startsWith (text msg) (js "/") = false ->
    exec urlRegex (text msg) = Some m ->
    (userId msg ∉ usersAwaitingTag st ->
     test Poller.amazonShortLinkRegex (matched m) = false ->
     test Poller.amazonLongLinkRegex (matched m) = false ->
     Poller.onMessage client st msg
     = (st, [SendMessage (chatId msg) Poller.msg_not_amazon]))
    /\ (truthy (userTags st !! userId msg) = true ->
        test Webhook.anyAmazonDomainRegex (matched m) = false ->
        (exists replies,
           snd (Webhook.handler URL_parse client st (Some msg))
           = SendMessage (chatId msg) Webhook.msg_detecting
             :: AxiosGet (matched m) :: replies)
        /\ (forall landed,
              Webhook.resolveUrl client (matched m) = Some landed ->
              landed <> [] ->
              test Webhook.anyAmazonDomainRegex landed = false ->
              Webhook.handler URL_parse client st (Some msg)
              = (st, [SendMessage (chatId msg) Webhook.msg_detecting;
                      AxiosGet (matched m);
                      SendMessage (chatId msg) Webhook.msg_not_amazon;
                      Respond 200 (js "Update processed")]))).
Proof.
  intros URL_parse client st msg m Hc Hm. split.
  - intros Ha Hs Hl. unfold Poller.onMessage.
    rewrite (bool_decide_eq_false_2 _ Ha), Hc, Hm. cbv zeta.
    rewrite Hs, Hl. reflexivity.
  - intros Ht Hz. unfold Webhook.handler.
    rewrite (not_command_not_settag _ Hc), Ht, Hc, Hm. cbv zeta.
    rewrite Hz. cbn [negb andb]. split.
    + destruct (truthy (Webhook.resolveUrl client (matched m)));
        eexists; reflexivity.
    + intros landed Hr Hne Hz'. rewrite Hr.
      destruct landed as [| c landed]; [congruence |].
      cbn [truthy interpolate]. rewrite Hz'. reflexivity.
Qed.

Lemma unknown_url_handling_witness :
  Poller.onMessage always_ok registered (says "https://example.com/x")
  = (registered, [SendMessage 1 Poller.msg_not_amazon])
  /\ Webhook.handler parse_http always_ok registered
       (Some (says "https://example.com/x"))
     = (registered, [SendMessage 1 Webhook.msg_detecting;
                     AxiosGet (js "https://example.com/x");
                     SendMessage 1 Webhook.msg_not_amazon;
                     Respond 200 (js "Update processed")]).
Proof.
  destruct (unknown_url_handling parse_http always_ok registered
              (says "https://example.com/x")
              (mkResult 0 (js "https://example.com/x")
                        [(1%nat, js "https://example.com/x")])
              eq_refl eq_refl) as [Hp Hw].
  split.
  - apply Hp; [| reflexivity | reflexivity]. vm_compute. intros H.
    discriminate H.
  - destruct (Hw eq_refl eq_refl) as [_ Hl].
    apply (Hl (js "https://example.com/x")); [reflexivity | discriminate |
                                              reflexivity].
Defined.

(** ** Messages from users without a tag (claim C1) *)

Lemma accepts_single a ch : accepts false [(a, a)] false ch = true -> ch = a.
Proof.
  rewrite accepts_nocase. unfold in_ranges, in_range. simpl.
  rewrite orb_false_r. intros H. apply andb_true_iff in H.
  destruct H as [H1 H2]. apply N.leb_le in H1, H2. lia.
Qed.

Lemma LangList_literal l : forall rs w,
  LangList false (List.map (fun a => Chr [(a, a)] false) l ++ rs) w ->
  exists w', w = l ++ w' /\ LangList false rs w'.
Proof.
  induction l as [| a l IH]; intros rs w H; simpl in H.
  - exists w. auto.
  - destruct H as (w1 & w2 & -> & (ch & -> & Hacc) & H).
    apply accepts_single in Hacc. subst ch.
    apply IH in H. destruct H as (w' & -> & H). exists w'. auto.
Qed.

Lemma url_has_colon w : Lang false (pattern urlRegex) w -> In 58 w.
Proof.
  unfold urlRegex. cbn [pattern Lang]. rewrite Lang_cat. unfold chars.
  intros H. apply LangList_literal in H. destruct H as (w1 & -> & H).
  cbn [app LangList] in H. destruct H as (wq & w2 & -> & _ & H).
  apply LangList_literal in H. destruct H as (w3 & -> & _).
  apply in_or_app. right. apply in_or_app. right. apply in_or_app. left.
  left. reflexivity.
Qed.

Lemma drop_while_keeps p c s :
  In c s -> p c = false -> In c (drop_while p s).
Proof.
  induction s as [| a s IH]; simpl; [auto |]. intros [-> | H] Hp.
  - rewrite Hp. now left.
  - destruct (p a); [auto | now right].
Qed.

Lemma trim_keeps c s : In c s -> is_space c = false -> In c (trim s).
Proof.
  intros H Hc. unfold trim, trim_end, trim_start.
  apply -> in_rev. apply drop_while_keeps; [| exact Hc].
  apply in_rev. rewrite rev_involutive. now apply drop_while_keeps.
Qed.

Lemma TagWord_chars s c :
  TagWord s -> In c s -> is_ascii_alnum c = true \/ c = 45.
Proof.
  intros (a & segs & d & -> & [_ Ha] & HF & [_ Hd]) Hin.
  apply in_app_or in Hin. destruct Hin as [Hin | Hin].
  { left. rewrite Forall_forall in Ha. apply Ha. now apply list_elem_of_In. }
  apply in_app_or in Hin. destruct Hin as [Hin | [<- | Hin]].
  - apply in_flat_map in Hin. destruct Hin as (g & Hg & [<- | Hin]); [now right |].
    left. rewrite Forall_forall in HF.
    destruct (HF g) as [_ Hga]; [now apply list_elem_of_In |].
    rewrite Forall_forall in Hga. apply Hga. now apply list_elem_of_In.
  - now right.
  - left. rewrite Forall_forall in Hd.
    assert (Hc : is_ascii_digit c = true) by (apply Hd; now apply list_elem_of_In).
    unfold is_ascii_digit in Hc. unfold is_ascii_alnum, in_ranges. simpl.
    rewrite Hc. now rewrite !orb_true_r.
Qed.

(** A text from which a URL can be extracted is never a tag, trimmed or
    not. *)
Lemma url_text_is_not_tag s m :
  exec urlRegex s = Some m -> isValidAmazonTag (trim s) = false.
Proof.
  intros E. apply exec_matched in E. destruct E as (pre & post & Es & HL).
  apply url_has_colon in HL.
  assert (Hin : In 58 (trim s)).
  { apply trim_keeps; [| reflexivity]. rewrite Es.
    apply in_or_app. right. apply in_or_app. now left. }
  destruct (isValidAmazonTag (trim s)) eqn:Ev; [| reflexivity].
  apply isValidAmazonTag_TagWord in Ev.
  destruct (TagWord_chars _ _ Ev Hin) as [H | H]; discriminate H.
Qed.

(** C1, on the code: a user without a tag sends a product link.  The
    webhook answers with its prompt for an Associate Tag.  The poller
    answers with its could-not-convert text, which asks for a valid
    product URL and does not mention a tag.  Neither sends a link. *)
Lemma poller_reply_without_tag :
  Webhook.handler parse_http offline unregistered
    (Some (says "https://www.amazon.com/dp/B00005N5PF"))
  = (unregistered, [SendMessage 1 Webhook.msg_provide_tag;
                    Respond 200 (js "Tag processed")])
  /\ includes (List.map ascii_lower Webhook.msg_provide_tag) (js "tag") = true
  /\ test Poller.amazonLongLinkRegex (js "https://www.amazon.com/dp/B00005N5PF")
     = true
  /\ Poller.onMessage offline unregistered
       (says "https://www.amazon.com/dp/B00005N5PF")
     = (unregistered, [SendMessage 1 Poller.msg_not_converted])
  /\ includes (List.map ascii_lower Poller.msg_not_converted) (js "tag") = false.
Proof. repeat split; vm_compute; reflexivity. Qed.

(** X8.  A sender without a stored tag sends a URL.  When a message that
    is not a command carries a URL and its sender has no stored tag, the
    webhook takes it for a tag candidate and answers with its prompt, and
    the poller (the sender not being in tag entry) answers a product
    link, direct or reached through a short link, with its
    could-not-convert text.  No link is sent back and nothing is
    stored. *)
Theorem reply_without_tag :
  forall URL_parse client (st : BotState) (msg : Message) (m : MatchResult),
    truthy (userTags st !! userId msg) = false ->
    startsWith (text msg) (js "/") = false ->
    exec urlRegex (text msg) = Some m ->
    Webhook.handler URL_parse client st (Some msg)
    = (st, [SendMessage (chatId msg) Webhook.msg_provide_tag;
            Respond 200 (js "Tag processed")])
    /\ (userId msg ∉ usersAwaitingTag st ->
        (test Poller.amazonShortLinkRegex (matched m) = false ->
         test Poller.amazonLongLinkRegex (matched m) = true ->
         Poller.onMessage client st msg
         = (st, [SendMessage (chatId msg) Poller.msg_not_converted]))
        /\ (forall landed,
              test Poller.amazonShortLinkRegex (matched m) = true ->
              axios_get client 10 (matched m) = Some landed ->
              landed <> [] ->
              test Poller.amazonLongLinkRegex landed = true ->
              Poller.onMessage client st msg
              = (st, [SendMessage (chatId msg) Poller.msg_detecting;
                      AxiosGet (matched m);
                      SendMessage (chatId msg) Poller.msg_not_converted]))).
Proof.
  intros URL_parse client st msg m Ht Hc Hm.
  assert (Hid : forall url, str_eqb url url = true).
  { induction url as [| c url IH]; simpl; [reflexivity |].
    now rewrite N.eqb_refl, IH. }
  split.
  - unfold Webhook.handler.
    rewrite (not_command_not_settag _ Hc), Ht, Hc.
    rewrite (url_text_is_not_tag _ _ Hm). cbn [negb andb].
    rewrite andb_false_r. reflexivity.
  - intros Ha. split.
    + intros Hs Hl. unfold Poller.onMessage.
      rewrite (bool_decide_eq_false_2 _ Ha), Hc, Hm. cbv zeta.
      rewrite Hs, Hl. unfold Poller.convert_and_reply.
      unfold Poller.convertToAffiliateLink. rewrite Ht. cbn [negb].
      rewrite Hid. reflexivity.
    + intros landed Hs Hr Hne Hl. unfold Poller.onMessage.
      rewrite (bool_decide_eq_false_2 _ Ha), Hc, Hm. cbv zeta.
      unfold Poller.resolveShortAmazonLink. rewrite Hs, Hr.
      change (test Poller.shortLinkRegex (matched m))
        with (test Poller.amazonShortLinkRegex (matched m)).
      rewrite Hs. cbn [negb].
      destruct landed as [| c landed]; [congruence |].
      cbn [truthy interpolate]. rewrite Hl.
      unfold Poller.convert_and_reply.
      unfold Poller.convertToAffiliateLink. rewrite Ht. cbn [negb].
      rewrite Hid. reflexivity.
Qed.

Lemma reply_without_tag_witness :
  Webhook.handler parse_http offline unregistered
    (Some (says "https://www.amazon.com/dp/B00005N5PF"))
  = (unregistered, [SendMessage 1 Webhook.msg_provide_tag;
                    Respond 200 (js "Tag processed")])
  /\ Poller.onMessage offline unregistered
       (says "https://www.amazon.com/dp/B00005N5PF")
     = (unregistered, [SendMessage 1 Poller.msg_not_converted]).
Proof.
  destruct (reply_without_tag parse_http offline unregistered
              (says "https://www.amazon.com/dp/B00005N5PF")
              (mkResult 0 (js "https://www.amazon.com/dp/B00005N5PF")
                        [(1%nat, js "https://www.amazon.com/dp/B00005N5PF")])
              eq_refl eq_refl eq_refl) as [Hw Hp].
  split; [exact Hw |].
  apply Hp; [| reflexivity | reflexivity]. vm_compute. intros H.
  discriminate H.
Defined.

(** ** Query surgery (claims C3, C4, C9) *)

Lemma str_eqb_eq a : forall b, str_eqb a b = true <-> a = b.
Proof.
  induction a as [| x a IH]; intros [| y b]; simpl; try (split; congruence).
  rewrite andb_true_iff, IH, N.eqb_eq. split.
  - intros [-> ->]. reflexivity.
  - intros [= -> ->]. auto.
Qed.

Lemma str_eqb_refl a : str_eqb a a = true.
Proof. now apply str_eqb_eq. Qed.

Lemma filter_twice {A} (f g : A -> bool) l :
  List.filter f (List.filter g l) = List.filter (fun x => g x && f x) l.
Proof.
  induction l as [| x l IH]; simpl; [reflexivity |].
  destruct (g x); simpl; [destruct (f x) |]; now rewrite IH.
Qed.

Lemma deletes_strip (l : URLSearchParams.t) :
  URLSearchParams.delete (js "ref_")
    (URLSearchParams.delete (js "creativeASIN")
       (URLSearchParams.delete (js "ascsubtag")
          (URLSearchParams.delete (js "linkCode")
             (URLSearchParams.delete (js "tag") l))))
  = strip_affiliate l.
Proof.
  unfold URLSearchParams.delete, strip_affiliate. rewrite !filter_twice.
  apply List.filter_ext. intros p. unfold affiliate_params.
  cbn [existsb].
  destruct (str_eqb (fst p) (js "tag")), (str_eqb (fst p) (js "linkCode")),
    (str_eqb (fst p) (js "ascsubtag")), (str_eqb (fst p) (js "creativeASIN")),
    (str_eqb (fst p) (js "ref_")); reflexivity.
Qed.

Lemma strip_has_no name (l : URLSearchParams.t) :
  In name affiliate_params ->
  existsb (fun p => str_eqb (fst p) name) (strip_affiliate l) = false.
Proof.
  intros Hin. unfold strip_affiliate.
  induction l as [| p l IH]; cbn [List.filter]; [reflexivity |].
  destruct (existsb (str_eqb (fst p)) affiliate_params) eqn:E;
    cbn [negb existsb]; [exact IH |].
  rewrite IH, orb_false_r.
  destruct (str_eqb (fst p) name) eqn:En; [| reflexivity].
  assert (Hex : existsb (str_eqb (fst p)) affiliate_params = true).
  { apply existsb_exists. exists name. auto. }
  congruence.
Qed.

Lemma set_tag_after_strip (l : URLSearchParams.t) (v : jsstring) :
  URLSearchParams.set (js "tag") v (strip_affiliate l)
  = strip_affiliate l ++ [(js "tag", usv v)].
Proof.
  unfold URLSearchParams.set.
  change (of_scalar_values (to_scalar_values (js "tag"))) with (js "tag").
  rewrite strip_has_no; [reflexivity |]. left. reflexivity.
Qed.

Lemma tag_values_after_strip (l : URLSearchParams.t) (v : jsstring) :
  tag_values (strip_affiliate l ++ [(js "tag", v)]) = [v].
Proof.
  unfold tag_values. rewrite List.filter_app, List.map_app.
  assert (H : List.filter (fun p => str_eqb (fst p) (js "tag"))
                (strip_affiliate l) = []).
  { pose proof (strip_has_no (js "tag") l (or_introl eq_refl)) as Hn.
    induction (strip_affiliate l) as [| p s IH]; [reflexivity |].
    simpl in *. apply orb_false_iff in Hn. destruct Hn as [Hp Hs].
    rewrite Hp. now apply IH. }
  rewrite H. reflexivity.
Qed.

Ltac decide_tests :=
  repeat match goal with
         | |- context [N.leb ?a ?b] => destruct (N.leb_spec a b); try lia
         | |- context [N.ltb ?a ?b] => destruct (N.ltb_spec a b); try lia
         | |- context [N.eqb ?a ?b] => destruct (N.eqb_spec a b); try lia
         end.

Lemma check_below (P : N -> bool) (n : nat) :
  forallb P (List.map N.of_nat (seq 0 n)) = true ->
  forall c, c < N.of_nat n -> P c = true.
Proof.
  intros H c Hc. rewrite forallb_forall in H. apply H.
  apply in_map_iff. exists (N.to_nat c). split; [apply N2Nat.id |].
  apply in_seq. lia.
Qed.

Lemma urlencoded_char_below c : urlencoded_char c = true -> c < 128.
Proof.
  intros H. destruct (N.ltb_spec c 128) as [Hc | Hc]; [exact Hc |].
  exfalso. revert H.
  unfold urlencoded_char, urlencoded_atom, urlencoded_safe, is_ascii_alnum,
    in_ranges, in_range. cbn [existsb fst snd].
  decide_tests; discriminate.
Qed.

Lemma urlencoded_char_plain c :
  urlencoded_char c = true ->
  c < 128 /\ (c =? 63) = false /\ is_tab_or_newline c = false
  /\ query_set c = false /\ special_query_set c = false
  /\ is_lead_surrogate c = false /\ is_trail_surrogate c = false.
Proof.
  intros H. pose proof (urlencoded_char_below c H) as Hb.
  pose proof (check_below
    (fun c => implb (urlencoded_char c)
                (negb (c =? 63) && negb (is_tab_or_newline c)
                 && negb (query_set c) && negb (special_query_set c)
                 && negb (is_lead_surrogate c) && negb (is_trail_surrogate c)))
    128 eq_refl c Hb) as Hk.
  cbv beta in Hk. rewrite H in Hk. simpl in Hk.
  repeat (apply andb_true_iff in Hk; destruct Hk as [Hk ?]).
  repeat match goal with
         | X : negb _ = true |- _ => apply negb_true_iff in X
         end.
  auto 10.
Qed.

Lemma hex_digit_atom n : urlencoded_atom (hex_digit n) = true.
Proof.
  unfold hex_digit. cbv zeta.
  assert (Hb : n mod 16 < N.of_nat 16) by (apply N.mod_lt; discriminate).
  exact (check_below
           (fun k => urlencoded_atom (if k <? 10 then 48 + k else 55 + k))
           16 eq_refl (n mod 16) Hb).
Qed.

Lemma urlencoded_string_atoms s :
  Forall (fun c => urlencoded_atom c = true) (urlencoded_string s).
Proof.
  unfold urlencoded_string. induction (utf8_encode s) as [| b bs IH];
    cbn [flat_map]; [constructor |].
  apply Forall_app. split; [| exact IH].
  unfold urlencoded_byte. destruct (b =? 32); [repeat constructor |].
  destruct (urlencoded_safe b) eqn:E.
  - constructor; [| constructor]. unfold urlencoded_atom. now rewrite E.
  - unfold percent_encode_byte. repeat constructor; apply hex_digit_atom.
Qed.

Lemma urlencoded_string_chars s :
  Forall (fun c => urlencoded_char c = true) (urlencoded_string s).
Proof.
  eapply Forall_impl; [apply urlencoded_string_atoms |]. intros c Hc.
  cbv beta in *. unfold urlencoded_char. now rewrite Hc.
Qed.

Lemma urlencoded_serialize_chars l :
  Forall (fun c => urlencoded_char c = true) (urlencoded_serialize l).
Proof.
  unfold urlencoded_serialize. induction l as [| p l IH]; [constructor |].
  assert (Hp : Forall (fun c => urlencoded_char c = true)
                 (urlencoded_string (fst p) ++ [61] ++ urlencoded_string (snd p))).
  { apply Forall_app. split; [apply urlencoded_string_chars |].
    apply Forall_app. split; [repeat constructor |].
    apply urlencoded_string_chars. }
  destruct l as [| p' l]; [exact Hp |].
  change (Forall (fun c => urlencoded_char c = true)
            ((urlencoded_string (fst p) ++ [61] ++ urlencoded_string (snd p))
             ++ [38] ++ join [38] (List.map (fun p => urlencoded_string (fst p)
                  ++ [61] ++ urlencoded_string (snd p)) (p' :: l)))).
  apply Forall_app. split; [exact Hp |].
  apply Forall_app. split; [repeat constructor | exact IH].
Qed.

Lemma urlencoded_serialize_nonempty l :
  l <> [] -> urlencoded_serialize l <> [].
Proof.
  destruct l as [| p l]; [congruence |]. intros _.
  unfold urlencoded_serialize. simpl.
  destruct (List.map _ l); intros H; apply app_eq_nil in H;
    destruct H as [_ H]; discriminate H.
Qed.

Lemma plain_to_scalar_values s :
  Forall (fun c => is_lead_surrogate c = false /\ is_trail_surrogate c = false) s ->
  to_scalar_values s = s.
Proof.
  induction 1 as [| c s [H1 H2] _ IH]; simpl; [reflexivity |].
  now rewrite H1, H2, IH.
Qed.

Lemma ascii_utf8_encode s :
  Forall (fun c => c < 128) s -> utf8_encode s = s.
Proof.
  intros H. unfold utf8_encode. rewrite plain_to_scalar_values.
  - induction H as [| c s Hc _ IH]; cbn [flat_map]; [reflexivity |].
    rewrite IH. unfold utf8_encode_cp. apply N.ltb_lt in Hc.
    now rewrite Hc.
  - eapply Forall_impl; [exact H |]. intros c Hc. cbv beta in Hc.
    unfold is_lead_surrogate, is_trail_surrogate, in_range. split.
    + apply andb_false_iff. left. apply N.leb_gt. lia.
    + apply andb_false_iff. left. apply N.leb_gt. lia.
Qed.

Lemma filter_all {A} (f : A -> bool) l :
  Forall (fun x => f x = true) l -> List.filter f l = l.
Proof.
  induction 1 as [| x l Hx _ IH]; simpl; [reflexivity |].
  now rewrite Hx, IH.
Qed.

Lemma percent_encode_none (set : N -> bool) l :
  Forall (fun b => set b = false) l -> percent_encode_with set l = l.
Proof.
  unfold percent_encode_with.
  induction 1 as [| x l Hx _ IH]; simpl; [reflexivity |].
  now rewrite Hx, IH.
Qed.

(** Assigning a serialised parameter list to [search] stores it as the
    query, character for character. *)
Lemma set_search_serialized u l :
  l <> [] ->
  set_search u (URLSearchParams.toString l)
  = with_query u (Some (URLSearchParams.toString l)).
Proof.
  intros Hne. unfold URLSearchParams.toString.
  pose proof (urlencoded_serialize_nonempty l Hne) as Hq.
  pose proof (urlencoded_serialize_chars l) as Hc.
  destruct (urlencoded_serialize l) as [| c q] eqn:E; [congruence |].
  unfold set_search, with_query.
  assert (Hin : drop_question_mark (c :: q) = c :: q).
  { inversion Hc as [| ? ? H1 _]; subst.
    apply urlencoded_char_plain in H1. destruct H1 as (_ & H63 & _).
    unfold drop_question_mark. now rewrite H63. }
  rewrite Hin.
  rewrite filter_all.
  2:{ eapply Forall_impl; [exact Hc |]. intros x Hx. cbv beta in Hx.
      apply urlencoded_char_plain in Hx. destruct Hx as (_ & _ & Ht & _).
      now rewrite Ht. }
  rewrite ascii_utf8_encode.
  2:{ eapply Forall_impl; [exact Hc |]. intros x Hx. cbv beta in Hx.
      now apply urlencoded_char_plain in Hx. }
  rewrite percent_encode_none; [reflexivity |].
  eapply Forall_impl; [exact Hc |]. intros x Hx. cbv beta in Hx.
  apply urlencoded_char_plain in Hx.
  destruct Hx as (_ & _ & _ & Hs1 & Hs2 & _).
  destruct (is_special u); assumption.
Qed.

Section WebhookRewrite.

Variable URL_parse : jsstring -> option URL.

(** What the webhook's rewrite amounts to on a URL the platform parses. *)
Lemma webhook_rewrite_parsed url u tag :
  URL_parse url = Some u -> tag <> [] ->
  Webhook.convertToAffiliateLink URL_parse url (Some tag)
  = href (with_query u
            (Some (URLSearchParams.toString
                     (strip_affiliate (URLSearchParams.new (search u))
                      ++ [(js "tag", usv tag)])))).
Proof.
  intros Hp Ht. unfold Webhook.convertToAffiliateLink.
  destruct tag as [| c tag]; [congruence |]. cbn [truthy negb interpolate].
  rewrite Hp, deletes_strip, set_tag_after_strip.
  rewrite set_search_serialized; [reflexivity |].
  intros H. apply app_eq_nil in H. destruct H as [_ H]. discriminate H.
Qed.

Lemma webhook_rewrite_unparsed url tag :
  URL_parse url = None ->
  Webhook.convertToAffiliateLink URL_parse url tag = url.
Proof.
  intros Hp. unfold Webhook.convertToAffiliateLink.
  destruct (negb (truthy tag)); [reflexivity |]. now rewrite Hp.
Qed.

End WebhookRewrite.

(** ** UTF-8 and percent-encoding round trips *)

Ltac Zify.zify_post_hook ::= Z.to_euclidean_division_equations.

Lemma in_range_spec lo hi c : in_range lo hi c = true <-> lo <= c <= hi.
Proof.
  unfold in_range. rewrite andb_true_iff, !N.leb_le. reflexivity.
Qed.

Lemma in_range_false lo hi c : in_range lo hi c = false <-> ~ lo <= c <= hi.
Proof.
  rewrite <- in_range_spec. destruct (in_range lo hi c); split; congruence.
Qed.

Lemma is_scalar_value_spec cp :
  is_scalar_value cp = true <-> cp < 1114112 /\ ~ 55296 <= cp <= 57343.
Proof.
  unfold is_scalar_value, in_range. split.
  - intros H. apply andb_true_iff in H. destruct H as [H1 H2].
    apply N.ltb_lt in H1. apply negb_true_iff, andb_false_iff in H2.
    split; [exact H1 |]. destruct H2 as [H2 | H2]; apply N.leb_gt in H2; lia.
  - intros [H1 H2]. decide_tests; reflexivity.
Qed.

(** The base-64 digits of a code point, as the encoder cuts them. *)
Lemma utf8_digits cp :
  cp = ((cp / 262144 * 64 + (cp / 4096) mod 64) * 64 + (cp / 64) mod 64) * 64
       + cp mod 64
  /\ cp / 64 = (cp / 4096) * 64 + (cp / 64) mod 64
  /\ cp / 4096 = (cp / 262144) * 64 + (cp / 4096) mod 64
  /\ cp = cp / 64 * 64 + cp mod 64
  /\ (cp / 4096) mod 64 < 64 /\ (cp / 64) mod 64 < 64 /\ cp mod 64 < 64.
Proof. repeat split; lia. Qed.

Lemma scalar_to_of cps :
  Forall (fun cp => is_scalar_value cp = true) cps ->
  to_scalar_values (of_scalar_values cps) = cps.
Proof.
  induction 1 as [| cp cps Hcp _ IH]; [reflexivity |].
  apply is_scalar_value_spec in Hcp. destruct Hcp as [H1 H2].
  unfold of_scalar_values in *. cbn [flat_map].
  destruct (N.ltb_spec cp 65536) as [Hs | Hs].
  - replace (code_units_of cp) with [cp]
      by (unfold code_units_of; apply N.ltb_lt in Hs; now rewrite Hs).
    cbn [app to_scalar_values].
    replace (is_lead_surrogate cp) with false
      by (symmetry; apply in_range_false; lia).
    replace (is_trail_surrogate cp) with false
      by (symmetry; apply in_range_false; lia).
    now rewrite IH.
  - replace (code_units_of cp)
      with [55296 + (cp - 65536) / 1024; 56320 + (cp - 65536) mod 1024]
      by (unfold code_units_of; apply N.ltb_ge in Hs; now rewrite Hs).
    cbn [app to_scalar_values].
    replace (is_lead_surrogate (55296 + (cp - 65536) / 1024)) with true
      by (symmetry; apply in_range_spec; lia).
    replace (is_trail_surrogate (56320 + (cp - 65536) mod 1024)) with true
      by (symmetry; apply in_range_spec; lia).
    rewrite IH. f_equal. lia.
Qed.

Lemma utf8_encode_cp_bytes cp :
  is_scalar_value cp = true -> Forall (fun b => b < 256) (utf8_encode_cp cp).
Proof.
  intros H. apply is_scalar_value_spec in H. destruct H as [H1 H2].
  unfold utf8_encode_cp.
  destruct (N.ltb_spec cp 128); [repeat constructor; lia |].
  destruct (N.ltb_spec cp 2048); [repeat constructor; lia |].
  destruct (N.ltb_spec cp 65536); repeat constructor; lia.
Qed.

Ltac Zify.zify_post_hook ::= idtac.

Ltac settle_tests :=
  repeat match goal with
         | |- context [N.leb ?a ?b] =>
             first [ replace (N.leb a b) with true
                       by (symmetry; apply N.leb_le; lia)
                   | replace (N.leb a b) with false
                       by (symmetry; apply N.leb_gt; lia) ]
         | |- context [N.ltb ?a ?b] =>
             first [ replace (N.ltb a b) with true
                       by (symmetry; apply N.ltb_lt; lia)
                   | replace (N.ltb a b) with false
                       by (symmetry; apply N.ltb_ge; lia) ]
         | |- context [N.eqb ?a ?b] =>
             first [ replace (N.eqb a b) with true
                       by (symmetry; apply N.eqb_eq; lia)
                   | replace (N.eqb a b) with false
                       by (symmetry; apply N.eqb_neq; lia) ]
         end.

Ltac decode_step :=
  cbn [app utf8_decode_from u_lower u_upper u_cp u_needed];
  unfold utf8_lead, in_range; settle_tests;
  cbn [andb app u_lower u_upper u_cp u_needed].

Lemma utf8_decode_encode_cp cp bs :
  is_scalar_value cp = true ->
  utf8_decode_from None (utf8_encode_cp cp ++ bs)
  = cp :: utf8_decode_from None bs.
Proof.
  intros H. apply is_scalar_value_spec in H. destruct H as [H1 H2].
  unfold utf8_encode_cp.
  destruct (utf8_digits cp) as (E4 & E3 & E2 & E1 & Hb & Hc & Hd).
  revert E4 E3 E2 E1 Hb Hc Hd.
  generalize (cp mod 64) ((cp / 64) mod 64) ((cp / 4096) mod 64).
  generalize (cp / 262144) (cp / 4096) (cp / 64).
  intros q3 q2 q1 d3 d2 d1 E4 E3 E2 E1 Hb Hc Hd.
  destruct (N.ltb_spec cp 128) as [Ha | Ha].
  { decode_step. reflexivity. }
  destruct (N.ltb_spec cp 2048) as [Hb' | Hb'].
  { decode_step. decode_step. f_equal. lia. }
  destruct (N.ltb_spec cp 65536) as [Hc' | Hc'].
  { destruct (N.ltb_spec cp 4096), (N.ltb_spec cp 53248),
      (N.ltb_spec cp 57344); try lia;
      (decode_step; decode_step; decode_step; f_equal; lia). }
  destruct (N.ltb_spec cp 262144), (N.ltb_spec cp 1048576); try lia;
    (decode_step; decode_step; decode_step; decode_step; f_equal; lia).
Qed.

Lemma utf8_lead_ok b :
  Forall (fun cp => is_scalar_value cp = true) (fst (utf8_lead b))
  /\ utf8_state_ok (snd (utf8_lead b)).
Proof.
  unfold utf8_lead.
  destruct (N.leb_spec b 127) as [E1 | E1].
  { split; [| exact I]. repeat constructor. apply is_scalar_value_spec. lia. }
  destruct (in_range 194 223 b) eqn:E2.
  { apply in_range_spec in E2. split; [constructor |]. cbn. lia. }
  destruct (in_range 224 239 b) eqn:E3.
  { apply in_range_spec in E3. split; [constructor |]. cbn. left.
    split; [lia |]. split; decide_tests; reflexivity. }
  destruct (in_range 240 244 b) eqn:E4.
  { apply in_range_spec in E4. split; [constructor |]. cbn.
    split; [lia |]. split; decide_tests; reflexivity. }
  split; [| exact I]. repeat constructor.
Qed.

Lemma utf8_decode_scalar bs : forall st,
  utf8_state_ok st ->
  Forall (fun cp => is_scalar_value cp = true) (utf8_decode_from st bs).
Proof.
  induction bs as [| b bs IH]; intros st Hok.
  - destruct st; repeat constructor.
  - cbn [utf8_decode_from].
    assert (Hlead : Forall (fun cp => is_scalar_value cp = true)
                      (let (out, st') := utf8_lead b in
                       out ++ utf8_decode_from st' bs)).
    { pose proof (utf8_lead_ok b) as [Ho Hs].
      destruct (utf8_lead b) as [out st']. apply Forall_app. split;
        [exact Ho | apply IH; exact Hs]. }
    destruct st as [u |]; [| exact Hlead].
    destruct (in_range (u_lower u) (u_upper u) b) eqn:Er.
    + apply in_range_spec in Er. destruct Er as [Hlo Hhi].
      destruct u as [cp needed lo hi]. cbn [u_cp u_needed u_lower u_upper] in *.
      destruct needed as [| [| [| [| n]]]]; cbn in Hok; try contradiction.
      * destruct Hok as (-> & -> & Hcp). constructor; [| apply IH; exact I].
        apply is_scalar_value_spec. lia.
      * apply IH. cbn.
        destruct Hok as [(Hcp & -> & ->) | (Hcp & -> & ->)].
        -- split; [reflexivity |]. split; [reflexivity |]. right. left.
           revert Hlo Hhi. decide_tests; lia.
        -- split; [reflexivity |]. split; [reflexivity |]. right. right. lia.
      * apply IH. cbn. destruct Hok as (Hcp & -> & ->). right.
        split; [| auto]. revert Hlo Hhi. decide_tests; lia.
    + destruct (utf8_lead b) as [out st'] eqn:El. constructor;
        [reflexivity |]. exact Hlead.
Qed.

Lemma plus_to_space_app a b :
  plus_to_space (a ++ b) = plus_to_space a ++ plus_to_space b.
Proof. apply List.map_app. Qed.

Lemma percent_decode_byte b bs :
  b < 256 ->
  percent_decode (plus_to_space (urlencoded_byte b) ++ bs)
  = b :: percent_decode bs.
Proof.
  intros Hb.
  pose proof (check_below
    (fun b => match plus_to_space (urlencoded_byte b) with
              | [c] => negb (c =? 37) && (c =? b)
              | [p; h; l] =>
                  (p =? 37)
                  && match hex_value h, hex_value l with
                     | Some hv, Some lv => hv * 16 + lv =? b
                     | _, _ => false
                     end
              | _ => false
              end) 256 eq_refl b Hb) as Hk.
  cbv beta in Hk.
  destruct (plus_to_space (urlencoded_byte b)) as [| c [| h [| l [| x r]]]];
    try discriminate Hk.
  - apply andb_true_iff in Hk. destruct Hk as [H1 H2].
    apply negb_true_iff in H1. apply N.eqb_eq in H2. subst c.
    cbn [app percent_decode]. now rewrite H1.
  - apply andb_true_iff in Hk. destruct Hk as [H1 H2].
    apply N.eqb_eq in H1. subst c. cbn [app percent_decode].
    rewrite N.eqb_refl.
    destruct (hex_value h) as [hv |]; [| discriminate].
    destruct (hex_value l) as [lv |]; [| discriminate].
    apply N.eqb_eq in H2. now rewrite H2.
Qed.

Lemma percent_decode_encoded bs :
  Forall (fun b => b < 256) bs ->
  percent_decode (plus_to_space (flat_map urlencoded_byte bs)) = bs.
Proof.
  induction 1 as [| b bs Hb _ IH]; [reflexivity |].
  cbn [flat_map]. rewrite plus_to_space_app, percent_decode_byte by exact Hb.
  now rewrite IH.
Qed.

Lemma utf8_decode_encoded cps :
  Forall (fun cp => is_scalar_value cp = true) cps ->
  utf8_decode_from None (flat_map utf8_encode_cp cps) = cps.
Proof.
  induction 1 as [| cp cps Hcp _ IH]; [reflexivity |].
  cbn [flat_map]. rewrite utf8_decode_encode_cp by exact Hcp.
  now rewrite IH.
Qed.

Lemma urlencoded_decode_encode s :
  scalar_string s -> urlencoded_decode (urlencoded_string s) = s.
Proof.
  intros (cps & Hc & ->). unfold urlencoded_decode, urlencoded_string,
    utf8_encode, utf8_decode.
  rewrite scalar_to_of by exact Hc.
  rewrite percent_decode_encoded.
  - now rewrite utf8_decode_encoded.
  - induction Hc as [| cp cps Hcp _ IH]; [constructor |].
    cbn [flat_map]. apply Forall_app. split;
      [now apply utf8_encode_cp_bytes | exact IH].
Qed.

Lemma urlencoded_decode_scalar bs : scalar_string (urlencoded_decode bs).
Proof.
  unfold urlencoded_decode, utf8_decode. eexists. split; [| reflexivity].
  apply utf8_decode_scalar. exact I.
Qed.

Lemma atom_not c sep :
  urlencoded_atom sep = false -> urlencoded_atom c = true -> c <> sep.
Proof. intros H1 H2 ->. congruence. Qed.

Lemma split_first_at sep n v :
  Forall (fun c => c <> sep) n ->
  split_first sep (n ++ sep :: v) = (n, v).
Proof.
  induction 1 as [| c n Hc _ IH]; cbn [app split_first].
  - now rewrite N.eqb_refl.
  - destruct (N.eqb_spec c sep); [contradiction |]. now rewrite IH.
Qed.

Lemma split_on_join sep xs :
  xs <> [] -> Forall (Forall (fun c => c <> sep)) xs ->
  split_on sep (join [sep] xs) = xs.
Proof.
  intros Hne H. induction H as [| x xs Hx Hxs IH]; [congruence |].
  destruct xs as [| y xs].
  - cbn [join]. now apply split_on_clean.
  - change (join [sep] (x :: y :: xs)) with (x ++ sep :: join [sep] (y :: xs)).
    rewrite split_on_cons by exact Hx. f_equal. apply IH. discriminate.
Qed.

Lemma urlencoded_parse_serialize l :
  Forall (fun p => scalar_string (fst p) /\ scalar_string (snd p)) l ->
  urlencoded_parse (urlencoded_serialize l) = l.
Proof.
  intros Hl. unfold urlencoded_parse, urlencoded_serialize.
  destruct l as [| p0 l0]; [reflexivity |].
  remember (p0 :: l0) as l eqn:El.
  assert (Hne : l <> []) by (subst; discriminate). clear El p0 l0.
  rewrite split_on_join.
  - rewrite filter_all.
    + rewrite List.map_map. rewrite <- (List.map_id l) at 2.
      apply List.map_ext_in. intros [n v] Hin. cbn [fst snd app].
      rewrite split_first_at.
      * rewrite Forall_forall in Hl.
        destruct (Hl (n, v)) as [Hn Hv]; [now apply list_elem_of_In |].
        cbn [fst snd] in *.
        now rewrite !urlencoded_decode_encode.
      * eapply Forall_impl; [apply urlencoded_string_atoms |].
        intros c. apply atom_not. reflexivity.
    + apply Forall_forall. intros x Hx. apply list_elem_of_In in Hx.
      apply in_map_iff in Hx. destruct Hx as (p & <- & _).
      destruct (urlencoded_string (fst p)); reflexivity.
  - destruct l; [congruence | discriminate].
  - apply Forall_forall. intros x Hx. apply list_elem_of_In in Hx.
    apply in_map_iff in Hx. destruct Hx as (p & <- & _). cbn [app].
    apply Forall_app. split; [| apply Forall_cons; split].
    + eapply Forall_impl; [apply urlencoded_string_atoms |].
      intros c. apply atom_not. reflexivity.
    + discriminate.
    + eapply Forall_impl; [apply urlencoded_string_atoms |].
      intros c. apply atom_not. reflexivity.
Qed.

Lemma urlencoded_parse_scalar input :
  Forall (fun p => scalar_string (fst p) /\ scalar_string (snd p))
         (urlencoded_parse input).
Proof.
  unfold urlencoded_parse. apply Forall_forall. intros p Hp.
  apply list_elem_of_In, in_map_iff in Hp. destruct Hp as (seq & <- & _).
  destruct (split_first 61 seq) as [n v]. split; apply urlencoded_decode_scalar.
Qed.

Lemma to_scalar_values_scalar s :
  js_string s ->
  Forall (fun cp => is_scalar_value cp = true) (to_scalar_values s).
Proof.
  unfold js_string.
  assert (H : forall n s, (length s <= n)%nat -> Forall (fun c => c < 65536) s ->
              Forall (fun cp => is_scalar_value cp = true) (to_scalar_values s)).
  { induction n as [| n IH]; intros s0 Hn Hs.
    - destruct s0; [constructor | simpl in Hn; lia].
    - destruct s0 as [| c s0]; [constructor |].
      inversion Hs as [| ? ? Hc Hs0]; subst. cbn [to_scalar_values].
      assert (Hrep : is_scalar_value 65533 = true) by reflexivity.
      destruct (is_lead_surrogate c) eqn:El.
      + destruct s0 as [| d s0]; [repeat constructor |].
        inversion Hs0 as [| ? ? Hd Hs1]; subst.
        destruct (is_trail_surrogate d) eqn:Et.
        * constructor.
          -- apply in_range_spec in El, Et. apply is_scalar_value_spec.
             clear - El Et. destruct El, Et. split; [lia |]. intros [? ?]; lia.
          -- apply IH; [simpl in *; lia | exact Hs1].
        * constructor; [exact Hrep |]. apply IH; [simpl in *; lia | exact Hs0].
      + destruct (is_trail_surrogate c) eqn:Et.
        * constructor; [exact Hrep |]. apply IH; [simpl in *; lia | exact Hs0].
        * constructor.
          -- apply in_range_false in El, Et. apply is_scalar_value_spec. lia.
          -- apply IH; [simpl in *; lia | exact Hs0]. }
  intros Hs. apply (H (length s) s); [lia | exact Hs].
Qed.

Lemma usv_scalar s : js_string s -> scalar_string (usv s).
Proof.
  intros H. exists (to_scalar_values s). split; [| reflexivity].
  now apply to_scalar_values_scalar.
Qed.

Lemma strip_scalar l :
  Forall (fun p => scalar_string (fst p) /\ scalar_string (snd p)) l ->
  Forall (fun p => scalar_string (fst p) /\ scalar_string (snd p))
         (strip_affiliate l).
Proof.
  intros H. unfold strip_affiliate. apply Forall_forall. intros p Hp.
  apply list_elem_of_In, filter_In in Hp. destruct Hp as [Hp _].
  rewrite Forall_forall in H. apply H. now apply list_elem_of_In.
Qed.

Lemma new_scalar init :
  Forall (fun p => scalar_string (fst p) /\ scalar_string (snd p))
         (URLSearchParams.new init).
Proof. apply urlencoded_parse_scalar. Qed.

Lemma tag_name_scalar : scalar_string (js "tag").
Proof. exists (js "tag"). split; [repeat constructor | reflexivity]. Qed.

(** The query the rewrite stores reads back as the parameters it was
    made from. *)
Lemma new_of_serialized u l :
  l <> [] ->
  Forall (fun p => scalar_string (fst p) /\ scalar_string (snd p)) l ->
  URLSearchParams.new (search (with_query u (Some (URLSearchParams.toString l))))
  = l.
Proof.
  intros Hne Hl. unfold URLSearchParams.toString, URLSearchParams.new.
  pose proof (urlencoded_serialize_nonempty l Hne) as Hq.
  pose proof (urlencoded_serialize_chars l) as Hc.
  rewrite <- (urlencoded_parse_serialize l Hl) at 2.
  destruct (urlencoded_serialize l) as [| c q] eqn:E; [congruence |].
  unfold search, with_query. cbn [query]. change (js "?" ++ c :: q) with (63 :: c :: q).
  cbn [drop_question_mark]. rewrite N.eqb_refl.
  rewrite ascii_utf8_encode; [reflexivity |].
  eapply Forall_impl; [exact Hc |]. intros x Hx. cbv beta in Hx.
  now apply urlencoded_char_plain in Hx.
Qed.

Lemma strip_idempotent l : strip_affiliate (strip_affiliate l) = strip_affiliate l.
Proof.
  unfold strip_affiliate. rewrite filter_twice. apply List.filter_ext.
  intros p. now rewrite andb_diag.
Qed.

Lemma strip_app_tag l v :
  strip_affiliate (l ++ [(js "tag", v)]) = strip_affiliate l.
Proof.
  unfold strip_affiliate. rewrite List.filter_app. cbn [List.filter].
  change (negb (existsb (str_eqb (fst (js "tag", v))) affiliate_params)) with false.
  cbv iota. apply app_nil_r.
Qed.

Section WebhookIdempotence.

Variable URL_parse : jsstring -> option URL.

Lemma webhook_rewrite_twice url u tagA tagB :
  URL_parse url = Some u -> tagA <> [] -> tagB <> [] -> js_string tagA ->
  URL_parse (Webhook.convertToAffiliateLink URL_parse url (Some tagA))
  = Some (with_query u
            (Some (URLSearchParams.toString
                     (strip_affiliate (URLSearchParams.new (search u))
                      ++ [(js "tag", usv tagA)])))) ->
  Webhook.convertToAffiliateLink URL_parse
    (Webhook.convertToAffiliateLink URL_parse url (Some tagA)) (Some tagB)
  = Webhook.convertToAffiliateLink URL_parse url (Some tagB).
Proof.
  intros Hu HA HB HjA Hre.
  rewrite (webhook_rewrite_parsed URL_parse _ _ tagB Hre HB).
  rewrite (webhook_rewrite_parsed URL_parse url u tagB Hu HB).
  rewrite new_of_serialized.
  - rewrite strip_app_tag, strip_idempotent. reflexivity.
  - intros H. apply app_eq_nil in H. destruct H as [_ H]. discriminate H.
  - apply Forall_app. split; [apply strip_scalar, new_scalar |].
    constructor; [| constructor]. split; [apply tag_name_scalar |].
    now apply usv_scalar.
Qed.

End WebhookIdempotence.

(** ** The poller's pattern and its captures *)

Section Captures.

Variable ic : bool.

Lemma clear_no_captures x : clear_captures [] x = x.
Proof.
  destruct x as [e r c]. unfold clear_captures. cbn. f_equal.
  induction c as [| p c IH]; [reflexivity |]. cbn. now rewrite IH.
Qed.

Lemma Matches_captures_nogroup r : group_numbers r = [] ->
  forall x y, Matches ic r x y -> captures y = captures x.
Proof.
  induction r as [| A inv | | r1 IH1 r2 IH2 | r1 IH1 r2 IH2 | r IH min max
                  | n r IH | |]; cbn [Matches group_numbers]; intros Hg x y H.
  - now subst.
  - destruct H as (ch & s & _ & _ & ->). reflexivity.
  - destruct H as (ch & s & _ & _ & ->). reflexivity.
  - apply app_eq_nil in Hg. destruct Hg as [Hg1 Hg2].
    destruct H as (m & H1 & H2).
    rewrite (IH2 Hg2 _ _ H2). now apply IH1.
  - apply app_eq_nil in Hg. destruct Hg as [Hg1 Hg2].
    destruct H as [H | H]; auto.
  - rewrite Hg in H.
    induction H as [min max x Hst | min max x y z Hmax Hxy Hprog Hrep IHrep].
    + reflexivity.
    + rewrite IHrep. rewrite (IH Hg _ _ Hxy). now rewrite clear_no_captures.
  - discriminate.
  - now destruct H as [_ ->].
  - now destruct H as [_ ->].
Qed.

Lemma Matches_Group_inv n r x y :
  Matches ic (Group n r) x y ->
  exists m w, Matches ic r x m /\ consumes x m w /\ Lang ic r w
              /\ y = set_capture n w m.
Proof.
  cbn [Matches]. intros (m & Hm & ->).
  destruct (Matches_Lang _ _ _ _ Hm) as (w & [Ew Iw] & HL).
  exists m, w. split; [exact Hm |]. split; [split; assumption |].
  split; [exact HL |]. f_equal. rewrite Ew, Iw.
  replace (endIndex x + length w - endIndex x)%nat with (length w) by lia.
  apply take_app_length.
Qed.

Lemma Lang_alt rs w :
  rs <> [] -> Lang ic (alt rs) w <-> Exists (fun r => Lang ic r w) rs.
Proof.
  induction rs as [| r rs IH]; [congruence |]. intros _.
  destruct rs as [| r' rs].
  - cbn [alt]. split.
    + intros H. now constructor.
    + intros H. inversion H as [? ? H1 | ? ? H1]; subst; [exact H1 |].
      inversion H1.
  - change (alt (r :: r' :: rs)) with (Alt r (alt (r' :: rs))). cbn [Lang].
    rewrite IH by discriminate. split.
    + intros [H | H]; [now constructor | now apply Exists_cons_tl].
    + intros H. inversion H; subst; auto.
Qed.

Lemma LangList_literal_ci l : forall rs w,
  LangList ic (List.map (fun a => Chr [(a, a)] false) l ++ rs) w ->
  exists u w', w = u ++ w'
               /\ Forall2 (fun a c => accepts ic [(a, a)] false c = true) l u
               /\ LangList ic rs w'.
Proof.
  induction l as [| a l IH]; intros rs w H; cbn [List.map app LangList] in H.
  - exists [], w. split; [reflexivity |]. split; [constructor | exact H].
  - destruct H as (w1 & w2 & -> & (ch & -> & Hacc) & H).
    apply IH in H. destruct H as (u & w' & -> & HF & H).
    exists (ch :: u), w'. split; [reflexivity |].
    split; [constructor; assumption | exact H].
Qed.

Lemma Lang_lit s w :
  Lang ic (lit s) w ->
  Forall2 (fun a c => accepts ic [(a, a)] false c = true) (js s) w.
Proof.
  unfold lit. rewrite Lang_cat. intros H.
  rewrite <- (app_nil_r (List.map _ (js s))) in H.
  apply LangList_literal_ci in H. destruct H as (u & w' & -> & HF & Hn).
  cbn in Hn. subst w'. now rewrite app_nil_r.
Qed.

Lemma Lang_lit_self s :
  forallb (fun a => accepts ic [(a, a)] false a) (js s) = true ->
  Lang ic (lit s) (js s).
Proof.
  unfold lit. rewrite Lang_cat. induction (js s) as [| a l IH]; intros H.
  - reflexivity.
  - cbn [forallb] in H. apply andb_true_iff in H. destruct H as [Ha Hl].
    cbn [List.map LangList]. exists [a], l. split; [reflexivity |].
    split; [exists a; auto | now apply IH].
Qed.

End Captures.

Lemma accepts_ci_domain_char a c :
  is_domain_char a = true ->
  accepts true [(a, a)] false c = true -> is_domain_char c = true.
Proof.
  unfold is_domain_char, is_ascii_alpha, accepts, set_has, Canonicalize,
    in_ranges, in_range. cbn [existsb fst snd xorb andb orb].
  decide_tests; cbn in *; intros; try discriminate; try reflexivity; try lia.
Qed.

Lemma accepts_ci_alnum c :
  accepts true [(65, 90); (48, 57)] false c = true -> is_ascii_alnum c = true.
Proof.
  unfold is_ascii_alnum, accepts, set_has, Canonicalize,
    in_ranges, in_range. cbn [existsb fst snd xorb andb orb].
  decide_tests; cbn in *; intros; try discriminate; try reflexivity; try lia.
Qed.

Lemma Forall2_domain_chars l u :
  forallb is_domain_char l = true ->
  Forall2 (fun a c => accepts true [(a, a)] false c = true) l u ->
  Forall (fun c => is_domain_char c = true) u.
Proof.
  intros Hl H. induction H as [| a c l u Hac _ IH]; [constructor |].
  cbn [forallb] in Hl. apply andb_true_iff in Hl. destruct Hl as [Ha Hl].
  constructor; [eapply accepts_ci_domain_char; eauto | now apply IH].
Qed.

Lemma domain_chars d :
  Lang true domain_pattern d -> Forall (fun c => is_domain_char c = true) d.
Proof.
  unfold domain_pattern. rewrite Lang_cat. unfold chars. intros H.
  apply LangList_literal_ci in H. destruct H as (u & w' & -> & HF & H).
  cbn [LangList Lang] in H. destruct H as (w1 & w2 & -> & H & ->).
  rewrite app_nil_r. apply Forall_app. split.
  - eapply Forall2_domain_chars; [| exact HF]. reflexivity.
  - unfold marketplaces in H.
    apply Lang_alt in H; [| discriminate].
    apply Exists_exists in H. destruct H as (r & Hr & H).
    apply list_elem_of_In, in_map_iff in Hr. destruct Hr as (s & <- & Hs).
    apply Lang_lit in H. eapply Forall2_domain_chars; [| exact H].
    assert (Hall : List.Forall
                     (fun s => forallb is_domain_char (js s) = true)
                     marketplace_names)
      by (repeat (apply List.Forall_cons; [reflexivity |]); constructor).
    rewrite List.Forall_forall in Hall. now apply Hall.
Qed.

Lemma asin_chars a :
  Lang true asin a ->
  length a = 10%nat /\ Forall (fun c => is_ascii_alnum c = true) a.
Proof.
  unfold asin, upper_alnum. cbn [Lang]. intros H.
  apply RepL_class in H; [| simpl; lia].
  destruct H as (HF & Hmin & Hmax). specialize (Hmax _ eq_refl).
  split; [lia |]. eapply Forall_impl; [exact HF |]. intros c Hc.
  now apply accepts_ci_alnum.
Qed.

Lemma find_capture_hit n v l :
  snd <$> List.find (fun p : nat * jsstring => Nat.eqb (fst p) n) ((n, v) :: l)
  = Some v.
Proof. cbn. now rewrite Nat.eqb_refl. Qed.

Lemma poller_match url m :
  exec Poller.amazonLongRegex url = Some m ->
  exists d a,
    group 1 m = Some d /\ group 3 m = Some a
    /\ Lang true domain_pattern d /\ Lang true asin a.
Proof.
  intros E. apply exec_from_sound in E.
  destruct E as (pre & post & _ & _ & y & HM & _ & Hg).
  unfold Poller.amazonLongRegex in HM. cbn [pattern ignoreCase] in HM.
  apply Matches_cat in HM. cbn [MatchesList] in HM.
  destruct HM as (m1 & H1 & m2 & H2 & m3 & H3 & m4 & H4 & m5 & H5 & m6 & H6 & ->).
  apply Matches_Group_inv in H1. destruct H1 as (m1' & d & _ & _ & Hd & ->).
  apply Matches_Group_inv in H6. destruct H6 as (m6' & a & H6 & _ & Ha & ->).
  apply Matches_captures_nogroup in H2; [| reflexivity].
  apply Matches_captures_nogroup in H3; [| reflexivity].
  apply Matches_captures_nogroup in H4; [| reflexivity].
  apply Matches_captures_nogroup in H5; [| reflexivity].
  apply Matches_captures_nogroup in H6; [| reflexivity].
  exists d, a. unfold group. rewrite Hg.
  split; [| split; [| split; assumption]].
  - cbn [set_capture captures] in *. rewrite H6, H5, H4, H3, H2.
    reflexivity.
  - cbn [set_capture captures]. apply find_capture_hit.
Qed.

Lemma poller_rewrite_shape url tag m :
  tag <> [] -> exec Poller.amazonLongRegex url = Some m ->
  exists d a,
    Poller.convertToAffiliateLink url (Some tag)
    = js "https://" ++ d ++ js "/dp/" ++ a ++ js "?tag=" ++ tag
    /\ Lang true domain_pattern d /\ Lang true asin a.
Proof.
  intros Ht E. destruct (poller_match url m E) as (d & a & H1 & H3 & Hd & Ha).
  exists d, a. split; [| auto]. unfold Poller.convertToAffiliateLink.
  destruct tag as [| c tag]; [congruence |]. cbn [truthy negb interpolate].
  rewrite E. cbv zeta. now rewrite H1, H3.
Qed.

Lemma rewritten_link_matches d a t :
  Lang true domain_pattern d -> Lang true asin a ->
  test Poller.amazonLongRegex (js "https://" ++ d ++ js "/dp/" ++ a ++ t) = true.
Proof.
  intros Hd Ha.
  apply (test_true_intro Poller.amazonLongRegex _ (js "https://")
           (d ++ js "/dp/" ++ a) t).
  - reflexivity.
  - now rewrite <- !app_assoc.
  - unfold Poller.amazonLongRegex. cbn [pattern ignoreCase].
    apply Lang_cat. cbn [LangList].
    exists d, (js "/dp/" ++ a). split; [reflexivity |]. split; [exact Hd |].
    exists [47], (js "dp/" ++ a). split; [reflexivity |].
    split; [exists 47; split; reflexivity |].
    exists [], (js "dp/" ++ a). split; [reflexivity |].
    split; [apply RepL_stop; now left |].
    exists (js "dp"), (js "/" ++ a). split; [reflexivity |].
    split; [left; now apply Lang_lit_self |].
    exists [47], a. split; [reflexivity |].
    split; [exists 47; split; reflexivity |].
    exists a, []. split; [now rewrite app_nil_r |]. split; [exact Ha | reflexivity].
Qed.

Lemma valid_tag_chars t :
  isValidAmazonTag t = true -> Forall (fun c => is_tag_char c = true) t.
Proof.
  intros H. apply isValidAmazonTag_TagWord in H. apply Forall_forall.
  intros c Hc. apply list_elem_of_In in Hc.
  destruct (TagWord_chars _ _ H Hc) as [Ha | ->]; unfold is_tag_char.
  - now rewrite Ha.
  - reflexivity.
Qed.

Lemma drop_while_prefix p pre s :
  Forall (fun c => p c = true) pre ->
  drop_while p (pre ++ s) = drop_while p s.
Proof.
  induction 1 as [| c pre Hc _ IH]; [reflexivity |].
  cbn [app drop_while]. now rewrite Hc.
Qed.

Lemma take_while_all p s :
  Forall (fun c => p c = true) s -> take_while p s = s.
Proof.
  induction 1 as [| c s Hc _ IH]; [reflexivity |].
  cbn [take_while]. now rewrite Hc, IH.
Qed.

Lemma plain_char_facts c :
  is_tag_char c = true \/ is_domain_char c = true
  \/ In c (js "https://dp/tag=") ->
  c < 128 /\ (c =? 35) = false /\ (c =? 63) = false /\ (c =? 38) = false.
Proof.
  intros H.
  assert (Hb : c < 128).
  { destruct H as [H | [H | H]].
    - destruct (N.ltb_spec c 128) as [Hc | Hc]; [exact Hc |]. exfalso.
      revert H. unfold is_tag_char, is_ascii_alnum, in_ranges, in_range.
      cbn [existsb fst snd]. decide_tests; discriminate.
    - destruct (N.ltb_spec c 128) as [Hc | Hc]; [exact Hc |]. exfalso.
      revert H. unfold is_domain_char, is_ascii_alpha, in_ranges, in_range.
      cbn [existsb fst snd]. decide_tests; discriminate.
    - cbn in H. repeat (destruct H as [<- | H]; [reflexivity |]). contradiction. }
  pose proof (check_below
    (fun c => implb (is_tag_char c || is_domain_char c
                     || existsb (N.eqb c) (js "https://dp/tag="))
                (negb (c =? 35) && negb (c =? 63) && negb (c =? 38)))
    128 eq_refl c Hb) as Hk.
  cbv beta in Hk.
  assert (Hp : is_tag_char c || is_domain_char c
               || existsb (N.eqb c) (js "https://dp/tag=") = true).
  { destruct H as [H | [H | H]].
    - now rewrite H.
    - rewrite H. now rewrite orb_true_r.
    - apply orb_true_iff. right. apply existsb_exists. exists c.
      split; [exact H | apply N.eqb_refl]. }
  rewrite Hp in Hk. cbn [implb] in Hk.
  repeat (apply andb_true_iff in Hk; destruct Hk as [Hk ?]).
  repeat match goal with
         | X : negb _ = true |- _ => apply negb_true_iff in X
         end.
  auto.
Qed.

Lemma poller_link_query d a t :
  Forall (fun c => is_domain_char c = true) d ->
  Forall (fun c => is_ascii_alnum c = true) a ->
  Forall (fun c => is_tag_char c = true) t ->
  query_part (js "https://" ++ d ++ js "/dp/" ++ a ++ js "?tag=" ++ t)
  = js "tag=" ++ t.
Proof.
  intros Hd Ha Ht. unfold query_part.
  replace (js "https://" ++ d ++ js "/dp/" ++ a ++ js "?tag=" ++ t)
    with ((js "https://" ++ d ++ js "/dp/" ++ a) ++ 63 :: js "tag=" ++ t)
    by (now rewrite <- !app_assoc).
  rewrite drop_while_prefix.
  - cbn [drop_while]. change (negb (63 =? 63) && negb (63 =? 35)) with false.
    cbv iota. apply take_while_all. apply Forall_app. split.
    + repeat constructor.
    + eapply Forall_impl; [exact Ht |]. intros c Hc. cbv beta in *.
      destruct (plain_char_facts c (or_introl Hc)) as (_ & -> & _). reflexivity.
  - assert (Hlit : forall s, (forall c, In c (js s) -> In c (js "https://dp/tag=")) ->
                   Forall (fun c => negb (c =? 63) && negb (c =? 35) = true) (js s)).
    { intros s Hs. apply List.Forall_forall. intros c Hc.
      destruct (plain_char_facts c (or_intror (or_intror (Hs c Hc))))
        as (_ & -> & -> & _). reflexivity. }
    apply Forall_app. split.
    { apply Hlit. intros c Hc. cbn in *. tauto. }
    apply Forall_app. split.
    { eapply Forall_impl; [exact Hd |]. intros c Hc. cbv beta in *.
      destruct (plain_char_facts c (or_intror (or_introl Hc)))
        as (_ & -> & -> & _). reflexivity. }
    apply Forall_app. split.
    { apply Hlit. intros c Hc. cbn in *. tauto. }
    eapply Forall_impl; [exact Ha |]. intros c Hc. cbv beta in *.
    assert (Htc : is_tag_char c = true) by (unfold is_tag_char; now rewrite Hc).
    destruct (plain_char_facts c (or_introl Htc)) as (_ & -> & -> & _).
    reflexivity.
Qed.

Lemma tag_chars_scalar t :
  Forall (fun c => is_tag_char c = true) t -> scalar_string t.
Proof.
  intros H. exists t. split.
  - eapply Forall_impl; [exact H |]. intros c Hc. cbv beta in *.
    destruct (plain_char_facts c (or_introl Hc)) as (Hb & _).
    apply is_scalar_value_spec. lia.
  - unfold of_scalar_values. induction H as [| c t Hc _ IH]; [reflexivity |].
    cbn [flat_map]. rewrite <- IH.
    destruct (plain_char_facts c (or_introl Hc)) as (Hb & _).
    unfold code_units_of.
    replace (c <? 65536) with true by (symmetry; apply N.ltb_lt; lia).
    reflexivity.
Qed.

Lemma tag_chars_encode t :
  Forall (fun c => is_tag_char c = true) t -> urlencoded_string t = t.
Proof.
  intros H. unfold urlencoded_string. rewrite ascii_utf8_encode.
  - induction H as [| c t Hc _ IH]; [reflexivity |].
    cbn [flat_map]. rewrite IH. unfold urlencoded_byte.
    assert (Hs : urlencoded_safe c = true /\ (c =? 32) = false).
    { revert Hc. unfold is_tag_char, urlencoded_safe, is_ascii_alnum,
        in_ranges, in_range. cbn [existsb fst snd].
      decide_tests; cbn; intros; try discriminate; auto. }
    destruct Hs as [-> ->]. reflexivity.
  - eapply Forall_impl; [exact H |]. intros c Hc. cbv beta in *.
    now destruct (plain_char_facts c (or_introl Hc)).
Qed.

Lemma new_of_tag_query t :
  Forall (fun c => is_tag_char c = true) t ->
  URLSearchParams.new (js "tag=" ++ t) = [(js "tag", t)].
Proof.
  intros Ht. unfold URLSearchParams.new.
  change (drop_question_mark (js "tag=" ++ t)) with (js "tag=" ++ t).
  assert (Hall : Forall (fun c => c < 128 /\ (c =? 38) = false) (js "tag=" ++ t)).
  { apply Forall_app. split.
    - repeat constructor.
    - eapply Forall_impl; [exact Ht |]. intros c Hc. cbv beta in *.
      destruct (plain_char_facts c (or_introl Hc)) as (? & _ & _ & ?). auto. }
  rewrite ascii_utf8_encode
    by (eapply Forall_impl; [exact Hall |]; intros c [Hc _]; exact Hc).
  unfold urlencoded_parse. rewrite split_on_clean.
  2:{ eapply Forall_impl; [exact Hall |]. intros c [_ Hc].
      now apply N.eqb_neq. }
  change (js "tag=" ++ t) with (js "tag" ++ 61 :: t).
  change (List.filter (fun seq : jsstring => negb (Nat.eqb (length seq) 0))
            [js "tag" ++ 61 :: t]) with [js "tag" ++ 61 :: t].
  cbn [List.map].
  rewrite split_first_at by (repeat constructor; discriminate).
  f_equal. f_equal.
  rewrite <- (tag_chars_encode t Ht) at 1.
  apply urlencoded_decode_encode. now apply tag_chars_scalar.
Qed.

(** Rewriting a link the poller has already rewritten gives a minimal
    link again, now carrying the new tag only. *)
Lemma poller_rewrite_twice url m tagA tagB :
  exec Poller.amazonLongRegex url = Some m ->
  tagA <> [] -> isValidAmazonTag tagB = true ->
  exists d a,
    Poller.convertToAffiliateLink
      (Poller.convertToAffiliateLink url (Some tagA)) (Some tagB)
    = js "https://" ++ d ++ js "/dp/" ++ a ++ js "?tag=" ++ tagB
    /\ Lang true domain_pattern d /\ Lang true asin a
    /\ URLSearchParams.new
         (query_part
            (Poller.convertToAffiliateLink
               (Poller.convertToAffiliateLink url (Some tagA)) (Some tagB)))
       = [(js "tag", tagB)].
Proof.
  intros E HA HB.
  destruct (poller_rewrite_shape url tagA m HA E) as (d1 & a1 & -> & Hd1 & Ha1).
  pose proof (rewritten_link_matches d1 a1 (js "?tag=" ++ tagA) Hd1 Ha1) as Ht.
  unfold test in Ht.
  destruct (exec Poller.amazonLongRegex
              (js "https://" ++ d1 ++ js "/dp/" ++ a1 ++ js "?tag=" ++ tagA))
    as [m2 |] eqn:E2; [| discriminate].
  assert (HB' : tagB <> []) by (intros ->; discriminate HB).
  destruct (poller_rewrite_shape _ tagB m2 HB' E2) as (d & a & Hr & Hd & Ha).
  exists d, a. rewrite Hr. repeat split; try assumption.
  rewrite poller_link_query.
  - apply new_of_tag_query. now apply valid_tag_chars.
  - now apply domain_chars.
  - now apply asin_chars.
  - now apply valid_tag_chars.
Qed.

(** ** The rewriters' contracts (claims C3, C4, C9) *)

(** C3, amended.  The two rewriters agree whenever no tag is supplied
    (both return the URL they were given), and on some URLs with a tag,
    such as the minimal link [https://amazon.com/dp/B00005N5PF]; they do
    not agree on every URL. *)
Theorem rewriters_agree_without_tag :
  (forall (URL_parse : jsstring -> option URL) (url : jsstring),
     Webhook.convertToAffiliateLink URL_parse url None
     = Poller.convertToAffiliateLink url None
     /\ Webhook.convertToAffiliateLink URL_parse url (Some [])
        = Poller.convertToAffiliateLink url (Some []))
  /\ Webhook.convertToAffiliateLink parse_http product_url (Some (js "store-20"))
     = Poller.convertToAffiliateLink product_url (Some (js "store-20")).
Proof. split; [intros; split; reflexivity | vm_compute; reflexivity]. Qed.

(** C4, as stated, against the code: the poller's rewrite does not keep
    scheme, host and path, and rewrites a string that is not a parseable
    URL instead of returning it. *)
Lemma poller_rewrite_rebuilds_the_url :
  Poller.convertToAffiliateLink
    (js "http://www.amazon.com/gp/product/B00005N5PF?psc=1")
    (Some (js "store-20"))
  = js "https://amazon.com/dp/B00005N5PF?tag=store-20"
  /\ href <$> parse_http (js "http://www.amazon.com/gp/product/B00005N5PF?psc=1")
     = Some (js "http://www.amazon.com/gp/product/B00005N5PF?psc=1")
  /\ parse_http (js "amazon.com/dp/B00005N5PF") = None
  /\ Poller.convertToAffiliateLink (js "amazon.com/dp/B00005N5PF")
       (Some (js "store-20"))
     = js "https://amazon.com/dp/B00005N5PF?tag=store-20".
Proof. repeat split; vm_compute; reflexivity. Qed.

(** C4, amended.  In the webhook, for every URL the platform parses and
    every supplied tag, the rewrite returns the serialisation of the
    parsed URL with only its query replaced: the new query reads back as
    the old parameters without [tag], [linkCode], [ascsubtag],
    [creativeASIN] and [ref_], in their order, followed by one [tag] with
    the supplied value; scheme, credentials, host, port, path and fragment
    are those of the parsed URL.  For an input the platform does not parse
    the webhook returns the input.  The poller's rewrite instead returns
    [https://{domain}/dp/{ASIN}?tag={tag}], domain and ASIN taken from the
    first match of its product pattern, and the input when there is no
    match. *)
Theorem rewrite_contract :
  forall (URL_parse : jsstring -> option URL) (url tag : jsstring),
    tag <> [] -> js_string tag ->
    match URL_parse url with
    | None => Webhook.convertToAffiliateLink URL_parse url (Some tag) = url
    | Some u =>
        let params := strip_affiliate (URLSearchParams.new (search u))
                      ++ [(js "tag", usv tag)] in
        let out := with_query u (Some (URLSearchParams.toString params)) in
        Webhook.convertToAffiliateLink URL_parse url (Some tag) = href out
        /\ URLSearchParams.new (search out) = params
        /\ tag_values params = [usv tag]
        /\ (forall name, In name affiliate_params -> name <> js "tag" ->
            ~ In name (List.map fst params))
        /\ scheme out = scheme u /\ username out = username u
        /\ password out = password u /\ host out = host u
        /\ port out = port u /\ path out = path u
        /\ fragment out = fragment u
    end
    /\ match exec Poller.amazonLongRegex url with
       | None => Poller.convertToAffiliateLink url (Some tag) = url
       | Some m =>
           exists d a,
             group 1 m = Some d /\ group 3 m = Some a
             /\ Lang true domain_pattern d /\ Lang true asin a
             /\ Poller.convertToAffiliateLink url (Some tag)
                = js "https://" ++ d ++ js "/dp/" ++ a ++ js "?tag=" ++ tag
       end.
Proof.
  intros URL_parse url tag Ht Hj. split.
  - destruct (URL_parse url) as [u |] eqn:Hp.
    + cbv zeta. split; [now apply webhook_rewrite_parsed |].
      split.
      { apply new_of_serialized.
        - intros H. apply app_eq_nil in H. destruct H as [_ H]. discriminate H.
        - apply Forall_app. split; [apply strip_scalar, new_scalar |].
          constructor; [| constructor]. split; [apply tag_name_scalar |].
          now apply usv_scalar. }
      split; [apply tag_values_after_strip |].
      split; [| repeat split].
      intros name Hin Hne Hmem. rewrite List.map_app in Hmem.
      apply in_app_or in Hmem. destruct Hmem as [Hmem | [Hmem | []]].
      * apply in_map_iff in Hmem. destruct Hmem as (p & <- & Hp').
        pose proof (strip_has_no (fst p) (URLSearchParams.new (search u)) Hin) as Hn.
        assert (Hy : existsb (fun q => str_eqb (fst q) (fst p))
                       (strip_affiliate (URLSearchParams.new (search u))) = true).
        { apply existsb_exists. exists p. split; [exact Hp' | apply str_eqb_refl]. }
        congruence.
      * apply Hne. symmetry. exact Hmem.
    + now apply webhook_rewrite_unparsed.
  - destruct (exec Poller.amazonLongRegex url) as [m |] eqn:E.
    + destruct (poller_match url m E) as (d & a & H1 & H3 & Hd & Ha).
      exists d, a. repeat split; try assumption.
      unfold Poller.convertToAffiliateLink.
      destruct tag as [| c tag]; [congruence |]. cbn [truthy negb interpolate].
      rewrite E. cbv zeta. now rewrite H1, H3.
    + unfold Poller.convertToAffiliateLink. rewrite E.
      destruct (negb (truthy (Some tag))); reflexivity.
Qed.

Lemma rewrite_contract_witness :
  Webhook.convertToAffiliateLink parse_http
    tagged_url
    (Some (js "store-20"))
  = js "https://www.amazon.com/dp/B00005N5PF?psc=1&tag=store-20#top"
  /\ Poller.convertToAffiliateLink
       tagged_url
       (Some (js "store-20"))
     = js "https://amazon.com/dp/B00005N5PF?tag=store-20".
Proof.
  assert (Hj : js_string (js "store-20")) by (repeat constructor).
  assert (Ht : js "store-20" <> []) by discriminate.
  pose proof (rewrite_contract parse_http
    tagged_url
    (js "store-20") Ht Hj) as [Hw Hp].
  split.
  - eassert (Eu : parse_http tagged_url = Some _) by (vm_compute; reflexivity).
    rewrite Eu in Hw. cbv beta iota zeta in Hw. destruct Hw as [Hw _].
    rewrite Hw. vm_compute. reflexivity.
  - eassert (Em : exec Poller.amazonLongRegex tagged_url = Some _)
      by (vm_compute; reflexivity).
    rewrite Em in Hp. destruct Hp as (d & a & Hd & Ha & _ & _ & Hp).
    lazymatch type of Hd with
    | group 1 ?m = _ =>
        assert (G1 : group 1 m = Some (js "amazon.com"))
          by (vm_compute; reflexivity);
        assert (G3 : group 3 m = Some (js "B00005N5PF"))
          by (vm_compute; reflexivity)
    end.
    rewrite G1 in Hd. injection Hd as <-.
    rewrite G3 in Ha. injection Ha as <-.
    rewrite Hp. reflexivity.
Defined.

(** C9, as stated, against the code: a URL neither rewriter can rewrite
    comes back unchanged from both passes and carries no [tag] parameter
    at all. *)
Lemma unrewritable_url_gets_no_tag :
  Poller.convertToAffiliateLink
    (Poller.convertToAffiliateLink (js "https://example.com/x")
       (Some (js "store-20"))) (Some (js "shop-21"))
  = js "https://example.com/x"
  /\ tag_values (URLSearchParams.new (query_part (js "https://example.com/x")))
     = []
  /\ Webhook.convertToAffiliateLink parse_http
       (Webhook.convertToAffiliateLink parse_http (js "not a url")
          (Some (js "store-20"))) (Some (js "shop-21"))
     = js "not a url"
  /\ tag_values (URLSearchParams.new (query_part (js "not a url"))) = [].
Proof. repeat split; vm_compute; reflexivity. Qed.

(** C9, amended.  For a URL the rewriter can rewrite, rewriting with
    [tagA] and then with [tagB] leaves exactly one [tag] parameter, equal
    to [tagB].  In the webhook (URL parsed by the platform, which also
    reads the first result back as the record it was serialised from) the
    second result is the one a single rewrite with [tagB] gives: its
    query reads back as the original parameters outside the stripped set,
    in order, followed by the tag.  In the poller (URL matching the product
    pattern, [tagB] a valid tag) the second result is again a minimal link
    [https://{domain}/dp/{ASIN}?tag={tagB}] whose only parameter is the
    tag. *)
Theorem rewrite_twice :
  forall (URL_parse : jsstring -> option URL) (url tagA tagB : jsstring),
    tagA <> [] -> js_string tagA -> tagB <> [] -> js_string tagB ->
    (forall u,
       URL_parse url = Some u ->
       URL_parse (Webhook.convertToAffiliateLink URL_parse url (Some tagA))
       = Some (with_query u
                 (Some (URLSearchParams.toString
                          (strip_affiliate (URLSearchParams.new (search u))
                           ++ [(js "tag", usv tagA)])))) ->
       let params := strip_affiliate (URLSearchParams.new (search u))
                     ++ [(js "tag", usv tagB)] in
       let out := with_query u (Some (URLSearchParams.toString params)) in
       Webhook.convertToAffiliateLink URL_parse
         (Webhook.convertToAffiliateLink URL_parse url (Some tagA)) (Some tagB)
       = Webhook.convertToAffiliateLink URL_parse url (Some tagB)
       /\ Webhook.convertToAffiliateLink URL_parse url (Some tagB) = href out
       /\ URLSearchParams.new (search out) = params
       /\ tag_values params = [usv tagB]
       /\ strip_affiliate params
          = strip_affiliate (URLSearchParams.new (search u)))
    /\ (forall m,
          exec Poller.amazonLongRegex url = Some m ->
          isValidAmazonTag tagB = true ->
          exists d a,
            Poller.convertToAffiliateLink
              (Poller.convertToAffiliateLink url (Some tagA)) (Some tagB)
            = js "https://" ++ d ++ js "/dp/" ++ a ++ js "?tag=" ++ tagB
            /\ Lang true domain_pattern d /\ Lang true asin a
            /\ URLSearchParams.new
                 (query_part
                    (Poller.convertToAffiliateLink
                       (Poller.convertToAffiliateLink url (Some tagA))
                       (Some tagB)))
               = [(js "tag", tagB)]).
Proof.
  intros URL_parse url tagA tagB HA HjA HB HjB. split.
  - intros u Hu Hre. cbv zeta.
    split; [now apply (webhook_rewrite_twice URL_parse url u) |].
    split; [now apply webhook_rewrite_parsed |].
    split.
    { apply new_of_serialized.
      - intros H. apply app_eq_nil in H. destruct H as [_ H]. discriminate H.
      - apply Forall_app. split; [apply strip_scalar, new_scalar |].
        constructor; [| constructor]. split; [apply tag_name_scalar |].
        now apply usv_scalar. }
    split; [apply tag_values_after_strip |].
    now rewrite strip_app_tag, strip_idempotent.
  - intros m E Hv. now apply (poller_rewrite_twice url m).
Qed.

Lemma rewrite_twice_witness :
  Webhook.convertToAffiliateLink parse_http
    (Webhook.convertToAffiliateLink parse_http tagged_url (Some (js "store-20")))
    (Some (js "shop-21"))
  = js "https://www.amazon.com/dp/B00005N5PF?psc=1&tag=shop-21#top"
  /\ URLSearchParams.new
       (query_part
          (Poller.convertToAffiliateLink
             (Poller.convertToAffiliateLink tagged_url (Some (js "store-20")))
             (Some (js "shop-21"))))
     = [(js "tag", js "shop-21")].
Proof.
  assert (HjA : js_string (js "store-20")) by (repeat constructor).
  assert (HjB : js_string (js "shop-21")) by (repeat constructor).
  assert (HA : js "store-20" <> []) by discriminate.
  assert (HB : js "shop-21" <> []) by discriminate.
  pose proof (rewrite_twice parse_http tagged_url (js "store-20")
                (js "shop-21") HA HjA HB HjB) as [Hw Hp].
  split.
  - eassert (Eu : parse_http tagged_url = Some _) by (vm_compute; reflexivity).
    specialize (Hw _ Eu).
    destruct Hw as (Hw1 & Hw2 & _); [vm_compute; reflexivity |].
    rewrite Hw1, Hw2. vm_compute. reflexivity.
  - eassert (Em : exec Poller.amazonLongRegex tagged_url = Some _)
      by (vm_compute; reflexivity).
    destruct (Hp _ Em) as (d & a & _ & _ & _ & Hq); [vm_compute; reflexivity |].
    exact Hq.
Defined.

(** * Beyond the claims: patterns, extraction, handlers *)

(** ** Literal patterns are substring searches *)

Lemma startsWith_spec p : forall s,
  startsWith s p = true <-> exists post, s = p ++ post.
Proof.
  induction p as [| a p IH]; intros s.
  - cbn. split; [eauto | reflexivity].
  - destruct s as [| b s]; cbn [startsWith].
    + split; [discriminate | intros (post & H); discriminate H].
    + rewrite andb_true_iff, IH, N.eqb_eq. split.
      * intros (-> & post & ->). eauto.
      * intros (post & [= -> ->]). eauto.
Qed.

Lemma includes_spec n : forall s,
  includes s n = true <-> exists pre post, s = pre ++ n ++ post.
Proof.
  induction s as [| c s IH].
  - cbn [includes]. rewrite orb_false_r, startsWith_spec. split.
    + intros (post & ->). exists [], post. reflexivity.
    + intros (pre & post & H). destruct pre; [eauto |]. discriminate H.
  - cbn [includes]. rewrite orb_true_iff, IH, startsWith_spec. split.
    + intros [(post & ->) | (pre & post & ->)].
      * exists [], post. reflexivity.
      * exists (c :: pre), post. reflexivity.
    + intros (pre & post & H). destruct pre as [| c' pre].
      * left. eauto.
      * injection H as -> ->. right. eauto.
Qed.

Lemma accepts_single_fold ic a c :
  accepts ic [(a, a)] false c = true <-> Canonicalize ic c = Canonicalize ic a.
Proof.
  unfold accepts, set_has, Canonicalize, in_ranges, in_range.
  cbn [existsb fst snd xorb]. destruct ic; cbn [andb orb].
  - decide_tests; cbn in *; split; intros; try discriminate; try reflexivity;
      try lia.
  - decide_tests; cbn in *; split; intros; try discriminate; try reflexivity;
      try lia.
Qed.

Lemma LangList_chars ic l : forall rs w,
  LangList ic (List.map (fun a => Chr [(a, a)] false) l ++ rs) w
  <-> exists u w', w = u ++ w' /\ fold_case ic u = fold_case ic l
                   /\ LangList ic rs w'.
Proof.
  induction l as [| a l IH]; intros rs w; cbn [List.map app LangList].
  - split.
    + intros H. exists [], w. auto.
    + intros (u & w' & -> & Hu & H). destruct u; [exact H | discriminate].
  - split.
    + intros (w1 & w2 & -> & (ch & -> & Hacc) & H).
      apply IH in H. destruct H as (u & w' & -> & HF & H).
      exists (ch :: u), w'. split; [reflexivity |]. split; [| exact H].
      unfold fold_case in *. cbn [List.map]. f_equal; [| exact HF].
      now apply accepts_single_fold.
    + intros (u & w' & -> & Hu & H). destruct u as [| ch u]; [discriminate |].
      unfold fold_case in Hu. cbn [List.map] in Hu. injection Hu as Hc Hu.
      exists [ch], (u ++ w'). split; [reflexivity |].
      split; [exists ch; split; [reflexivity | now apply accepts_single_fold] |].
      apply IH. exists u, w'. auto.
Qed.

Lemma LangList_chars_only ic l w :
  LangList ic (List.map (fun a => Chr [(a, a)] false) l) w
  <-> fold_case ic w = fold_case ic l.
Proof.
  pose proof (LangList_chars ic l [] w) as H. rewrite app_nil_r in H.
  rewrite H. split.
  - intros (u & w' & -> & Hu & ->). now rewrite app_nil_r.
  - intros Hw. exists w, []. rewrite app_nil_r.
    split; [reflexivity | split; [exact Hw | reflexivity]].
Qed.

Lemma Lang_lit_fold ic s w :
  Lang ic (lit s) w <-> fold_case ic w = fold_case ic (js s).
Proof. unfold lit. rewrite Lang_cat. apply LangList_chars_only. Qed.

Lemma fold_case_app ic a b : fold_case ic (a ++ b) = fold_case ic a ++ fold_case ic b.
Proof. apply List.map_app. Qed.

Lemma fold_case_split ic s a b :
  fold_case ic s = a ++ b ->
  exists sa sb, s = sa ++ sb /\ fold_case ic sa = a /\ fold_case ic sb = b.
Proof.
  unfold fold_case. intros H. apply map_eq_app in H.
  destruct H as (sa & sb & -> & Ha & Hb). eauto.
Qed.

Lemma anchor_free_chars t : forallb anchor_free (chars t) = true.
Proof. unfold chars. induction (js t) as [| a l IH]; [reflexivity | exact IH]. Qed.

Lemma anchor_free_lit t : anchor_free (lit t) = true.
Proof.
  unfold lit, cat. rewrite anchor_free_fold_left. apply (anchor_free_chars t).
Qed.

Lemma anchor_free_alt_lit names : anchor_free (alt (List.map lit names)) = true.
Proof.
  induction names as [| a names IH]; [reflexivity |].
  destruct names as [| b names]; [apply anchor_free_lit |].
  change (anchor_free (lit a) && anchor_free (alt (List.map lit (b :: names)))
          = true).
  now rewrite anchor_free_lit, IH.
Qed.

(** A pattern made of a literal, a choice of literals and a literal is a
    search for one of the spelled-out words. *)
Lemma test_word_choice re p n names q s :
  names <> [] ->
  pattern re = cat (chars p ++ [Group n (alt (List.map lit names))] ++ chars q) ->
  test re s
  = existsb (fun name =>
               includes (fold_case (ignoreCase re) s)
                 (fold_case (ignoreCase re) (js p ++ js name ++ js q)))
      names.
Proof.
  intros Hne Hp. apply eq_true_iff_eq. rewrite existsb_exists. split.
  - intros H. apply test_true_elim in H.
    destruct H as (pre & w & post & -> & HL). rewrite Hp in HL.
    apply Lang_cat in HL. unfold chars in HL. apply LangList_chars in HL.
    destruct HL as (u & w' & -> & Hu & HL). cbn [app LangList Lang] in HL.
    destruct HL as (w1 & w2 & -> & H1 & H2).
    apply LangList_chars_only in H2. rename w2 into v. rename H2 into Hv.
    apply Lang_alt in H1; [| destruct names; [congruence | discriminate]].
    apply Exists_exists in H1. destruct H1 as (r & Hr & H1).
    apply list_elem_of_In, in_map_iff in Hr. destruct Hr as (name & <- & Hn).
    apply Lang_lit_fold in H1.
    exists name. split; [exact Hn |]. apply includes_spec.
    exists (fold_case (ignoreCase re) pre), (fold_case (ignoreCase re) post).
    rewrite !fold_case_app. now rewrite Hu, H1, Hv.
  - intros (name & Hn & H). apply includes_spec in H.
    destruct H as (pre' & post' & H).
    apply fold_case_split in H. destruct H as (pre & rest & -> & _ & H).
    apply fold_case_split in H. destruct H as (w & post & -> & Hw & _).
    rewrite !fold_case_app in Hw.
    apply fold_case_split in Hw. destruct Hw as (u & w' & -> & Hu & Hw).
    apply fold_case_split in Hw. destruct Hw as (w1 & v & -> & H1 & Hv).
    apply (test_true_intro re _ pre (u ++ w1 ++ v) post); [| reflexivity |].
    + rewrite Hp. unfold cat. rewrite anchor_free_fold_left.
      rewrite !forallb_app, !anchor_free_chars. cbn [forallb anchor_free andb].
      now rewrite anchor_free_alt_lit.
    + rewrite Hp. apply Lang_cat. unfold chars. apply LangList_chars.
      exists u, (w1 ++ v). split; [reflexivity |]. split; [exact Hu |].
      cbn [app LangList Lang]. exists w1, v. split; [reflexivity |]. split.
      * apply Lang_alt; [destruct names; [congruence | discriminate] |].
        apply Exists_exists. exists (lit name).
        split; [apply list_elem_of_In, in_map, Hn |]. now apply Lang_lit_fold.
      * now apply LangList_chars_only.
Qed.

Lemma existsb_eq {A} (f g : A -> bool) l :
  (forall x, f x = g x) -> existsb f l = existsb g l.
Proof.
  intros H. induction l as [| a l IH]; [reflexivity |].
  cbn [existsb]. now rewrite H, IH.
Qed.

Lemma fold_case_false s : fold_case false s = s.
Proof. unfold fold_case, Canonicalize. cbn [andb]. apply List.map_id. Qed.

Lemma test_literal re word s :
  pattern re = lit word ->
  test re s = includes (fold_case (ignoreCase re) s)
                (fold_case (ignoreCase re) (js word)).
Proof.
  intros Hp. apply eq_true_iff_eq. rewrite includes_spec. split.
  - intros H. apply test_true_elim in H.
    destruct H as (pre & w & post & -> & HL). rewrite Hp in HL.
    apply Lang_lit_fold in HL.
    exists (fold_case (ignoreCase re) pre), (fold_case (ignoreCase re) post).
    rewrite !fold_case_app. now rewrite HL.
  - intros (pre' & post' & H).
    apply fold_case_split in H. destruct H as (pre & rest & -> & _ & H).
    apply fold_case_split in H. destruct H as (w & post & -> & Hw & _).
    apply (test_true_intro re _ pre w post); [| reflexivity |].
    + rewrite Hp. apply anchor_free_lit.
    + rewrite Hp. now apply Lang_lit_fold.
Qed.

(** X3.  The webhook's Amazon check is a search for [amazon.] followed by
    one of the eleven marketplace suffixes anywhere in the URL, letter
    case ignored; it does not look at where the host is. *)
Theorem amazon_check_is_a_substring_search :
  (forall u,
     test Webhook.anyAmazonDomainRegex u
     = existsb (fun name =>
                  includes (fold_case true u)
                    (fold_case true (js "amazon." ++ js name)))
         marketplace_names)
  /\ (forall pre post,
        test Webhook.anyAmazonDomainRegex (pre ++ js "AMAZON.in" ++ post) = true)
  /\ Webhook.handler parse_http offline registered
       (Some (says "https://example.org/?from=amazon.com"))
     = (registered,
        [SendMessage 1
           (msg_affiliate_link
              (js "https://example.org/?from=amazon.com&tag=store-20"));
         Respond 200 (js "Update processed")]).
Proof.
  assert (H : forall u,
     test Webhook.anyAmazonDomainRegex u
     = existsb (fun name =>
                  includes (fold_case true u)
                    (fold_case true (js "amazon." ++ js name)))
         marketplace_names).
  { intros u.
    rewrite (test_word_choice Webhook.anyAmazonDomainRegex "amazon." 1
               marketplace_names "" u); [| discriminate | reflexivity].
    apply existsb_eq. intros name. cbn [ignoreCase Webhook.anyAmazonDomainRegex].
    change (js "") with (@nil N). now rewrite app_nil_r. }
  split; [exact H |]. split; [| vm_compute; reflexivity].
  intros pre post. rewrite H. apply existsb_exists. exists "in"%string.
  split; [cbn; tauto |]. apply includes_spec.
  exists (fold_case true pre), (fold_case true post).
  rewrite !fold_case_app. reflexivity.
Qed.

(** X4.  The poller's short-link check is a search for one of [amzn.to/],
    [a.co/], [amzn-to.co/] and [amazon.in/gp/product/] anywhere in the URL,
    letter case ignored. *)
Theorem short_link_check_is_a_substring_search :
  (forall u,
     test Poller.amazonShortLinkRegex u
     = existsb (fun h =>
                  includes (fold_case true u) (fold_case true (js h ++ js "/")))
         ["amzn.to"; "a.co"; "amzn-to.co"; "amazon.in/gp/product"]%string)
  /\ (forall u, test Poller.shortLinkRegex u = test Poller.amazonShortLinkRegex u)
  /\ (forall pre post,
        test Poller.amazonShortLinkRegex (pre ++ js "a.co/" ++ post) = true).
Proof.
  assert (H : forall u,
     test Poller.amazonShortLinkRegex u
     = existsb (fun h =>
                  includes (fold_case true u) (fold_case true (js h ++ js "/")))
         ["amzn.to"; "a.co"; "amzn-to.co"; "amazon.in/gp/product"]%string).
  { intros u.
    rewrite (test_word_choice Poller.amazonShortLinkRegex "" 1
               ["amzn.to"; "a.co"; "amzn-to.co"; "amazon.in/gp/product"]%string
               "/" u); [| discriminate | reflexivity].
    apply existsb_eq. intros h. reflexivity. }
  split; [exact H |]. split; [reflexivity |].
  intros pre post. rewrite H. apply existsb_exists. exists "a.co"%string.
  split; [cbn; tauto |]. apply includes_spec.
  exists (fold_case true pre), (fold_case true post).
  rewrite !fold_case_app. reflexivity.
Qed.

(** X5.  The poller's command callbacks are registered with unanchored
    patterns: they fire for every text that contains [/start]
    (respectively [/settag]) anywhere, in that letter case. *)
Theorem command_patterns_are_unanchored :
  forall t,
    test onText_start t = includes t (js "/start")
    /\ test onText_settag t = includes t (js "/settag").
Proof.
  intros t. split.
  - rewrite (test_literal onText_start "/start" t eq_refl).
    cbn [ignoreCase onText_start]. now rewrite !fold_case_false.
  - rewrite (test_literal onText_settag "/settag" t eq_refl).
    cbn [ignoreCase onText_settag]. now rewrite !fold_case_false.
Qed.

(** ** The poller classifies and rewrites with the same language *)

Lemma LangList_app ic l1 : forall l2 w,
  LangList ic (l1 ++ l2) w
  <-> exists w1 w2, w = w1 ++ w2 /\ LangList ic l1 w1 /\ LangList ic l2 w2.
Proof.
  induction l1 as [| r l1 IH]; intros l2 w; cbn [app LangList].
  - split.
    + intros H. exists [], w. auto.
    + intros (w1 & w2 & -> & -> & H). exact H.
  - split.
    + intros (wa & wb & -> & Ha & H). apply IH in H.
      destruct H as (w1 & w2 & -> & H1 & H2).
      exists (wa ++ w1), w2. rewrite app_assoc. split; [reflexivity |].
      split; [| exact H2]. exists wa, w1. auto.
    + intros (w1 & w2 & -> & (wa & wb & -> & Ha & Hb) & H2).
      exists wa, (wb ++ w2). rewrite app_assoc. split; [reflexivity |].
      split; [exact Ha |]. apply IH. exists wb, w2. auto.
Qed.

Lemma long_patterns_same_language w :
  Lang true (pattern Poller.amazonLongLinkRegex) w
  <-> Lang true (pattern Poller.amazonLongRegex) w.
Proof.
  unfold Poller.amazonLongLinkRegex, Poller.amazonLongRegex. cbn [pattern].
  rewrite !Lang_cat.
  change (chars "amazon."
          ++ [Group 1 marketplaces; chr "/"; star Dot; product_marker;
              chr "/"; Group 2 asin])
    with ((chars "amazon." ++ [Group 1 marketplaces])
          ++ [chr "/"; star Dot; product_marker; chr "/"; Group 2 asin]).
  rewrite LangList_app.
  change [Group 1 domain_pattern; chr "/"; star Dot; product_marker; chr "/";
          Group 3 asin]
    with ([Group 1 domain_pattern]
          ++ [chr "/"; star Dot; product_marker; chr "/"; Group 3 asin]).
  rewrite LangList_app.
  assert (Hd : forall w1,
            LangList true (chars "amazon." ++ [Group 1 marketplaces]) w1
            <-> LangList true [Group 1 domain_pattern] w1).
  { intros w1. cbn [LangList Lang]. unfold domain_pattern.
    split.
    - intros H. exists w1, []. rewrite app_nil_r. split; [reflexivity |].
      split; [| reflexivity]. apply Lang_cat. exact H.
    - intros (wa & wb & -> & H & ->). rewrite app_nil_r.
      apply Lang_cat in H. exact H. }
  split; intros (w1 & w2 & -> & H1 & H2); exists w1, w2;
    (split; [reflexivity |]); (split; [apply Hd, H1 | exact H2]).
Qed.

Lemma classified_link_shape u tag :
  tag <> [] ->
  test Poller.amazonLongLinkRegex u = true ->
  exists d a,
    Lang true domain_pattern d /\ Lang true asin a
    /\ Poller.convertToAffiliateLink u (Some tag)
       = js "https://" ++ d ++ js "/dp/" ++ a ++ js "?tag=" ++ tag.
Proof.
  intros Ht H. apply test_true_elim in H.
  destruct H as (pre & w & post & -> & HL).
  apply long_patterns_same_language in HL.
  pose proof (test_true_intro Poller.amazonLongRegex _ pre w post eq_refl
                eq_refl HL) as Hm.
  unfold test in Hm.
  destruct (exec Poller.amazonLongRegex (pre ++ w ++ post)) as [m |] eqn:E;
    [| discriminate].
  destruct (poller_rewrite_shape _ tag m Ht E) as (d & a & Hr & Hd & Ha).
  exists d, a. auto.
Qed.

(** X6.  The pattern the poller's handler classifies a product link with
    and the pattern its rewriter takes domain and ASIN with accept the
    same URLs.  So, for a supplied tag, a URL classified as a product link
    is always rewritten to [https://{domain}/dp/{ASIN}?tag={tag}]. *)
Theorem classified_links_are_rewritten :
  (forall u,
     test Poller.amazonLongLinkRegex u = test Poller.amazonLongRegex u)
  /\ (forall u tag,
        tag <> [] ->
        test Poller.amazonLongLinkRegex u = true ->
        exists d a,
          Lang true domain_pattern d /\ Lang true asin a
          /\ Poller.convertToAffiliateLink u (Some tag)
             = js "https://" ++ d ++ js "/dp/" ++ a ++ js "?tag=" ++ tag).
Proof.
  split; [| exact classified_link_shape].
  intros u. apply eq_true_iff_eq. split; intros H;
    apply test_true_elim in H; destruct H as (pre & w & post & -> & HL);
    apply long_patterns_same_language in HL;
    eapply test_true_intro; try reflexivity; exact HL.
Qed.

Lemma classified_links_are_rewritten_witness :
  exists d a,
    Lang true domain_pattern d /\ Lang true asin a
    /\ Poller.convertToAffiliateLink product_url (Some (js "store-20"))
       = js "https://" ++ d ++ js "/dp/" ++ a ++ js "?tag=" ++ js "store-20".
Proof.
  apply (proj2 classified_links_are_rewritten product_url (js "store-20")).
  - discriminate.
  - vm_compute. reflexivity.
Defined.

(** ** URL extraction *)

Lemma compile_fold_left ic rs : forall r0 x c,
  compile ic (fold_left Seq rs r0) x c
  = compile ic r0 x (fun y => compile_seq ic rs y c).
Proof.
  induction rs as [| r rs IH]; intros r0 x c; cbn [fold_left compile_seq].
  - reflexivity.
  - rewrite IH. reflexivity.
Qed.

Lemma compile_cat ic rs x c : compile ic (cat rs) x c = compile_seq ic rs x c.
Proof. unfold cat. now rewrite compile_fold_left. Qed.

Lemma compile_seq_chars l : forall rs e s caps c,
  compile_seq false (List.map (fun a => Chr [(a, a)] false) l ++ rs)
    (mkState e s caps) c
  = if startsWith s l
    then compile_seq false rs
           (mkState (e + length l) (drop (length l) s) caps) c
    else None.
Proof.
  induction l as [| a l IH]; intros rs e s caps c.
  - cbn. now rewrite Nat.add_0_r.
  - cbn [List.map app compile_seq compile CharacterSetMatcher rest].
    destruct s as [| ch s]; [reflexivity |].
    cbn [startsWith]. unfold CharacterSetMatcher. cbn [rest].
    unfold set_has, Canonicalize, in_ranges, in_range.
    cbn [andb orb existsb fst snd xorb]. rewrite !orb_false_r.
    destruct (N.eqb_spec a ch) as [-> | Hne].
    + rewrite !N.leb_refl. cbn [andb]. unfold advance. cbn [endIndex captures].
      rewrite IH. cbn [length drop].
      now replace (S e + length l)%nat with (e + S (length l))%nat by lia.
    + cbn [andb].
      destruct (N.leb_spec a ch), (N.leb_spec ch a); try reflexivity. lia.
Qed.

Lemma compile_optional_char a x c :
  compile false (Quant (Chr [(a, a)] false) 0 (Some 1%nat)) x c
  = match rest x with
    | ch :: s =>
        if ch =? a
        then match c (advance x s) with Some z => Some z | None => c x end
        else c x
    | [] => c x
    end.
Proof.
  cbn [compile group_numbers]. rewrite Nat.add_1_r. cbn [Nat.add RepeatMatcher].
  rewrite clear_no_captures. cbn [Nat.eqb negb andb dec_max Nat.pred].
  unfold CharacterSetMatcher.
  destruct (rest x) as [| ch s] eqn:Er; [reflexivity |].
  unfold set_has, Canonicalize, in_ranges, in_range.
  cbn [andb orb existsb fst snd xorb length RepeatMatcher]. rewrite !orb_false_r.
  unfold advance at 1 2. cbn [endIndex].
  replace (S (endIndex x) =? endIndex x)%nat with false
    by (symmetry; apply Nat.eqb_neq; lia).
  destruct (N.eqb_spec ch a) as [-> | Hne].
  - rewrite !N.leb_refl. reflexivity.
  - destruct (N.leb_spec a ch), (N.leb_spec ch a); try reflexivity. lia.
Qed.

(** A greedy class quantifier in front of a continuation that accepts
    whatever it is given takes the longest run of members. *)
Lemma RepeatMatcher_greedy A inv (f : MatchState -> MatchState) :
  forall s fuel min e caps,
    (length s < fuel)%nat ->
    RepeatMatcher (CharacterSetMatcher false A inv) [] fuel min None
      (mkState e s caps) (fun y => Some (f y))
    = let run := take_while (accepts false A inv) s in
      if (min <=? length run)%nat
      then Some (f (mkState (e + length run)
                      (drop (length run) s) caps))
      else None.
Proof.
  induction s as [| ch s IH]; intros fuel min e caps Hf;
    (destruct fuel as [| fuel]; [simpl in Hf; lia |]);
    cbn [RepeatMatcher take_while length drop]; rewrite clear_no_captures;
    unfold CharacterSetMatcher; cbn [rest dec_max].
  - cbv zeta. rewrite Nat.add_0_r. destruct min; reflexivity.
  - change (xorb inv (set_has false A (Canonicalize false ch)))
      with (accepts false A inv ch).
    destruct (accepts false A inv ch) eqn:Ea.
    + unfold advance. cbn [endIndex captures].
      replace (S e =? e)%nat with false by (symmetry; apply Nat.eqb_neq; lia).
      rewrite andb_false_r. rewrite IH by (simpl in Hf; lia).
      cbv zeta. cbn [length drop].
      replace (S e + length (take_while (accepts false A inv) s))%nat
        with (e + S (length (take_while (accepts false A inv) s)))%nat by lia.
      destruct min as [| min]; cbn [Nat.eqb negb Nat.pred Nat.leb]; reflexivity.
    + cbv zeta. cbn [length drop]. rewrite Nat.add_0_r.
      destruct min; reflexivity.
Qed.

Lemma startsWith_app a : forall s b,
  startsWith s (a ++ b) = startsWith s a && startsWith (drop (length a) s) b.
Proof.
  induction a as [| x a IH]; intros s b; [reflexivity |].
  destruct s as [| y s]; [reflexivity |].
  cbn [app startsWith length drop]. now rewrite IH, andb_assoc.
Qed.

Lemma take_while_ext (p q : N -> bool) s :
  (forall c, p c = q c) -> take_while p s = take_while q s.
Proof.
  intros H. induction s as [| c s IH]; [reflexivity |].
  cbn [take_while]. now rewrite H, IH.
Qed.

Lemma startsWith_take s p : startsWith s p = true -> take (length p) s = p.
Proof.
  intros H. apply startsWith_spec in H. destruct H as (post & ->).
  apply take_app_length.
Qed.

Lemma take_while_prefix p s :
  take (length (take_while p s)) s = take_while p s.
Proof.
  induction s as [| c s IH]; [reflexivity |].
  cbn [take_while]. destruct (p c); [| reflexivity].
  cbn [length take]. now rewrite IH.
Qed.

Lemma url_tail (scheme : jsstring) i s caps :
  startsWith s scheme = true ->
  compile_seq false [plus non_space]
    (mkState (i + length scheme) (drop (length scheme) s) caps)
    (fun y => Some (set_capture 1 (take (endIndex y - i) s) y))
  = match non_space_run (drop (length scheme) s) with
    | [] => None
    | run =>
        Some (mkState (i + length (scheme ++ run))
                (drop (length (scheme ++ run)) s)
                ((1%nat, scheme ++ run)
                 :: List.filter (fun p => negb (Nat.eqb (fst p) 1)) caps))
    end.
Proof.
  intros Hs. cbn [compile_seq compile plus non_space group_numbers].
  rewrite RepeatMatcher_greedy by (cbn [rest]; lia).
  cbv zeta. unfold non_space_run.
  rewrite (take_while_ext (accepts false white_space true)
             (fun c => negb (is_space c)))
    by (intros c; now rewrite accepts_nocase).
  apply startsWith_spec in Hs. destruct Hs as (post & ->).
  rewrite drop_app_length.
  pose proof (take_while_prefix (fun c => negb (is_space c)) post) as Hrun.
  destruct (take_while (fun c => negb (is_space c)) post) as [| c run];
    [reflexivity |].
  cbn [Nat.leb]. unfold set_capture. cbn [endIndex rest captures].
  rewrite length_app.
  replace (i + length scheme + length (c :: run) - i)%nat
    with (length scheme + length (c :: run))%nat by lia.
  rewrite take_app_add' by reflexivity. rewrite Hrun.
  rewrite drop_app_add' by reflexivity.
  replace (i + length scheme + length (c :: run))%nat
    with (i + (length scheme + length (c :: run)))%nat by lia.
  reflexivity.
Qed.

Lemma compile_url i s :
  compile false (pattern urlRegex) (mkState i s []) Some
  = match url_at s with
    | Some u => Some (mkState (i + length u) (drop (length u) s) [(1%nat, u)])
    | None => None
    end.
Proof.
  unfold urlRegex. cbn [pattern compile endIndex rest].
  rewrite compile_cat. unfold chars at 1. rewrite compile_seq_chars.
  change (length (js "http")) with 4%nat.
  unfold url_at.
  change (js "https://") with (js "http" ++ js "s://").
  change (js "http://") with (js "http" ++ js "://").
  rewrite !startsWith_app. change (length (js "http")) with 4%nat.
  destruct (startsWith s (js "http")) eqn:Eh; [| reflexivity].
  change ([Quant (chr "s") 0 (Some 1%nat)] ++ chars "://" ++ [plus non_space])
    with (Quant (Chr [(115, 115)] false) 0 (Some 1%nat)
          :: (chars "://" ++ [plus non_space])).
  cbn [andb compile_seq]. rewrite compile_optional_char. cbn [rest].
  change (js "s://") with (115 :: js "://").
  assert (H8 : drop 8 s = drop 4 (drop 4 s)) by now rewrite drop_drop.
  assert (H7 : drop 7 s = drop 3 (drop 4 s)) by now rewrite drop_drop.
  assert (Hs8 : forall t, drop 4 s = 115 :: t ->
            startsWith t (js "://") = true ->
            startsWith s (js "http" ++ js "s://") = true).
  { intros t Et Ht. rewrite startsWith_app, Eh.
    change (length (js "http")) with 4%nat. rewrite Et.
    change (js "s://") with (115 :: js "://"). cbn [startsWith andb].
    exact Ht. }
  assert (Hs7 : startsWith (drop 4 s) (js "://") = true ->
            startsWith s (js "http" ++ js "://") = true).
  { intros Ht. rewrite startsWith_app, Eh. exact Ht. }
  destruct (drop 4 s) as [| ch r] eqn:Er.
  - unfold chars. rewrite compile_seq_chars. reflexivity.
  - destruct (N.eqb_spec ch 115) as [-> | Hne].
    + cbn [startsWith]. rewrite N.eqb_refl. cbn [andb].
      unfold advance. cbn [endIndex captures]. unfold chars.
      rewrite !compile_seq_chars.
      change (startsWith (115 :: r) (js "://")) with false.
      cbn [andb]. change (length (js "://")) with 3%nat.
      destruct (startsWith r (js "://")) eqn:Et; [| reflexivity].
      pose proof (url_tail (js "http" ++ js "s://") i s [] (Hs8 r eq_refl Et)) as Hu.
      change (length (js "http" ++ js "s://")) with 8%nat in Hu.
      rewrite H8 in Hu |- *. cbn [drop] in Hu |- *.
      replace (S (i + 4) + 3)%nat with (i + 8)%nat by lia.
      rewrite Hu. now destruct (non_space_run (drop 3 r)).
    + cbn [startsWith].
      replace (115 =? ch) with false by (symmetry; apply N.eqb_neq; congruence).
      cbn [andb]. unfold chars. rewrite compile_seq_chars.
      change (length (js "://")) with 3%nat.
      destruct (startsWith (ch :: r) (js "://")) eqn:Et; [| reflexivity].
      pose proof (url_tail (js "http" ++ js "://") i s [] (Hs7 eq_refl)) as Hu.
      change (length (js "http" ++ js "://")) with 7%nat in Hu.
      rewrite H7 in Hu |- *.
      replace (i + 4 + 3)%nat with (i + 7)%nat by lia.
      rewrite Hu. now destruct (non_space_run (drop 3 (ch :: r))).
Qed.

Lemma take_while_run p body post :
  Forall (fun c => p c = true) body ->
  (forall c post', post = c :: post' -> p c = false) ->
  take_while p (body ++ post) = body.
Proof.
  intros Hb Hp. induction Hb as [| c body Hc _ IH].
  - destruct post as [| c post']; [reflexivity |].
    cbn [app take_while]. now rewrite (Hp c post' eq_refl).
  - cbn [app take_while]. now rewrite Hc, IH.
Qed.

Lemma take_while_split p s :
  exists post,
    s = take_while p s ++ post
    /\ Forall (fun c => p c = true) (take_while p s)
    /\ (forall c post', post = c :: post' -> p c = false).
Proof.
  induction s as [| c s (post & Es & Hb & Hp)].
  - exists []. cbn. repeat split; [constructor | discriminate].
  - cbn [take_while]. destruct (p c) eqn:Ec.
    + exists post. cbn [app]. rewrite <- Es. repeat split; auto.
    + exists (c :: s). repeat split; [constructor |].
      intros c' post' [= <- <-]. exact Ec.
Qed.

Lemma url_at_Some s u :
  url_at s = Some u <->
  exists scheme body post,
    is_scheme scheme /\ u = scheme ++ body /\ s = u ++ post
    /\ body <> [] /\ Forall (fun c => is_space c = false) body
    /\ (forall c post', post = c :: post' -> is_space c = true).
Proof.
  assert (Hrun : forall scheme : jsstring,
             startsWith s scheme = true ->
             forall run,
               non_space_run (drop (length scheme) s) = run -> run <> [] ->
               exists post,
                 s = (scheme ++ run) ++ post
                 /\ Forall (fun c => is_space c = false) run
                 /\ (forall c post', post = c :: post' -> is_space c = true)).
  { intros scheme Hs run Er Hne. apply startsWith_spec in Hs.
    destruct Hs as (t & ->). rewrite drop_app_length in Er.
    destruct (take_while_split (fun c => negb (is_space c)) t)
      as (post & Et & Hb & Hp).
    unfold non_space_run in Er. rewrite Er in Et, Hb. exists post.
    split; [now rewrite <- app_assoc, <- Et |]. split.
    - eapply Forall_impl; [exact Hb |]. intros c Hc. cbv beta in Hc.
      now apply negb_true_iff in Hc.
    - intros c post' E. apply negb_false_iff. eapply Hp, E. }
  split.
  - unfold url_at. intros H.
    destruct (startsWith s (js "https://")) eqn:E8.
    + destruct (non_space_run (drop 8 s)) as [| c run] eqn:Er; [discriminate |].
      apply (inj Some) in H. subst u.
      destruct (Hrun (js "https://") E8 (c :: run) Er) as (post & Es & Hb & Hp);
        [discriminate |].
      exists (js "https://"), (c :: run), post.
      split; [now right |]. repeat split; auto; discriminate.
    + destruct (startsWith s (js "http://")) eqn:E7; [| discriminate].
      destruct (non_space_run (drop 7 s)) as [| c run] eqn:Er; [discriminate |].
      apply (inj Some) in H. subst u.
      destruct (Hrun (js "http://") E7 (c :: run) Er) as (post & Es & Hb & Hp);
        [discriminate |].
      exists (js "http://"), (c :: run), post.
      split; [now left |]. repeat split; auto; discriminate.
  - intros (scheme & body & post & Hsch & -> & -> & Hne & Hb & Hp).
    assert (Er : non_space_run (body ++ post) = body).
    { apply take_while_run.
      - eapply Forall_impl; [exact Hb |]. intros c Hc. cbv beta in Hc.
        now rewrite Hc.
      - intros c post' E. rewrite (Hp c post' E). reflexivity. }
    unfold url_at. rewrite <- !app_assoc.
    destruct Hsch as [-> | ->].
    + change (startsWith (js "http://" ++ body ++ post) (js "https://"))
        with false.
      change (startsWith (js "http://" ++ body ++ post) (js "http://"))
        with (startsWith (body ++ post) []).
      cbn [startsWith].
      change (drop 7 (js "http://" ++ body ++ post)) with (body ++ post).
      rewrite Er. destruct body; [congruence | reflexivity].
    + change (startsWith (js "https://" ++ body ++ post) (js "https://"))
        with (startsWith (body ++ post) []).
      cbn [startsWith].
      change (drop 8 (js "https://" ++ body ++ post)) with (body ++ post).
      rewrite Er. destruct body; [congruence | reflexivity].
Qed.

Lemma url_at_None s :
  url_at s = None ->
  forall scheme c rest,
    is_scheme scheme -> s = scheme ++ c :: rest -> is_space c = true.
Proof.
  intros H scheme c rest Hsch ->.
  destruct (is_space c) eqn:Ec; [reflexivity |]. exfalso.
  destruct (take_while_split (fun c => negb (is_space c)) (c :: rest))
    as (post & Et & Hb & Hp).
  assert (Hsome : url_at (scheme ++ c :: rest)
                  = Some (scheme ++ take_while (fun c => negb (is_space c))
                                      (c :: rest))).
  { apply url_at_Some.
    exists scheme, (take_while (fun c => negb (is_space c)) (c :: rest)), post.
    split; [exact Hsch |]. split; [reflexivity |].
    split; [now rewrite <- app_assoc, <- Et |].
    split; [cbn [take_while]; rewrite Ec; discriminate |]. split.
    - eapply Forall_impl; [exact Hb |]. intros c' Hc. cbv beta in Hc.
      now apply negb_true_iff in Hc.
    - intros c' post' E. apply negb_false_iff. eapply Hp, E. }
  congruence.
Qed.

Lemma exec_from_url s : forall i m,
  exec_from urlRegex i s = Some m ->
  exists pre suf,
    s = pre ++ suf /\ index m = (i + length pre)%nat
    /\ url_at suf = Some (matched m)
    /\ groups m = [(1%nat, matched m)]
    /\ (forall pre1 suf1, s = pre1 ++ suf1 ->
        (length pre1 < length pre)%nat -> url_at suf1 = None).
Proof.
  induction s as [| c s IH]; intros i m H; cbn [exec_from] in H;
    change (ignoreCase urlRegex) with false in H; rewrite compile_url in H.
  - change (url_at []) with (@None jsstring) in H. discriminate H.
  - destruct (url_at (c :: s)) as [u |] eqn:Eu.
    + injection H as <-. cbn [endIndex index matched groups captures].
      assert (Et : take (i + length u - i) (c :: s) = u).
      { apply url_at_Some in Eu.
        destruct Eu as (scheme & body & post & _ & _ & -> & _).
        replace (i + length u - i)%nat with (length u) by lia.
        apply take_app_length. }
      rewrite Et. exists [], (c :: s). cbn [app length].
      rewrite Nat.add_0_r. repeat split; auto.
      intros pre1 suf1 _ Hlt. lia.
    + apply IH in H. destruct H as (pre & suf & -> & Hi & Hu & Hg & Hleft).
      exists (c :: pre), suf. cbn [app length].
      split; [reflexivity |]. split; [lia |]. split; [exact Hu |].
      split; [exact Hg |].
      intros pre1 suf1 E Hlt. destruct pre1 as [| c1 pre1].
      * cbn [app] in E. now subst suf1.
      * injection E as <- E. apply (Hleft pre1 suf1 E). cbn [length] in Hlt. lia.
Qed.

Lemma exec_from_url_None s : forall i,
  exec_from urlRegex i s = None ->
  forall pre suf, s = pre ++ suf -> url_at suf = None.
Proof.
  induction s as [| c s IH]; intros i H pre suf E; cbn [exec_from] in H;
    change (ignoreCase urlRegex) with false in H; rewrite compile_url in H.
  - symmetry in E. apply app_eq_nil in E. destruct E as [_ ->]. reflexivity.
  - destruct (url_at (c :: s)) as [u |] eqn:Eu; [discriminate |].
    destruct pre as [| c1 pre].
    + cbn [app] in E. now subst suf.
    + injection E as <- E. exact (IH (S i) H pre suf E).
Qed.

(** X1.  URL extraction.  When [text.match(/(https?:\/\/[^\s]+)/)] finds
    something, it is the leftmost place where [http://] or [https://] is
    followed by a code unit that is not white space, and the match runs
    from there up to the next white space or the end of the text; when it
    finds nothing, every [http://] and [https://] in the text is followed
    by white space or stands at the end. *)
Theorem url_extraction :
  forall text,
    match exec urlRegex text with
    | Some m =>
        exists pre scheme body post,
          text = pre ++ matched m ++ post /\ index m = length pre
          /\ matched m = scheme ++ body /\ is_scheme scheme
          /\ body <> [] /\ Forall (fun c => is_space c = false) body
          /\ (forall c post', post = c :: post' -> is_space c = true)
          /\ group 1 m = Some (matched m)
          /\ (forall pre1 scheme1 c rest,
                is_scheme scheme1 -> is_space c = false ->
                text = pre1 ++ scheme1 ++ c :: rest ->
                (length pre <= length pre1)%nat)
    | None =>
        forall pre scheme c rest,
          is_scheme scheme -> text = pre ++ scheme ++ c :: rest ->
          is_space c = true
    end.
Proof.
  intros text. destruct (exec urlRegex text) as [m |] eqn:E.
  - apply exec_from_url in E.
    destruct E as (pre & suf & -> & Hi & Hu & Hg & Hleft).
    apply url_at_Some in Hu.
    destruct Hu as (scheme & body & post & Hsch & Hm & -> & Hne & Hb & Hp).
    exists pre, scheme, body, post.
    split; [reflexivity |]. split; [exact Hi |]. split; [exact Hm |].
    split; [exact Hsch |]. split; [exact Hne |]. split; [exact Hb |].
    split; [exact Hp |].
    split; [unfold group; rewrite Hg; reflexivity |].
    intros pre1 scheme1 c rest Hs1 Hc E1.
    destruct (Nat.le_gt_cases (length pre) (length pre1)) as [Hle | Hlt];
      [exact Hle |].
    pose proof (Hleft pre1 _ E1 Hlt) as Hn.
    pose proof (url_at_None _ Hn scheme1 c rest Hs1 eq_refl). congruence.
  - intros pre scheme c rest Hs ->.
    pose proof (exec_from_url_None _ 0%nat E pre _ eq_refl) as Hn.
    exact (url_at_None _ Hn scheme c rest Hs eq_refl).
Qed.

(** ** Rewriting a rewritten link (poller) *)

Lemma accepts_slash ic ch : accepts ic [(47, 47)] false ch = true -> ch = 47.
Proof.
  intros H. apply accepts_single_fold in H. revert H.
  unfold Canonicalize, in_range. destruct ic; cbn [andb]; [| auto].
  decide_tests; cbn; intros; lia.
Qed.

(** The text a match of the poller's rewrite pattern covers, piece by
    piece. *)
Lemma poller_match_text url m :
  exec Poller.amazonLongRegex url = Some m ->
  exists pre d mid mk a post,
    url = pre ++ d ++ [47] ++ mid ++ mk ++ [47] ++ a ++ post
    /\ group 1 m = Some d /\ group 3 m = Some a
    /\ Lang true domain_pattern d /\ Lang true asin a.
Proof.
  intros E. apply exec_from_sound in E.
  destruct E as (pre & post & Es & _ & y & HM & Hr & Hg).
  unfold Poller.amazonLongRegex in HM. cbn [pattern ignoreCase] in HM.
  apply Matches_cat in HM. cbn [MatchesList] in HM.
  destruct HM as (m1 & H1 & m2 & H2 & m3 & H3 & m4 & H4 & m5 & H5 & m6 & H6 & ->).
  pose proof (Matches_Lang _ _ _ _ H2) as (w2 & [C2 _] & (c2 & -> & A2)).
  pose proof (Matches_Lang _ _ _ _ H3) as (mid & [C3 _] & _).
  pose proof (Matches_Lang _ _ _ _ H4) as (mk & [C4 _] & _).
  pose proof (Matches_Lang _ _ _ _ H5) as (w5 & [C5 _] & (c5 & -> & A5)).
  apply accepts_slash in A2, A5. subst c2 c5.
  apply Matches_Group_inv in H1. destruct H1 as (m1' & d & _ & [C1 _] & Hd & ->).
  apply Matches_Group_inv in H6.
  destruct H6 as (m6' & a & H6 & [C6 _] & Ha & ->).
  apply Matches_captures_nogroup in H2; [| reflexivity].
  apply Matches_captures_nogroup in H3; [| reflexivity].
  apply Matches_captures_nogroup in H4; [| reflexivity].
  apply Matches_captures_nogroup in H5; [| reflexivity].
  apply Matches_captures_nogroup in H6; [| reflexivity].
  exists pre, d, mid, mk, a, post. unfold group. rewrite Hg.
  split; [| split; [| split; [| split; assumption]]].
  - rewrite Es. f_equal. cbn [rest set_capture] in *.
    rewrite C1, C2, C3, C4, C5, C6, Hr. reflexivity.
  - cbn [set_capture captures] in *. rewrite H6, H5, H4, H3, H2.
    reflexivity.
  - cbn [set_capture captures]. apply find_capture_hit.
Qed.

Lemma sep_split (sep : N) (p : jsstring) : forall t X Y,
  Forall (fun c => c <> sep) p ->
  p ++ sep :: t = X ++ sep :: Y ->
  (X = p /\ Y = t) \/ (exists X', X = p ++ sep :: X' /\ t = X' ++ sep :: Y).
Proof.
  induction p as [| c p IH]; intros t X Y Hp E.
  - destruct X as [| c' X'].
    + left. now injection E as <-.
    + right. injection E as <- ->. exists X'. auto.
  - apply Forall_cons in Hp. destruct Hp as [Hc Hp].
    destruct X as [| c' X''].
    + injection E as -> _. congruence.
    + injection E as <- E. destruct (IH _ _ _ Hp E) as [[-> ->] | (X' & -> & ->)].
      * now left.
      * right. exists X'. auto.
Qed.

Lemma sep_free (sep : N) (p X Y : jsstring) :
  Forall (fun c => c <> sep) p -> p = X ++ sep :: Y -> False.
Proof.
  intros Hp ->. apply Forall_app in Hp. destruct Hp as [_ Hp].
  apply Forall_cons in Hp. destruct Hp as [Hc _]. congruence.
Qed.

Lemma domain_fold d :
  Lang true domain_pattern d <->
  exists name,
    In name marketplace_names
    /\ fold_case true d = fold_case true (js "amazon." ++ js name).
Proof.
  unfold domain_pattern. rewrite Lang_cat. unfold chars.
  rewrite LangList_chars. cbn [LangList Lang]. unfold marketplaces. split.
  - intros (u & w' & -> & Hu & w1 & w2 & -> & H & ->).
    apply Lang_alt in H; [| discriminate].
    apply Exists_exists in H. destruct H as (r & Hr & H).
    apply list_elem_of_In, in_map_iff in Hr. destruct Hr as (name & <- & Hn).
    apply Lang_lit_fold in H. exists name. split; [exact Hn |].
    rewrite app_nil_r, !fold_case_app. now rewrite Hu, H.
  - intros (name & Hn & H). rewrite fold_case_app in H.
    apply fold_case_split in H. destruct H as (u & w1 & -> & Hu & H1).
    exists u, w1. split; [reflexivity |]. split; [exact Hu |].
    exists w1, []. rewrite app_nil_r. split; [reflexivity |].
    split; [| reflexivity]. apply Lang_alt; [discriminate |].
    apply Exists_exists. exists (lit name).
    split; [apply list_elem_of_In, in_map, Hn |]. now apply Lang_lit_fold.
Qed.

Lemma fold_case_length ic s : length (fold_case ic s) = length s.
Proof. apply length_map. Qed.

Lemma domain_length d : Lang true domain_pattern d -> (9 <= length d)%nat.
Proof.
  intros H. apply domain_fold in H. destruct H as (name & Hn & H).
  apply (f_equal (@length N)) in H. rewrite !fold_case_length in H.
  rewrite H. clear H.
  cbn [marketplace_names In] in Hn.
  repeat (destruct Hn as [<- | Hn]; [vm_compute; lia |]). destruct Hn.
Qed.

(** No marketplace domain is a proper suffix of another one. *)
Lemma domain_suffix l d d' :
  Lang true domain_pattern d -> Lang true domain_pattern d' ->
  d = l ++ d' -> l = [].
Proof.
  intros Hd Hd' ->. apply domain_fold in Hd, Hd'.
  destruct Hd as (n1 & Hn1 & H1). destruct Hd' as (n2 & Hn2 & H2).
  rewrite fold_case_app, H2 in H1.
  assert (Hl : length l = 0%nat); [| now destruct l].
  rewrite <- (fold_case_length true l).
  set (C := fun n => fold_case true (js "amazon." ++ js n)) in *.
  change (fold_case true l ++ C n2 = C n1) in H1.
  assert (Hk : forallb (fun a =>
                 forallb (fun b =>
                    implb (str_eqb (drop (length (C a) - length (C b)) (C a))
                             (C b))
                          (Nat.eqb (length (C a)) (length (C b))))
                   marketplace_names) marketplace_names = true)
    by (vm_compute; reflexivity).
  rewrite forallb_forall in Hk. specialize (Hk n1 Hn1).
  rewrite forallb_forall in Hk. specialize (Hk n2 Hn2).
  assert (Hlen : length (C n1) = (length (fold_case true l) + length (C n2))%nat)
    by (rewrite <- H1; apply length_app).
  assert (Hdrop : drop (length (C n1) - length (C n2)) (C n1) = C n2).
  { replace (length (C n1) - length (C n2))%nat
      with (length (fold_case true l)) by lia.
    rewrite <- H1. apply drop_app_length. }
  rewrite Hdrop, str_eqb_refl in Hk. cbn [implb] in Hk.
  apply Nat.eqb_eq in Hk. lia.
Qed.

Lemma domain_no_slash d :
  Lang true domain_pattern d -> Forall (fun c => c <> 47) d.
Proof.
  intros H. apply domain_chars in H. eapply Forall_impl; [exact H |].
  intros c Hc E. subst c. discriminate Hc.
Qed.

Lemma asin_no_slash a : Lang true asin a -> Forall (fun c => c <> 47) a.
Proof.
  intros H. apply asin_chars in H. destruct H as [_ H].
  eapply Forall_impl; [exact H |]. intros c Hc E. subst c. discriminate Hc.
Qed.

Lemma suffix_last (h pre l : jsstring) c :
  h ++ [c] = pre ++ l -> l <> [] -> In c l.
Proof.
  intros E Hl. apply (f_equal (@rev N)) in E. rewrite !rev_app_distr in E.
  cbn [rev app] in E. destruct (rev l) as [| c' r] eqn:Er.
  - apply (f_equal (@rev N)) in Er. rewrite rev_involutive in Er. cbn in Er. congruence.
  - injection E as <- _. apply in_rev. rewrite Er. now left.
Qed.

(** In a link the rewriter has built, the rewrite pattern finds the same
    domain and the same ASIN again. *)
Lemma rewritten_link_captures d a t m2 :
  Lang true domain_pattern d -> Lang true asin a ->
  Forall (fun c => c <> 47) t ->
  exec Poller.amazonLongRegex (js "https://" ++ d ++ js "/dp/" ++ a ++ t)
  = Some m2 ->
  group 1 m2 = Some d /\ group 3 m2 = Some a.
Proof.
  intros Hd Ha Ht E.
  destruct (poller_match_text _ _ E)
    as (pre & d' & mid & mk & a' & post & Eu & G1 & G3 & Hd' & Ha').
  pose proof (domain_length _ Hd') as Hlen.
  pose proof (domain_no_slash _ Hd) as Sd.
  pose proof (domain_no_slash _ Hd') as Sd'.
  pose proof (asin_no_slash _ Ha) as Sa.
  assert (Sat : Forall (fun c => c <> 47) (a ++ t)) by now apply Forall_app.
  assert (Sdp : Forall (fun c : N => c <> 47) (js "dp"))
    by (repeat constructor; discriminate).
  assert (Sh : Forall (fun c : N => c <> 47) (js "https:"))
    by (repeat constructor; discriminate).
  assert (EL : js "https://" ++ d ++ js "/dp/" ++ a ++ t
               = js "https:" ++ 47 :: ([] ++ 47 :: (d ++ 47 :: (js "dp" ++ 47 :: (a ++ t)))))
    by reflexivity.
  assert (ER : pre ++ d' ++ [47] ++ mid ++ mk ++ [47] ++ a' ++ post
               = (pre ++ d') ++ 47 :: ((mid ++ mk) ++ 47 :: (a' ++ post))).
  { rewrite <- !app_assoc. reflexivity. }
  rewrite EL, ER in Eu. clear EL ER.
  assert (Hgoal : d' = d /\ a' = a); [| destruct Hgoal as [-> ->]; auto].
  apply sep_split in Eu; [| exact Sh].
  destruct Eu as [[Ex _] | (X1 & Ex & Eu)].
  { apply (f_equal (@length N)) in Ex. rewrite length_app in Ex.
    change (length (js "https:")) with 6%nat in Ex. lia. }
  apply sep_split in Eu; [| constructor].
  destruct Eu as [[-> _] | (X2 & -> & Eu)].
  { apply (f_equal (@length N)) in Ex. rewrite !length_app in Ex.
    change (length (js "https:")) with 6%nat in Ex. cbn [length] in Ex. lia. }
  apply sep_split in Eu; [| exact Sd].
  destruct Eu as [[-> Eu] | (X3 & -> & Eu)].
  - symmetry in Eu. apply sep_split in Eu; [| exact Sdp].
    destruct Eu as [[_ Eu] | (X4 & _ & Eu)];
      [| exfalso; exact (sep_free _ _ _ _ Sat Eu)].
    assert (Ea : a' = a).
    { apply asin_chars in Ha, Ha'. destruct Ha as [La _], Ha' as [La' _].
      destruct (app_inj_1 a' a post t) as [Ea _]; [lia | exact Eu | exact Ea]. }
    split; [| exact Ea].
    change (js "https:" ++ 47 :: [] ++ 47 :: d) with (js "https://" ++ d) in Ex.
    apply app_eq_app in Ex. destruct Ex as (l & [[-> El] | [Eh El]]).
    + pose proof (domain_suffix _ _ _ Hd Hd' El) as ->. exact (eq_sym El).
    + destruct l as [| c l]; [exact El |]. exfalso.
      assert (Hin : In 47 (c :: l)).
      { apply (suffix_last (js "https:/") pre _ 47); [exact Eh | discriminate]. }
      rewrite El in Sd'. apply Forall_app in Sd'. destruct Sd' as [Sl _].
      rewrite Forall_forall in Sl. apply (Sl 47); [| reflexivity].
      now apply list_elem_of_In.
  - exfalso. apply sep_split in Eu; [| exact Sdp].
    destruct Eu as [[_ Eu] | (X4 & _ & Eu)];
      first [ exact (sep_free _ _ _ _ Sat Eu)
            | exact (sep_free _ _ _ _ Sat (eq_sym Eu)) ].
Qed.

Lemma poller_rewrite_by_captures url tag m d a :
  tag <> [] -> exec Poller.amazonLongRegex url = Some m ->
  group 1 m = Some d -> group 3 m = Some a ->
  Poller.convertToAffiliateLink url (Some tag)
  = js "https://" ++ d ++ js "/dp/" ++ a ++ js "?tag=" ++ tag.
Proof.
  intros Ht E G1 G3. unfold Poller.convertToAffiliateLink.
  destruct tag as [| c tag]; [congruence |]. cbn [truthy negb interpolate].
  rewrite E. cbv zeta. now rewrite G1, G3.
Qed.

(** X7.  In the poller, rewriting a rewritten link replaces the tag and
    nothing else: for a valid first tag, rewriting with [tagA] and then
    with [tagB] gives what rewriting with [tagB] alone gives. *)
Theorem poller_rewrite_twice_is_once :
  forall url tagA tagB,
    isValidAmazonTag tagA = true -> tagB <> [] ->
    Poller.convertToAffiliateLink
      (Poller.convertToAffiliateLink url (Some tagA)) (Some tagB)
    = Poller.convertToAffiliateLink url (Some tagB).
Proof.
  intros url tagA tagB HA HB.
  assert (HA' : tagA <> []) by (intros ->; discriminate HA).
  destruct (exec Poller.amazonLongRegex url) as [m |] eqn:E.
  - destruct (poller_match url m E) as (d & a & G1 & G3 & Hd & Ha).
    rewrite (poller_rewrite_by_captures url tagA m d a HA' E G1 G3).
    rewrite (poller_rewrite_by_captures url tagB m d a HB E G1 G3).
    pose proof (rewritten_link_matches d a (js "?tag=" ++ tagA) Hd Ha) as Ht.
    unfold test in Ht.
    destruct (exec Poller.amazonLongRegex
                (js "https://" ++ d ++ js "/dp/" ++ a ++ js "?tag=" ++ tagA))
      as [m2 |] eqn:E2; [| discriminate].
    assert (St : Forall (fun c => c <> 47) (js "?tag=" ++ tagA)).
    { apply Forall_app. split; [repeat constructor; discriminate |].
      eapply Forall_impl; [exact (valid_tag_chars _ HA) |].
      intros c Hc Ec. subst c. discriminate Hc. }
    destruct (rewritten_link_captures d a _ m2 Hd Ha St E2) as [G1' G3'].
    exact (poller_rewrite_by_captures _ tagB m2 d a HB E2 G1' G3').
  - assert (En : Poller.convertToAffiliateLink url (Some tagA) = url).
    { unfold Poller.convertToAffiliateLink. rewrite E.
      now destruct (negb (truthy (Some tagA))). }
    now rewrite En.
Qed.

Lemma poller_rewrite_twice_is_once_witness :
  Poller.convertToAffiliateLink
    (Poller.convertToAffiliateLink tagged_url (Some (js "store-20")))
    (Some (js "shop-21"))
  = Poller.convertToAffiliateLink tagged_url (Some (js "shop-21")).
Proof.
  apply (poller_rewrite_twice_is_once tagged_url (js "store-20") (js "shop-21")).
  - reflexivity.
  - discriminate.
Defined.

(** ** What the handlers keep and what they never do *)

Ltac split_tests :=
  repeat match goal with
         | |- context [if ?b then _ else _] =>
             let E := fresh "E" in destruct b eqn:E
         | |- context [match ?o with Some _ => _ | None => _ end] =>
             let E := fresh "E" in destruct o eqn:E
         end.

Ltac unfold_handlers :=
  unfold Webhook.handler, Webhook.convert_and_reply, Poller.onMessage,
    Poller.onStart, Poller.onSetTag, Poller.resolveShortAmazonLink,
    Poller.convert_and_reply.

Ltac set_facts :=
  rewrite ?elem_of_union, ?elem_of_difference, ?elem_of_singleton.




Lemma msg_affiliate_link_inj a b :
  msg_affiliate_link a = msg_affiliate_link b -> a = b.
Proof.
  unfold msg_affiliate_link. intros E.
  apply app_inv_head in E. apply app_inv_head in E. exact E.
Qed.

Lemma link_head l t : msg_affiliate_link l = t -> take 4 t = js "Here".
Proof. intros <-. reflexivity. Qed.

Ltac link_one H :=
  first [ discriminate H
        | apply (f_equal reply_text) in H; cbn [reply_text] in H;
          first [ apply msg_affiliate_link_inj in H
                | symmetry in H; apply link_head in H; lazy in H;
                  discriminate H ] ].

Ltac link_leaf H :=
  cbn [snd app In] in H;
  lazymatch type of H with
  | False => destruct H
  | _ \/ _ => destruct H as [H | H]; [link_one H | link_leaf H]
  end.

Ltac link_found Hneq :=
  subst;
  match goal with
  | E : negb (str_eqb _ ?u) = true |- _ /\ (exists _, _ /\ ?l = _ /\ _) =>
      apply negb_true_iff in E;
      split;
      [ match goal with
        | |- truthy ?tag = true =>
            let Et := fresh "Et" in
            destruct (truthy tag) eqn:Et; [reflexivity |];
            exfalso;
            unfold Webhook.convertToAffiliateLink,
              Poller.convertToAffiliateLink in E;
            rewrite Et in E; cbn [negb] in E;
            rewrite str_eqb_refl in E; discriminate E
        end
      | exists u; split; [cbn [interpolate] in *; assumption |];
        split; [reflexivity | apply Hneq, E] ]
  end.

(** X13.  A link is sent only to a sender with a stored, non-empty tag:
    it is what the rewriter returned, for that tag, on a URL that passed
    the handler's Amazon check, and it differs from that URL. *)
Theorem links_are_sent_for_a_stored_tag_only :
  forall URL_parse client (st : BotState) (msg : Message) (c : Z)
         (l : jsstring),
    (In (SendMessage c (msg_affiliate_link l))
        (snd (Webhook.handler URL_parse client st (Some msg))) ->
     truthy (userTags st !! userId msg) = true
     /\ exists u,
          test Webhook.anyAmazonDomainRegex u = true
          /\ l = Webhook.convertToAffiliateLink URL_parse u
                   (userTags st !! userId msg)
          /\ l <> u)
    /\ (In (SendMessage c (msg_affiliate_link l))
           (snd (Poller.onMessage client st msg)) ->
        truthy (userTags st !! userId msg) = true
        /\ exists u,
             test Poller.amazonLongLinkRegex u = true
             /\ l = Poller.convertToAffiliateLink u (userTags st !! userId msg)
             /\ l <> u).
Proof.
  intros URL_parse client st msg c l.
  assert (Hneq : forall a b, str_eqb a b = false -> a <> b).
  { intros a b E ->. rewrite str_eqb_refl in E. discriminate E. }
  split.
  - unfold Webhook.handler, Webhook.convert_and_reply.
    split_tests; intros H; link_leaf H.
    all: link_found Hneq.
  - unfold_handlers.
    split_tests; intros H; link_leaf H.
    all: link_found Hneq.
Qed.

Lemma links_are_sent_for_a_stored_tag_only_witness :
  truthy (userTags registered !! userId (says "https://amazon.com/dp/B00005N5PF"))
  = true
  /\ exists u,
       test Poller.amazonLongLinkRegex u = true
       /\ product_link
          = Poller.convertToAffiliateLink u
              (userTags registered
                 !! userId (says "https://amazon.com/dp/B00005N5PF"))
       /\ product_link <> u.
Proof.
  apply (proj2 (links_are_sent_for_a_stored_tag_only parse_http offline
                  registered (says "https://amazon.com/dp/B00005N5PF") 1
                  product_link)).
  vm_compute. left. reflexivity.
Defined.

(** X14.  Validity of the store is an invariant: when every stored tag
    passes the validator, so does every tag stored after any handler has
    run. *)
Theorem stored_tags_stay_valid :
  forall URL_parse client (st : BotState) (msg : Message),
    valid_store (userTags st) ->
    valid_store
      (userTags (fst (Webhook.handler URL_parse client st (Some msg))))
    /\ valid_store (userTags (fst (Poller.onMessage client st msg)))
    /\ valid_store (userTags (fst (Poller.onStart st msg)))
    /\ valid_store (userTags (fst (Poller.onSetTag st msg))).
Proof.
  intros URL_parse client st msg Hv. unfold valid_store in *.
  unfold_handlers.
  repeat split; split_tests; cbn [fst userTags]; try exact Hv;
    (apply map_Forall_insert_2; [| exact Hv]);
    match goal with E : _ && _ = true |- _ =>
      apply andb_true_iff in E; apply E end.
Qed.

Lemma stored_tags_stay_valid_witness :
  valid_store
    (userTags (fst (Webhook.handler parse_http offline three_users
                      (Some (mkMessage 3 8 (js " shop-21 "))))))
  /\ valid_store
       (userTags (fst (Poller.onMessage offline three_users
                         (mkMessage 3 8 (js " shop-21 ")))))
  /\ valid_store (userTags (fst (Poller.onStart three_users
                                   (mkMessage 3 8 (js " shop-21 ")))))
  /\ valid_store (userTags (fst (Poller.onSetTag three_users
                                   (mkMessage 3 8 (js " shop-21 "))))).
Proof.
  apply (stored_tags_stay_valid parse_http offline three_users).
  unfold valid_store, three_users. cbn [userTags].
  apply map_Forall_insert_2; [reflexivity |].
  apply map_Forall_singleton. reflexivity.
Defined.

(** X15.  The store and its saves go together: a handler that saves,
    saves the store it leaves behind, and a handler that does not save
    leaves the store as it found it. *)
Theorem saves_follow_the_store :
  forall URL_parse client (st : BotState) (msg : Message),
    let w := Webhook.handler URL_parse client st (Some msg) in
    let p := Poller.onMessage client st msg in
    (forall tags, In (SaveUserTags tags) (snd w) -> tags = userTags (fst w))
    /\ ((forall tags, ~ In (SaveUserTags tags) (snd w)) ->
        userTags (fst w) = userTags st)
    /\ (forall tags, In (SaveUserTags tags) (snd p) -> tags = userTags (fst p))
    /\ ((forall tags, ~ In (SaveUserTags tags) (snd p)) ->
        userTags (fst p) = userTags st).
Proof.
  intros URL_parse client st msg. cbv zeta. unfold_handlers.
  repeat split; split_tests; cbn [fst snd userTags app In];
    try (intros tags H;
         repeat (destruct H as [H | H]; [congruence |]); now destruct H);
    try reflexivity;
    intros H; exfalso; eapply H; left; reflexivity.
Qed.

(** X16.  A handler touches the entries of the sender only: the stored
    tag and the tag-entry mark of every other user are as before. *)
Theorem handlers_touch_only_the_sender :
  forall URL_parse client (st : BotState) (msg : Message) (k : Z),
    k <> userId msg ->
    same_entry k st (fst (Webhook.handler URL_parse client st (Some msg)))
    /\ same_entry k st (fst (Poller.onMessage client st msg))
    /\ same_entry k st (fst (Poller.onStart st msg))
    /\ same_entry k st (fst (Poller.onSetTag st msg)).
Proof.
  intros URL_parse client st msg k Hk. unfold same_entry. unfold_handlers.
  repeat split; split_tests; cbn [fst userTags usersAwaitingTag];
    try reflexivity; try (apply lookup_insert_ne; congruence);
    set_facts; tauto.
Qed.

Lemma handlers_touch_only_the_sender_witness :
  same_entry 7 three_users
    (fst (Webhook.handler parse_http offline three_users
            (Some (mkMessage 3 8 (js " shop-21 ")))))
  /\ same_entry 7 three_users
       (fst (Poller.onMessage offline three_users
               (mkMessage 3 8 (js " shop-21 "))))
  /\ same_entry 7 three_users
       (fst (Poller.onStart three_users (mkMessage 3 8 (js " shop-21 "))))
  /\ same_entry 7 three_users
       (fst (Poller.onSetTag three_users (mkMessage 3 8 (js " shop-21 ")))).
Proof.
  apply (handlers_touch_only_the_sender parse_http offline three_users
           (mkMessage 3 8 (js " shop-21 ")) 7).
  intros H. discriminate H.
Defined.

(** X17.  Every reply goes to the chat the message came from. *)
Theorem replies_go_to_the_sender :
  forall URL_parse client (st : BotState) (msg : Message) (c : Z)
         (t : jsstring),
    In (SendMessage c t)
       (snd (Webhook.handler URL_parse client st (Some msg))
        ++ snd (Poller.onMessage client st msg)
        ++ snd (Poller.onStart st msg) ++ snd (Poller.onSetTag st msg)) ->
    c = chatId msg.
Proof.
  intros URL_parse client st msg c t. unfold_handlers. intros H.
  repeat (apply in_app_or in H; destruct H as [H | H]);
    revert H; split_tests; cbn [snd app In]; intros H;
    repeat (destruct H as [H | H]; [congruence |]); destruct H.
Qed.

Lemma replies_go_to_the_sender_witness :
  3%Z = chatId (mkMessage 3 8 (js "/settag")).
Proof.
  apply (replies_go_to_the_sender parse_http offline three_users
           (mkMessage 3 8 (js "/settag")) 3 msg_settag_prompt).
  vm_compute. left. reflexivity.
Defined.

(** X18.  What a handler answers depends on the sender's own entries
    only: two states that hold the same tag for the sender (and, in the
    poller, agree on whether the sender is in tag entry) give the same
    replies, requests and response.  The webhook's answer does not depend
    on the tag-entry marks at all: it sets them at [/settag] and never
    reads them. *)
Theorem replies_depend_on_the_sender_only :
  forall URL_parse client (st1 st2 : BotState) (msg : Message),
    userTags st1 !! userId msg = userTags st2 !! userId msg ->
    visible (snd (Webhook.handler URL_parse client st1 (Some msg)))
    = visible (snd (Webhook.handler URL_parse client st2 (Some msg)))
    /\ visible (snd (Poller.onStart st1 msg))
       = visible (snd (Poller.onStart st2 msg))
    /\ ((userId msg ∈ usersAwaitingTag st1
         <-> userId msg ∈ usersAwaitingTag st2) ->
        visible (snd (Poller.onMessage client st1 msg))
        = visible (snd (Poller.onMessage client st2 msg))).
Proof.
  intros URL_parse client st1 st2 msg H. unfold_handlers. rewrite H.
  repeat split.
  - split_tests; cbn [snd visible List.filter is_save negb app];
      rewrite ?lookup_insert_eq; reflexivity.
  - intros Ha. rewrite (bool_decide_ext _ _ Ha).
    split_tests; cbn [snd visible List.filter is_save negb app];
      rewrite ?lookup_insert_eq; reflexivity.
Qed.

Lemma replies_depend_on_the_sender_only_witness :
  visible (snd (Webhook.handler parse_http offline registered
                  (Some (says "https://amazon.com/dp/B00005N5PF"))))
  = visible (snd (Webhook.handler parse_http offline three_users
                    (Some (says "https://amazon.com/dp/B00005N5PF")))).
Proof.
  apply (replies_depend_on_the_sender_only parse_http offline registered
           three_users (says "https://amazon.com/dp/B00005N5PF")).
  vm_compute. reflexivity.
Defined.

Ltac webhook_ack :=
  solve [ exists []; eexists; split; [reflexivity | repeat constructor]
        | eexists [_]; eexists; split; [reflexivity | repeat constructor]
        | eexists [_; _]; eexists; split; [reflexivity | repeat constructor]
        | eexists [_; _; _]; eexists; split; [reflexivity | repeat constructor] ].

(** X19.  The webhook answers every update, with or without a message,
    with exactly one HTTP response, status 200, after everything else it
    does. *)
Theorem webhook_always_acknowledges :
  forall URL_parse client (st : BotState) (update : option Message),
    exists evs body,
      snd (Webhook.handler URL_parse client st update)
      = evs ++ [Respond 200 body]
      /\ Forall (fun e => is_response e = false) evs.
Proof.
  intros URL_parse client st update. unfold_handlers.
  destruct update as [msg |]; split_tests; cbn [snd app]; webhook_ack.
Qed.

Lemma http_requests_length client evs :
  (length (http_requests client evs)
   <= 11 * count_events is_axios_call evs)%nat.
Proof.
  unfold count_events, http_requests.
  induction evs as [| e evs IH]; [cbn; lia |].
  cbn [flat_map List.filter]. rewrite length_app.
  destruct e as [c t | u | tags | status body]; cbn [is_axios_call length];
    try lia.
  pose proof (requests_from_length client 10 (request_url client u)) as Hb.
  fold (axios_requests client 10 u) in Hb. lia.
Qed.

(** X20.  The message handlers never stay silent and never flood: for
    each message they call [sendMessage] once or twice and [axios.get] at
    most once, so that resolving makes at most 11 GET requests, redirects
    included. *)
Theorem every_message_is_answered :
  forall URL_parse client (st : BotState) (msg : Message),
    let w := snd (Webhook.handler URL_parse client st (Some msg)) in
    let p := snd (Poller.onMessage client st msg) in
    (1 <= count_events is_reply w <= 2)%nat
    /\ (count_events is_axios_call w <= 1)%nat
    /\ (length (http_requests client w) <= 11)%nat
    /\ (1 <= count_events is_reply p <= 2)%nat
    /\ (count_events is_axios_call p <= 1)%nat
    /\ (length (http_requests client p) <= 11)%nat.
Proof.
  intros URL_parse client st msg w p.
  assert (Hw : (count_events is_axios_call w <= 1)%nat).
  { subst w. unfold_handlers. unfold count_events.
    split_tests; cbn; lia. }
  assert (Hp : (count_events is_axios_call p <= 1)%nat).
  { subst p. unfold_handlers. unfold count_events.
    split_tests; cbn; lia. }
  pose proof (http_requests_length client w) as Lw.
  pose proof (http_requests_length client p) as Lp.
  split; [| split; [exact Hw | split; [lia | split; [| split; [exact Hp | lia]]]]].
  - subst w. unfold_handlers. unfold count_events.
    split; split_tests; cbn; lia.
  - subst p. unfold_handlers. unfold count_events.
    split; split_tests; cbn; lia.
Qed.

(** ** Flows through the handlers *)

Lemma drop_while_last p l x :
  p x = false -> drop_while p (l ++ [x]) = drop_while p l ++ [x].
Proof.
  intros Hx. induction l as [| c l IH]; cbn [app drop_while].
  - now rewrite Hx.
  - destruct (p c); [exact IH | reflexivity].
Qed.

Lemma trim_head c s : is_space c = false -> exists t, trim (c :: s) = c :: t.
Proof.
  intros Hc. unfold trim, trim_start, trim_end. cbn [drop_while]. rewrite Hc.
  cbn [rev]. rewrite (drop_while_last _ _ _ Hc), rev_app_distr. cbn [rev app].
  eauto.
Qed.

(** A text whose trimmed form is a valid tag is no command and carries no
    URL. *)
Lemma tag_text_is_plain raw :
  isValidAmazonTag (trim raw) = true ->
  startsWith raw (js "/") = false /\ exec urlRegex raw = None.
Proof.
  intros Hv. split.
  - destruct raw as [| c s]; [reflexivity |].
    change (js "/") with [47]. cbn [startsWith]. rewrite andb_true_r.
    destruct (N.eqb_spec 47 c) as [<- | Hne]; [| reflexivity]. exfalso.
    destruct (trim_head 47 s eq_refl) as (t & Et). rewrite Et in Hv.
    apply isValidAmazonTag_TagWord in Hv.
    destruct (TagWord_chars _ 47 Hv (or_introl eq_refl)) as [H | H];
      discriminate H.
  - destruct (exec urlRegex raw) as [m |] eqn:E; [| reflexivity].
    apply url_text_is_not_tag in E. congruence.
Qed.

(** X9.  In the webhook a stored tag is never replaced.  Whatever the
    message, the store of a sender who has a tag stays as it is; after
    [/settag] a new valid tag is handled like any text without a URL. *)
Theorem webhook_never_replaces_a_tag :
  forall URL_parse client (st : BotState) (msg : Message),
    truthy (userTags st !! userId msg) = true ->
    userTags (fst (Webhook.handler URL_parse client st (Some msg)))
    = userTags st
    /\ (isValidAmazonTag (trim (text msg)) = true ->
        forall c : Z,
          let st1 := fst (Webhook.handler URL_parse client st
                            (Some (mkMessage c (userId msg) (js "/settag")))) in
          Webhook.handler URL_parse client st1 (Some msg)
          = (st1, [SendMessage (chatId msg) Webhook.msg_no_url;
                   Respond 200 (js "No URL found")])
          /\ userTags st1 = userTags st).
Proof.
  intros URL_parse client st msg Ht. split.
  - unfold Webhook.handler. rewrite Ht. cbn [negb andb].
    split_tests; reflexivity.
  - intros Hv c. cbv zeta.
    destruct (tag_text_is_plain _ Hv) as [Hc Hu].
    change (fst (Webhook.handler URL_parse client st
                   (Some (mkMessage c (userId msg) (js "/settag")))))
      with (mkBot (userTags st) ({[userId msg]} ∪ usersAwaitingTag st)).
    split; [| reflexivity].
    unfold Webhook.handler. cbn [userTags].
    rewrite (not_command_not_settag _ Hc), Ht, Hc, Hu. reflexivity.
Qed.

Lemma webhook_never_replaces_a_tag_witness :
  userTags (fst (Webhook.handler parse_http offline registered
                   (Some (says "shop-21"))))
  = userTags registered.
Proof.
  apply (webhook_never_replaces_a_tag parse_http offline registered
           (says "shop-21")).
  reflexivity.
Defined.

(** X10.  While the sender is in tag entry, the poller's message handler
    takes every command and every message that carries a URL for a failed
    tag attempt: it answers with the invalid-tag text, stores nothing,
    requests nothing, and the sender stays in tag entry. *)
Theorem tag_entry_rejects_commands_and_links :
  forall client (st : BotState) (msg : Message),
    userId msg ∈ usersAwaitingTag st ->
    startsWith (text msg) (js "/") = true
    \/ is_Some (exec urlRegex (text msg)) ->
    Poller.onMessage client st msg
    = (st, [SendMessage (chatId msg) Poller.msg_invalid_tag]).
Proof.
  intros client st msg Ha Hc. unfold Poller.onMessage.
  rewrite (bool_decide_eq_true_2 _ Ha).
  destruct (isValidAmazonTag (trim (text msg))) eqn:Ev.
  - exfalso. destruct (tag_text_is_plain _ Ev) as [Hs Hu].
    destruct Hc as [Hc | [m Hc]]; congruence.
  - now rewrite andb_false_r.
Qed.

Lemma tag_entry_rejects_commands_and_links_witness :
  Poller.onMessage offline awaiting (says "https://amazon.com/dp/B00005N5PF")
  = (awaiting,
     [SendMessage (chatId (says "https://amazon.com/dp/B00005N5PF"))
        Poller.msg_invalid_tag]).
Proof.
  apply (tag_entry_rejects_commands_and_links offline awaiting
           (says "https://amazon.com/dp/B00005N5PF")).
  - reflexivity.
  - right. vm_compute. eexists. reflexivity.
Defined.

(** X11.  Replacing a tag in the poller, end to end: after [/settag] and
    a message whose trimmed text is a valid tag, that tag is the sender's
    stored tag, whatever was stored before, the sender is out of tag
    entry, and a product link sent next is answered with
    [https://{domain}/dp/{ASIN}?tag={tag}] (with the could-not-convert
    text when the link sent is that very string). *)
Theorem poller_settag_flow :
  forall client (st : BotState) (c uid : Z)
         (command raw link_text : jsstring) (m : MatchResult),
    isValidAmazonTag (trim raw) = true ->
    startsWith link_text (js "/") = false ->
    exec urlRegex link_text = Some m ->
    test Poller.amazonShortLinkRegex (matched m) = false ->
    test Poller.amazonLongLinkRegex (matched m) = true ->
    let st1 := fst (Poller.onSetTag st (mkMessage c uid command)) in
    let st2 := fst (Poller.onMessage client st1 (mkMessage c uid raw)) in
    userTags st2 !! uid = Some (trim raw)
    /\ (uid ∉ usersAwaitingTag st2)
    /\ exists d a,
         Lang true domain_pattern d /\ Lang true asin a
         /\ let link := js "https://" ++ d ++ js "/dp/" ++ a
                        ++ js "?tag=" ++ trim raw in
            Poller.onMessage client st2 (mkMessage c uid link_text)
            = (st2, [SendMessage c
                       (if str_eqb link (matched m)
                        then Poller.msg_not_converted
                        else msg_affiliate_link link)]).
Proof.
  intros client st c uid command raw link_text m Hv Hc Hm Hs Hl. cbv zeta.
  assert (Hne : trim raw <> []) by (intros E; rewrite E in Hv; discriminate Hv).
  assert (E2 : fst (Poller.onMessage client
                      (fst (Poller.onSetTag st (mkMessage c uid command)))
                      (mkMessage c uid raw))
               = mkBot (<[uid := trim raw]> (userTags st))
                   (({[uid]} ∪ usersAwaitingTag st) ∖ {[uid]})).
  { unfold Poller.onSetTag, Poller.onMessage.
    cbn [fst userId text userTags usersAwaitingTag].
    rewrite bool_decide_eq_true_2 by (set_facts; tauto).
    now rewrite Hv, (valid_tag_nonempty _ Hv). }
  rewrite E2. cbn [userTags usersAwaitingTag].
  split; [apply lookup_insert_eq |]. split; [set_facts; tauto |].
  destruct (classified_link_shape (matched m) (trim raw) Hne Hl)
    as (d & a & Hd & Ha & Hr).
  exists d, a. split; [exact Hd |]. split; [exact Ha |].
  unfold Poller.onMessage.
  cbn [userId text chatId userTags usersAwaitingTag].
  rewrite bool_decide_eq_false_2 by (set_facts; tauto).
  rewrite Hc, Hm. cbv zeta. rewrite Hs, Hl.
  unfold Poller.convert_and_reply. cbn [userId chatId userTags].
  rewrite lookup_insert_eq, Hr.
  now destruct (str_eqb _ (matched m)).
Qed.

Lemma poller_settag_flow_witness :
  userTags
    (fst (Poller.onMessage offline
            (fst (Poller.onSetTag registered (mkMessage 1 7 (js "/settag"))))
            (mkMessage 1 7 (js " shop-21 ")))) !! 7%Z
  = Some (trim (js " shop-21 ")).
Proof.
  eassert (Em : exec urlRegex (js "look: https://www.amazon.de/x/dp/B00005N5PF?th=1")
                = Some _) by (vm_compute; reflexivity).
  refine (proj1 (poller_settag_flow offline registered 1 7 (js "/settag")
                   (js " shop-21 ")
                   (js "look: https://www.amazon.de/x/dp/B00005N5PF?th=1")
                   _ _ _ Em _ _)).
  - vm_compute. reflexivity.
  - reflexivity.
  - vm_compute. reflexivity.
  - vm_compute. reflexivity.
Defined.

(** A URL the handler classifies as a product link has a match of the
    rewriter's pattern. *)
Lemma classified_link_match u :
  test Poller.amazonLongLinkRegex u = true ->
  exists mm, exec Poller.amazonLongRegex u = Some mm.
Proof.
  intros H. apply test_true_elim in H.
  destruct H as (pre & w & post & -> & HL).
  apply long_patterns_same_language in HL.
  pose proof (test_true_intro Poller.amazonLongRegex _ pre w post eq_refl
                eq_refl HL) as Hm.
  unfold test in Hm.
  destruct (exec Poller.amazonLongRegex (pre ++ w ++ post)) as [mm |];
    [eauto | discriminate].
Qed.

(** X12.  A link that has to be resolved, end to end.  [axios.get] is
    called with the extracted URL; when the redirect chain from its first
    request lands, within 10 redirects, on a request that is answered
    2xx, the reply is built from the landed URL (the client's response
    URL), not from the link that was sent.  The webhook does this for any
    URL that fails its Amazon check and lands on one that passes it, and
    sends its rewrite of the landed URL.  The poller does it for a URL
    that passes its short-link check and lands on a product link, and
    sends [https://{domain}/dp/{ASIN}?tag={tag}] with the domain and the
    ASIN its product pattern captures in the landed URL. *)
Theorem resolved_link_flow :
  forall URL_parse client (st : BotState) (msg : Message)
         (m : MatchResult) (tag landed : jsstring) (k : nat),
    userTags st !! userId msg = Some tag -> tag <> [] ->
    startsWith (text msg) (js "/") = false ->
    exec urlRegex (text msg) = Some m ->
    (k <= 10)%nat ->
    Lands client k (request_url client (matched m)) landed ->
    is_success (respond client landed) = true -> landed <> [] ->
    (test Webhook.anyAmazonDomainRegex (matched m) = false ->
     test Webhook.anyAmazonDomainRegex landed = true ->
     let link := Webhook.convertToAffiliateLink URL_parse landed (Some tag) in
     Webhook.handler URL_parse client st (Some msg)
     = (st, [SendMessage (chatId msg) Webhook.msg_detecting;
             AxiosGet (matched m);
             SendMessage (chatId msg)
               (if str_eqb link landed then Webhook.msg_not_converted
                else msg_affiliate_link link);
             Respond 200 (js "Update processed")]))
    /\ (userId msg ∉ usersAwaitingTag st ->
        test Poller.amazonShortLinkRegex (matched m) = true ->
        test Poller.amazonLongLinkRegex landed = true ->
        let link := Poller.convertToAffiliateLink landed (Some tag) in
        Poller.onMessage client st msg
        = (st, [SendMessage (chatId msg) Poller.msg_detecting;
                AxiosGet (matched m);
                SendMessage (chatId msg)
                  (if str_eqb link landed then Poller.msg_not_converted
                   else msg_affiliate_link link)])
        /\ exists mm d a,
             exec Poller.amazonLongRegex landed = Some mm
             /\ group 1 mm = Some d /\ group 3 mm = Some a
             /\ Lang true domain_pattern d /\ Lang true asin a
             /\ link = js "https://" ++ d ++ js "/dp/" ++ a
                       ++ js "?tag=" ++ tag).
Proof.
  intros URL_parse client st msg m tag landed k
    Ht Hne Hc Hm Hk Hland Hok Hl.
  assert (Hr : axios_get client 10 (matched m) = Some landed)
    by (apply axios_get_Some; eauto).
  assert (Htr : truthy (Some tag) = true)
    by (destruct tag; [congruence | reflexivity]).
  assert (Hlr : truthy (Some landed) = true)
    by (destruct landed; [congruence | reflexivity]).
  split.
  - intros Hna Ha. cbv zeta. unfold Webhook.handler.
    rewrite (not_command_not_settag _ Hc), Ht, Htr, Hc, Hm. cbv zeta.
    rewrite Hna. unfold Webhook.resolveUrl. rewrite Hr, Hlr.
    cbn [negb andb interpolate]. rewrite Ha.
    unfold Webhook.convert_and_reply. rewrite Hlr, Ht. cbn [interpolate app].
    now destruct (str_eqb _ landed).
  - intros Hna Hs Hlong. cbv zeta. split.
    + unfold Poller.onMessage.
      rewrite (bool_decide_eq_false_2 _ Hna), Hc, Hm. cbv zeta. rewrite Hs.
      unfold Poller.resolveShortAmazonLink.
      change (test Poller.shortLinkRegex (matched m))
        with (test Poller.amazonShortLinkRegex (matched m)).
      rewrite Hs. cbn [negb]. rewrite Hr, Hlr. cbn [interpolate]. rewrite Hlong.
      unfold Poller.convert_and_reply. rewrite Ht. cbn [app].
      now destruct (str_eqb _ landed).
    + destruct (classified_link_match landed Hlong) as (mm & E).
      destruct (poller_match_text _ _ E)
        as (pre & d & mid & mk & a & post & _ & G1 & G3 & Hd & Ha).
      exists mm, d, a. repeat (split; [assumption |]).
      exact (poller_rewrite_by_captures landed tag mm d a Hne E G1 G3).
Qed.

(** A short link that redirects once, to a product page: both the
    webhook and the poller answer with a link built from the page. *)
Lemma resolved_link_flow_witness :
  Webhook.handler parse_http redirecting registered
    (Some (says "see https://amzn.to/3xYz now"))
  = (registered,
     [SendMessage 1 Webhook.msg_detecting;
      AxiosGet short_url;
      SendMessage 1
        (msg_affiliate_link
           (js "https://www.amazon.com/gp/product/B00005N5PF?th=1&tag=store-20"));
      Respond 200 (js "Update processed")])
  /\ Poller.onMessage redirecting registered (says "see https://amzn.to/3xYz now")
     = (registered,
        [SendMessage 1 Poller.msg_detecting;
         AxiosGet short_url;
         SendMessage 1
           (msg_affiliate_link
              (js "https://amazon.com/dp/B00005N5PF?tag=store-20"))]).
Proof.
  eassert (Em : exec urlRegex (text (says "see https://amzn.to/3xYz now"))
                = Some _) by (vm_compute; reflexivity).
  assert (Ht : userTags registered !! userId (says "see https://amzn.to/3xYz now")
               = Some (js "store-20")) by (vm_compute; reflexivity).
  assert (Hl : Lands redirecting 1 (request_url redirecting short_url)
                 landed_url).
  { split; [| reflexivity].
    eapply (Hops_next redirecting); [vm_compute; reflexivity |].
    apply (Hops_here redirecting). }
  lazymatch type of Em with
  | _ = Some ?m =>
      destruct (resolved_link_flow parse_http redirecting registered
                  (says "see https://amzn.to/3xYz now") m
                  (js "store-20") landed_url 1 Ht) as [Hw Hp];
      [discriminate | reflexivity | exact Em | lia | exact Hl | reflexivity
      | discriminate |]
  end.
  split.
  - rewrite Hw; vm_compute; reflexivity.
  - destruct Hp as [Hp _].
    + vm_compute. intros H. discriminate H.
    + vm_compute. reflexivity.
    + vm_compute. reflexivity.
    + rewrite Hp. vm_compute. reflexivity.
Defined.

(** ** State changes, failures and fixed points *)

(** X21.  The tag store changes only by a tag capture.  The webhook's
    handler leaves the store as it is unless the sender has no stored tag,
    the text is no command and its trimmed form is a valid tag, which is
    then stored for the sender.  The poller's message handler leaves the
    whole state as it is unless the sender is in tag entry and the trimmed
    text is a valid tag, which is then stored and ends the tag entry. *)
Theorem store_changes_only_by_tag_capture :
  forall URL_parse client (st : BotState) (msg : Message),
    let w := fst (Webhook.handler URL_parse client st (Some msg)) in
    let p := fst (Poller.onMessage client st msg) in
    (userTags w = userTags st
     \/ (truthy (userTags st !! userId msg) = false
         /\ startsWith (text msg) (js "/") = false
         /\ isValidAmazonTag (trim (text msg)) = true
         /\ userTags w = <[userId msg := trim (text msg)]> (userTags st)))
    /\ (p = st
        \/ (userId msg ∈ usersAwaitingTag st
            /\ isValidAmazonTag (trim (text msg)) = true
            /\ p = mkBot (<[userId msg := trim (text msg)]> (userTags st))
                     (usersAwaitingTag st ∖ {[userId msg]}))).
Proof.
  intros URL_parse client st msg. cbv zeta. unfold_handlers. split.
  - destruct (str_eqb (text msg) (js "/settag")); [now left |].
    destruct (truthy (userTags st !! userId msg)) eqn:Et;
      destruct (startsWith (text msg) (js "/")) eqn:Es; cbn [negb andb];
      try (left; split_tests; reflexivity).
    destruct (isValidAmazonTag (trim (text msg))) eqn:Ev.
    + rewrite (valid_tag_nonempty _ Ev). cbn [negb andb fst userTags].
      right. auto.
    + rewrite andb_false_r. now left.
  - destruct (bool_decide (userId msg ∈ usersAwaitingTag st)) eqn:Ea.
    + apply bool_decide_eq_true in Ea.
      destruct (isValidAmazonTag (trim (text msg))) eqn:Ev.
      * rewrite (valid_tag_nonempty _ Ev). cbn [negb andb fst]. right. auto.
      * rewrite andb_false_r. now left.
    + left. split_tests; reflexivity.
Qed.

(** X22.  A link that cannot be resolved: when the redirect chain from
    the first request for the extracted URL ends, within 10 redirects, in
    a network error or in a response outside 2xx, or does not end within
    10 redirects, the handler says that it could not resolve the link and
    does nothing else (the webhook for a URL that fails its Amazon check,
    the poller for a URL that passes its short-link check). *)
Theorem unresolved_link_flow :
  forall URL_parse client (st : BotState) (msg : Message) (m : MatchResult),
    startsWith (text msg) (js "/") = false ->
    exec urlRegex (text msg) = Some m ->
    (exists k f, (k <= 10)%nat
                 /\ Lands client k (request_url client (matched m)) f
                 /\ is_success (respond client f) = false)
    \/ (exists u, Hops client 11 (request_url client (matched m)) u) ->
    (truthy (userTags st !! userId msg) = true ->
     test Webhook.anyAmazonDomainRegex (matched m) = false ->
     Webhook.handler URL_parse client st (Some msg)
     = (st, [SendMessage (chatId msg) Webhook.msg_detecting;
             AxiosGet (matched m);
             SendMessage (chatId msg) Webhook.msg_unresolved;
             Respond 200 (js "Link resolution failed")]))
    /\ (userId msg ∉ usersAwaitingTag st ->
        test Poller.amazonShortLinkRegex (matched m) = true ->
        Poller.onMessage client st msg
        = (st, [SendMessage (chatId msg) Poller.msg_detecting;
                AxiosGet (matched m);
                SendMessage (chatId msg) Poller.msg_unresolved])).
Proof.
  intros URL_parse client st msg m Hc Hm Hfail.
  assert (Hr : axios_get client 10 (matched m) = None)
    by (apply axios_get_None; exact Hfail).
  split.
  - intros Ht Hna. unfold Webhook.handler.
    rewrite (not_command_not_settag _ Hc), Ht, Hc, Hm. cbv zeta.
    rewrite Hna. unfold Webhook.resolveUrl. rewrite Hr. reflexivity.
  - intros Hna Hs. unfold Poller.onMessage.
    rewrite (bool_decide_eq_false_2 _ Hna), Hc, Hm. cbv zeta. rewrite Hs.
    unfold Poller.resolveShortAmazonLink.
    change (test Poller.shortLinkRegex (matched m))
      with (test Poller.amazonShortLinkRegex (matched m)).
    rewrite Hs. cbn [negb]. rewrite Hr. reflexivity.
Qed.

Lemma unresolved_link_flow_witness :
  Poller.onMessage offline registered (says "see https://amzn.to/3xYz now")
  = (registered,
     [SendMessage (chatId (says "see https://amzn.to/3xYz now"))
        Poller.msg_detecting;
      AxiosGet short_url;
      SendMessage (chatId (says "see https://amzn.to/3xYz now"))
        Poller.msg_unresolved]).
Proof.
  eassert (Em : exec urlRegex (text (says "see https://amzn.to/3xYz now"))
                = Some _) by (vm_compute; reflexivity).
  lazymatch type of Em with
  | _ = Some ?m =>
      apply (proj2 (unresolved_link_flow parse_http offline registered
                      (says "see https://amzn.to/3xYz now") m eq_refl Em
                      (or_introl
                         (ex_intro _ 0%nat
                            (ex_intro _ short_url
                               (conj (Nat.le_0_l 10)
                                  (conj (conj (Hops_here offline
                                                 (request_url offline short_url))
                                           eq_refl)
                                     eq_refl)))))))
  end.
  - vm_compute. intros H. discriminate H.
  - vm_compute. reflexivity.
Defined.

Lemma link_char_not_space c :
  is_tag_char c = true \/ is_domain_char c = true
  \/ In c (js "https://dp/tag=") ->
  is_space c = false.
Proof.
  intros H. destruct (plain_char_facts c H) as (Hb & _).
  pose proof (check_below
    (fun c => implb (is_tag_char c || is_domain_char c
                     || existsb (N.eqb c) (js "https://dp/tag="))
                (negb (is_space c)))
    128 eq_refl c Hb) as Hk.
  cbv beta in Hk.
  assert (Hp : is_tag_char c || is_domain_char c
               || existsb (N.eqb c) (js "https://dp/tag=") = true).
  { destruct H as [H | [H | H]].
    - now rewrite H.
    - rewrite H. now rewrite orb_true_r.
    - apply orb_true_iff. right. apply existsb_exists. exists c.
      split; [exact H | apply N.eqb_refl]. }
  rewrite Hp in Hk. cbn [implb] in Hk. now apply negb_true_iff in Hk.
Qed.

Lemma exec_url_at s u :
  url_at s = Some u -> exec urlRegex s = Some (mkResult 0 u [(1%nat, u)]).
Proof.
  intros Hu. unfold exec.
  assert (E : compile false (pattern urlRegex) (mkState 0 s []) Some
              = Some (mkState (0 + length u) (drop (length u) s) [(1%nat, u)]))
    by (rewrite compile_url, Hu; reflexivity).
  destruct s as [| c s]; cbn [exec_from];
    change (ignoreCase urlRegex) with false; rewrite E;
    cbn [endIndex captures]; rewrite Nat.sub_0_r; f_equal; f_equal;
    apply url_at_Some in Hu;
    destruct Hu as (scheme & body & post & _ & _ & Es & _);
    rewrite Es; apply take_app_length.
Qed.

(** A link the poller's rewriter has built is extracted whole. *)
Lemma rewritten_link_extracted d a t :
  Lang true domain_pattern d -> Lang true asin a ->
  Forall (fun c => is_tag_char c = true) t ->
  let link := js "https://" ++ d ++ js "/dp/" ++ a ++ js "?tag=" ++ t in
  exec urlRegex link = Some (mkResult 0 link [(1%nat, link)]).
Proof.
  intros Hd Ha Ht link. apply exec_url_at. apply url_at_Some.
  exists (js "https://"), (d ++ js "/dp/" ++ a ++ js "?tag=" ++ t), [].
  split; [now right |]. split; [reflexivity |].
  split; [now rewrite app_nil_r |].
  split.
  { apply domain_length in Hd. destruct d; [simpl in Hd; lia | discriminate]. }
  split; [| discriminate].
  assert (Hlit : forall s, (forall c, In c (js s) -> In c (js "https://dp/tag=")) ->
                   Forall (fun c => is_space c = false) (js s)).
  { intros s Hs. apply List.Forall_forall. intros c Hc.
    apply link_char_not_space. right. right. now apply Hs. }
  apply Forall_app. split.
  { eapply Forall_impl; [exact (domain_chars _ Hd) |]. intros c Hc.
    apply link_char_not_space. now right; left. }
  apply Forall_app. split.
  { apply Hlit. intros c Hc. cbn in *. tauto. }
  apply Forall_app. split.
  { apply asin_chars in Ha. destruct Ha as [_ Ha].
    eapply Forall_impl; [exact Ha |]. intros c Hc. cbv beta in Hc.
    apply link_char_not_space. left. unfold is_tag_char. now rewrite Hc. }
  apply Forall_app. split.
  { apply List.Forall_forall. intros c Hc. cbn in Hc.
    repeat (destruct Hc as [<- | Hc]; [reflexivity |]). contradiction. }
  eapply Forall_impl; [exact Ht |]. intros c Hc.
  apply link_char_not_space. now left.
Qed.

Lemma fold_case_no_slash s :
  Forall (fun c => c <> 47) s -> Forall (fun c => c <> 47) (fold_case true s).
Proof.
  intros H. unfold fold_case. apply Forall_map.
  eapply Forall_impl; [exact H |]. intros c Hc. cbv beta. revert Hc.
  unfold Canonicalize, in_range. cbn [andb].
  decide_tests; cbn; intros; lia.
Qed.

(** A word that ends in a separator and occurs in [K ++ A], where [A]
    has no separator, occurs in [K]. *)
Lemma needle_in_head (sep : N) (K A X W post : jsstring) :
  Forall (fun c => c <> sep) A ->
  K ++ A = X ++ (W ++ [sep]) ++ post ->
  includes K (W ++ [sep]) = true.
Proof.
  intros HA E. apply includes_spec.
  rewrite app_assoc in E. apply app_eq_app in E.
  destruct E as (l & [[EK _] | [EX EA]]).
  - exists X, l. now rewrite EK, <- app_assoc.
  - destruct l as [| c l].
    + rewrite app_nil_r in EX. exists X, []. now rewrite app_nil_r.
    + exfalso.
      assert (Hin : In sep (c :: l)).
      { rewrite app_assoc in EX.
        apply (suffix_last (X ++ W) K (c :: l) sep EX). discriminate. }
      rewrite EA in HA. apply Forall_app in HA. destruct HA as [HA _].
      rewrite Forall_forall in HA. apply (HA sep); [| reflexivity].
      now apply list_elem_of_In.
Qed.

(** A link the poller's rewriter has built is no short link. *)
Lemma rewritten_link_is_not_short d a t :
  Lang true domain_pattern d -> Lang true asin a ->
  Forall (fun c => is_tag_char c = true) t ->
  test Poller.amazonShortLinkRegex
    (js "https://" ++ d ++ js "/dp/" ++ a ++ js "?tag=" ++ t) = false.
Proof.
  intros Hd Ha Ht.
  destruct (test Poller.amazonShortLinkRegex _) eqn:E; [exfalso | reflexivity].
  rewrite (test_word_choice Poller.amazonShortLinkRegex "" 1
             ["amzn.to"; "a.co"; "amzn-to.co"; "amazon.in/gp/product"]%string
             "/" _) in E; [| discriminate | reflexivity].
  apply existsb_exists in E. destruct E as (h & Hh & Hinc).
  cbn [ignoreCase Poller.amazonShortLinkRegex] in Hinc.
  apply includes_spec in Hinc. destruct Hinc as (pre & post & EL).
  apply domain_fold in Hd. destruct Hd as (name & Hn & HD).
  assert (Htail : Forall (fun c => c <> 47)
                    (fold_case true (a ++ js "?tag=" ++ t))).
  { apply fold_case_no_slash. apply Forall_app. split.
    - now apply asin_no_slash.
    - apply Forall_app. split; [repeat constructor; discriminate |].
      eapply Forall_impl; [exact Ht |]. intros c Hc Ec. subst c.
      discriminate Hc. }
  assert (EK : fold_case true (js "https://" ++ d ++ js "/dp/" ++ a
                               ++ js "?tag=" ++ t)
               = fold_case true (js "https://" ++ (js "amazon." ++ js name)
                                 ++ js "/dp/")
                 ++ fold_case true (a ++ js "?tag=" ++ t)).
  { rewrite !fold_case_app. rewrite HD. rewrite !fold_case_app.
    now rewrite <- !app_assoc. }
  rewrite EK in EL. clear EK.
  assert (Hk : forallb (fun name =>
                 forallb (fun h =>
                   negb (includes
                           (fold_case true (js "https://"
                                            ++ (js "amazon." ++ js name)
                                            ++ js "/dp/"))
                           (fold_case true (js "" ++ js h ++ js "/"))))
                   ["amzn.to"; "a.co"; "amzn-to.co"; "amazon.in/gp/product"]%string)
                 marketplace_names = true)
    by (vm_compute; reflexivity).
  rewrite forallb_forall in Hk. specialize (Hk name Hn).
  rewrite forallb_forall in Hk. specialize (Hk h Hh).
  apply negb_true_iff in Hk.
  assert (EW : fold_case true (js "" ++ js h ++ js "/")
               = fold_case true (js h) ++ [47]).
  { change (js "") with (@nil N). cbn [app]. now rewrite fold_case_app. }
  rewrite EW in EL, Hk.
  rewrite (needle_in_head 47 _ _ pre _ post Htail EL) in Hk. discriminate Hk.
Qed.

(** X23.  The poller does not convert its own output again: when a
    sender who is not in tag entry sends back, as the whole text, the link
    the rewriter builds for a product link and the sender's stored (valid)
    tag, the link is extracted whole, is classified as a product link,
    rewrites to itself, and is answered with the could-not-convert
    text. *)
Theorem poller_answers_its_own_link :
  forall client (st : BotState) (msg : Message) (url tag : jsstring),
    userTags st !! userId msg = Some tag ->
    isValidAmazonTag tag = true ->
    userId msg ∉ usersAwaitingTag st ->
    test Poller.amazonLongLinkRegex url = true ->
    text msg = Poller.convertToAffiliateLink url (Some tag) ->
    Poller.onMessage client st msg
    = (st, [SendMessage (chatId msg) Poller.msg_not_converted]).
Proof.
  intros client st msg url tag Ht Hv Hna Hl Etext.
  assert (Hne : tag <> []) by (intros ->; discriminate Hv).
  pose proof (valid_tag_chars _ Hv) as Hch.
  destruct (classified_link_shape url tag Hne Hl) as (d & a & Hd & Ha & Hr).
  rewrite Hr in Etext. clear Hr.
  pose proof (rewritten_link_extracted d a tag Hd Ha Hch) as Hx.
  cbv zeta in Hx.
  pose proof (rewritten_link_is_not_short d a tag Hd Ha Hch) as Hs.
  pose proof (rewritten_link_matches d a (js "?tag=" ++ tag) Hd Ha) as Hm.
  assert (Hlong : test Poller.amazonLongLinkRegex
                    (js "https://" ++ d ++ js "/dp/" ++ a ++ js "?tag=" ++ tag)
                  = true).
  { apply test_true_elim in Hm. destruct Hm as (pre & w & post & E & HL).
    apply long_patterns_same_language in HL.
    apply (test_true_intro Poller.amazonLongLinkRegex _ pre w post eq_refl E HL). }
  unfold test in Hm.
  destruct (exec Poller.amazonLongRegex
              (js "https://" ++ d ++ js "/dp/" ++ a ++ js "?tag=" ++ tag))
    as [m2 |] eqn:E2; [| discriminate].
  assert (St : Forall (fun c => c <> 47) (js "?tag=" ++ tag)).
  { apply Forall_app. split; [repeat constructor; discriminate |].
    eapply Forall_impl; [exact Hch |]. intros c Hc Ec. subst c.
    discriminate Hc. }
  destruct (rewritten_link_captures d a _ m2 Hd Ha St E2) as [G1 G3].
  pose proof (poller_rewrite_by_captures _ tag m2 d a Hne E2 G1 G3) as Hfix.
  unfold Poller.onMessage.
  rewrite (bool_decide_eq_false_2 _ Hna), Etext.
  change (startsWith (js "https://" ++ d ++ js "/dp/" ++ a ++ js "?tag=" ++ tag)
            (js "/")) with false.
  rewrite Hx. cbv zeta. cbn [matched]. rewrite Hs, Hlong.
  unfold Poller.convert_and_reply. rewrite Ht, Hfix, str_eqb_refl.
  reflexivity.
Qed.

Lemma poller_answers_its_own_link_witness :
  Poller.onMessage offline registered
    (mkMessage 1 7 (js "https://amazon.com/dp/B00005N5PF?tag=store-20"))
  = (registered, [SendMessage 1 Poller.msg_not_converted]).
Proof.
  apply (poller_answers_its_own_link offline registered
           (mkMessage 1 7 (js "https://amazon.com/dp/B00005N5PF?tag=store-20"))
           tagged_url (js "store-20")).
  - vm_compute. reflexivity.
  - reflexivity.
  - vm_compute. intros H. discriminate H.
  - vm_compute. reflexivity.
  - vm_compute. reflexivity.
Defined.

Lemma join_last sep xs y :
  join sep (xs ++ [y])
  = match xs with [] => y | _ => join sep xs ++ sep ++ y end.
Proof.
  induction xs as [| x xs IH]; [reflexivity |].
  destruct xs as [| x' xs]; [reflexivity |].
  change (join sep ((x :: x' :: xs) ++ [y]))
    with (x ++ sep ++ join sep ((x' :: xs) ++ [y])).
  rewrite IH. change (join sep (x :: x' :: xs))
    with (x ++ sep ++ join sep (x' :: xs)).
  now rewrite <- !app_assoc.
Qed.

Lemma usv_tag t : Forall (fun c => is_tag_char c = true) t -> usv t = t.
Proof.
  intros H. destruct (tag_chars_scalar t H) as (cps & Hc & ->).
  unfold usv. now rewrite scalar_to_of.
Qed.

(** X24.  The webhook writes a valid tag into the link as it is: for a
    URL the platform parses, the new query is the kept parameters,
    serialised, followed by [&tag=] and the tag, or [tag=] and the tag
    alone when no parameter is kept; nothing of a valid tag is
    percent-encoded. *)
Theorem valid_tag_is_written_verbatim :
  forall (URL_parse : jsstring -> option URL) (url tag : jsstring) (u : URL),
    URL_parse url = Some u ->
    isValidAmazonTag tag = true ->
    Webhook.convertToAffiliateLink URL_parse url (Some tag)
    = href (with_query u
              (Some (match strip_affiliate (URLSearchParams.new (search u)) with
                     | [] => js "tag=" ++ tag
                     | kept => URLSearchParams.toString kept
                               ++ js "&tag=" ++ tag
                     end))).
Proof.
  intros URL_parse url tag u Hp Hv.
  assert (Hne : tag <> []) by (intros ->; discriminate Hv).
  pose proof (valid_tag_chars _ Hv) as Hch.
  rewrite (webhook_rewrite_parsed URL_parse url u tag Hp Hne).
  rewrite (usv_tag _ Hch). do 3 f_equal.
  unfold URLSearchParams.toString, urlencoded_serialize.
  rewrite List.map_app. cbn [List.map fst snd]. rewrite join_last.
  rewrite (tag_chars_encode _ Hch).
  change (urlencoded_string (js "tag")) with (js "tag").
  destruct (strip_affiliate (URLSearchParams.new (search u))) as [| p l];
    reflexivity.
Qed.

Lemma valid_tag_is_written_verbatim_witness :
  Webhook.convertToAffiliateLink parse_http tagged_url (Some (js "store-20"))
  = js "https://www.amazon.com/dp/B00005N5PF?psc=1&tag=store-20#top".
Proof.
  eassert (Eu : parse_http tagged_url = Some _) by (vm_compute; reflexivity).
  rewrite (valid_tag_is_written_verbatim parse_http tagged_url (js "store-20")
             _ Eu eq_refl).
  vm_compute. reflexivity.
Defined.

(** ** Tag capture (claim C10) *)

Lemma drop_while_all p s :
  Forall (fun c => p c = true) s -> drop_while p s = [].
Proof.
  induction 1 as [| c s Hc _ IH]; [reflexivity |].
  cbn [drop_while]. now rewrite Hc.
Qed.

Lemma drop_while_none p s :
  Forall (fun c => p c = false) s -> drop_while p s = s.
Proof.
  destruct 1 as [| c s Hc _]; [reflexivity |].
  cbn [drop_while]. now rewrite Hc.
Qed.

(** [trim] removes the white space a text is surrounded with, all of it
    and nothing else. *)
Lemma trim_strips_surrounding_space lead core trail :
  Forall (fun c => is_space c = true) lead ->
  Forall (fun c => is_space c = true) trail ->
  Forall (fun c => is_space c = false) core ->
  trim (lead ++ core ++ trail) = core.
Proof.
  intros Hl Ht Hc. unfold trim, trim_start, trim_end.
  rewrite (drop_while_prefix _ _ _ Hl).
  destruct core as [| c core].
  - cbn [app]. rewrite (drop_while_all _ _ Ht). reflexivity.
  - cbn [app drop_while]. rewrite (Forall_inv Hc).
    change (c :: core ++ trail) with ((c :: core) ++ trail).
    rewrite rev_app_distr.
    rewrite (drop_while_prefix is_space (rev trail) (rev (c :: core))
               (Forall_rev Ht)).
    rewrite (drop_while_none _ _ (Forall_rev Hc)). apply rev_involutive.
Qed.

Lemma tag_chars_not_space t :
  isValidAmazonTag t = true -> Forall (fun c => is_space c = false) t.
Proof.
  intros Hv. eapply Forall_impl; [apply valid_tag_chars, Hv |].
  intros c Hc. apply link_char_not_space. now left.
Qed.

(** C10, on the code.  Tag capture validates and stores the text with the
    white space around it removed: for a text that is a valid tag [core]
    surrounded by white space, the tag stored is [core], although the
    validator rejects the text as it was sent.  The poller does so for
    every sender in tag entry, which a sender enters with [/settag], with
    or without a stored tag.  The webhook does so only for a sender who
    has no stored tag.  For a sender who has one, in whatever state and
    so also right after [/settag] and its prompt that the next message
    overwrites the previous tag, the webhook stores nothing and answers
    that it found no URL. *)
Theorem tag_capture_strips_white_space :
  forall URL_parse client (st : BotState) (msg : Message)
         (lead core trail : jsstring),
    text msg = lead ++ core ++ trail ->
    Forall (fun c => is_space c = true) lead ->
    Forall (fun c => is_space c = true) trail ->
    isValidAmazonTag core = true ->
    let tags := <[userId msg := core]> (userTags st) in
    trim (text msg) = core
    /\ (lead ++ trail <> [] -> isValidAmazonTag (text msg) = false)
    /\ (userId msg ∈ usersAwaitingTag st ->
        Poller.onMessage client st msg
        = (mkBot tags (usersAwaitingTag st ∖ {[userId msg]}),
           [SaveUserTags tags;
            SendMessage (chatId msg) (Poller.msg_tag_set (Some core))]))
    /\ (truthy (userTags st !! userId msg) = false ->
        Webhook.handler URL_parse client st (Some msg)
        = (mkBot tags (usersAwaitingTag st),
           [SaveUserTags tags;
            SendMessage (chatId msg) (Webhook.msg_tag_set (Some core));
            Respond 200 (js "Tag processed")]))
    /\ (truthy (userTags st !! userId msg) = true ->
        Webhook.handler URL_parse client st (Some msg)
        = (st, [SendMessage (chatId msg) Webhook.msg_no_url;
                Respond 200 (js "No URL found")])).
Proof.
  intros URL_parse client st msg lead core trail Etext Hl Ht Hv tags.
  assert (Etrim : trim (text msg) = core).
  { rewrite Etext.
    apply trim_strips_surrounding_space; auto using tag_chars_not_space. }
  assert (Hvt : isValidAmazonTag (trim (text msg)) = true)
    by (rewrite Etrim; exact Hv).
  destruct (tag_text_is_plain _ Hvt) as [Hc Hu].
  split; [exact Etrim |]. split; [| split; [| split]].
  - intros Hne.
    destruct (isValidAmazonTag (text msg)) eqn:Ev; [exfalso | reflexivity].
    apply tag_chars_not_space in Ev. rewrite Etext in Ev.
    apply Forall_app in Ev. destruct Ev as [El Ev].
    apply Forall_app in Ev. destruct Ev as [_ Er].
    destruct lead as [| c lead].
    + destruct trail as [| c trail]; [now apply Hne |].
      apply Forall_inv in Ht. apply Forall_inv in Er. congruence.
    + apply Forall_inv in Hl. apply Forall_inv in El. congruence.
  - intros Ha. unfold Poller.onMessage.
    rewrite (bool_decide_eq_true_2 _ Ha), Etrim, Hv, (valid_tag_nonempty _ Hv).
    cbn [negb andb]. cbv zeta. fold tags.
    unfold tags at 3. rewrite lookup_insert_eq. reflexivity.
  - intros Hn. unfold Webhook.handler.
    rewrite (not_command_not_settag _ Hc), Hn, Hc, Etrim, Hv,
      (valid_tag_nonempty _ Hv).
    cbn [negb andb]. cbv zeta. fold tags.
    unfold tags at 3. rewrite lookup_insert_eq. reflexivity.
  - intros Hs. unfold Webhook.handler.
    rewrite (not_command_not_settag _ Hc), Hs, Hc, Hu. reflexivity.
Qed.

(** User 7 has the tag [store-20], sends [/settag], is told that the
    next message overwrites the tag, and sends [ shop-21 ].  The webhook
    keeps [store-20] and answers that it found no URL; the poller stores
    [shop-21]. *)
Lemma tag_capture_strips_white_space_witness :
  Webhook.handler parse_http offline registered (Some (says "/settag"))
  = (mkBot (userTags registered) {[ 7%Z ]},
     [SendMessage 1 msg_settag_prompt; Respond 200 (js "Set tag prompt sent")])
  /\ Poller.onSetTag registered (says "/settag")
     = (mkBot (userTags registered) {[ 7%Z ]},
        [SendMessage 1 msg_settag_prompt])
  /\ trim (js " shop-21 ") = js "shop-21"
  /\ isValidAmazonTag (js " shop-21 ") = false
  /\ Webhook.handler parse_http offline
       (mkBot (userTags registered) {[ 7%Z ]}) (Some (says " shop-21 "))
     = (mkBot (userTags registered) {[ 7%Z ]},
        [SendMessage 1 Webhook.msg_no_url; Respond 200 (js "No URL found")])
  /\ userTags registered !! 7%Z = Some (js "store-20")
  /\ userTags (fst (Poller.onMessage offline
                      (mkBot (userTags registered) {[ 7%Z ]})
                      (says " shop-21 "))) !! 7%Z
     = Some (js "shop-21").
Proof.
  destruct (tag_capture_strips_white_space parse_http offline
              (mkBot (userTags registered) {[ 7%Z ]}) (says " shop-21 ")
              [32] (js "shop-21") [32] eq_refl)
    as (Htrim & Hraw & Hp & _ & Hw).
  - repeat constructor.
  - repeat constructor.
  - reflexivity.
  - split; [vm_compute; reflexivity |].
    split; [vm_compute; reflexivity |].
    split; [exact Htrim |].
    split; [apply Hraw; discriminate |].
    split; [apply Hw; reflexivity |].
    split; [reflexivity |].
    rewrite Hp by reflexivity. vm_compute. reflexivity.
Defined.
